(** * ShrikeOS Monitor: the software watchdog manager (src/watchdog.c)

    A shallow embedding of the watchdog registry, its public API and the
    body of the checker thread, followed by the properties of the
    specification that concern them.

    Conventions of the embedding:
    - [uint32_t] fields are [Z] values; every [++] and the product
      [timeout_ms * 3] are written with their reduction modulo 2^32;
    - [int] slots and [int64_t] clock values are [Z]; the clock value read
      by [k_uptime_get()] is an explicit argument [now];
    - the table [wdg_table[WDG_MAX_THREADS]] is a list indexed with stdpp's
      lookup and insert, every access being guarded as in the source;
    - a recovery callback is a function pointer: [None] is [NULL], [Some a]
      the function at address [a];
    - [wdg_mutex] serialises the API functions and the checker, so each API
      function is one atomic state transformer; the checker releases the
      mutex around the recovery callback, and the calls that the callback and
      the other threads make in that window are an explicit argument.

    The development then covers the rest of watchdog.c and, each in a
    module of its own, the ring-buffer log (src/logger.c), the command
    engine (src/command.c) and the serial commands of src/main.c. *)

From Stdlib Require Import ZArith String Ascii Lia Bool.
From stdpp Require Import base decidable option list relations sorting.

Local Open Scope Z_scope.

(** * The program *)

(** ** Configuration *)

Definition WDG_MAX_THREADS : Z := 8.
Definition WDG_CHECK_INTERVAL_MS : Z := 1000.

(** ** Machine integers *)

(** Reduction of a value to [uint32_t]. *)
Definition u32 (x : Z) : Z := x mod 2 ^ 32.

(** [x++] on a [uint32_t]. *)
Definition u32_incr (x : Z) : Z := u32 (x + 1).

(** ** Data model *)

Inductive wdg_thread_state : Set :=
| WDG_STATE_IDLE
| WDG_STATE_HEALTHY
| WDG_STATE_WARNING
| WDG_STATE_UNRESPONSIVE
| WDG_STATE_RECOVERED.

Definition wdg_thread_state_eqb (a b : wdg_thread_state) : bool :=
  match a, b with
  | WDG_STATE_IDLE, WDG_STATE_IDLE
  | WDG_STATE_HEALTHY, WDG_STATE_HEALTHY
  | WDG_STATE_WARNING, WDG_STATE_WARNING
  | WDG_STATE_UNRESPONSIVE, WDG_STATE_UNRESPONSIVE
  | WDG_STATE_RECOVERED, WDG_STATE_RECOVERED => true
  | _, _ => false
  end.

(** [wdg_recovery_cb_t]: a nullable function pointer. *)
Definition wdg_recovery_cb_t : Set := option N.

Record wdg_entry : Set := mk_wdg_entry {
  active : bool;
  name : string;
  timeout_ms : Z;
  last_heartbeat : Z;
  state : wdg_thread_state;
  recovery_cb : wdg_recovery_cb_t;
  heartbeat_count : Z;
  timeout_count : Z;
  recovery_count : Z
}.

Record wdg_stats_t : Set := mk_wdg_stats {
  total_heartbeats : Z;
  total_timeouts : Z;
  total_recoveries : Z;
  checks_performed : Z
}.

(** The file-scope variables of watchdog.c. *)
Record wdg : Set := mk_wdg {
  wdg_table : list wdg_entry;
  wdg_count : Z;
  wdg_enabled : bool;
  wdg_stats : wdg_stats_t
}.

(** An entry of the zero-initialised table, also what [memset(e, 0, ...)]
    leaves. *)
Definition zero_entry : wdg_entry :=
  {| active := false; name := EmptyString; timeout_ms := 0;
     last_heartbeat := 0; state := WDG_STATE_IDLE; recovery_cb := None;
     heartbeat_count := 0; timeout_count := 0; recovery_count := 0 |}.

(** The state at program start: static storage is zeroed, [wdg_enabled] is
    initialised to [true]. *)
Definition wdg_init : wdg :=
  {| wdg_table := replicate (Z.to_nat WDG_MAX_THREADS) zero_entry;
     wdg_count := 0;
     wdg_enabled := true;
     wdg_stats := mk_wdg_stats 0 0 0 0 |}.

(** *** Field updates, one per assignment group of the source *)

Definition entry_beat (now : Z) (e : wdg_entry) : wdg_entry :=
  {| active := active e; name := name e; timeout_ms := timeout_ms e;
     last_heartbeat := now; state := WDG_STATE_HEALTHY;
     recovery_cb := recovery_cb e;
     heartbeat_count := u32_incr (heartbeat_count e);
     timeout_count := timeout_count e; recovery_count := recovery_count e |}.

Definition entry_retire (e : wdg_entry) : wdg_entry :=
  {| active := false; name := name e; timeout_ms := timeout_ms e;
     last_heartbeat := last_heartbeat e; state := state e;
     recovery_cb := recovery_cb e; heartbeat_count := heartbeat_count e;
     timeout_count := timeout_count e; recovery_count := recovery_count e |}.

Definition entry_timed_out (e : wdg_entry) : wdg_entry :=
  {| active := active e; name := name e; timeout_ms := timeout_ms e;
     last_heartbeat := last_heartbeat e; state := WDG_STATE_UNRESPONSIVE;
     recovery_cb := recovery_cb e; heartbeat_count := heartbeat_count e;
     timeout_count := u32_incr (timeout_count e);
     recovery_count := recovery_count e |}.

Definition entry_recovered (e : wdg_entry) : wdg_entry :=
  {| active := active e; name := name e; timeout_ms := timeout_ms e;
     last_heartbeat := last_heartbeat e; state := WDG_STATE_RECOVERED;
     recovery_cb := recovery_cb e; heartbeat_count := heartbeat_count e;
     timeout_count := timeout_count e;
     recovery_count := u32_incr (recovery_count e) |}.

Definition entry_warning (e : wdg_entry) : wdg_entry :=
  {| active := active e; name := name e; timeout_ms := timeout_ms e;
     last_heartbeat := last_heartbeat e; state := WDG_STATE_WARNING;
     recovery_cb := recovery_cb e; heartbeat_count := heartbeat_count e;
     timeout_count := timeout_count e; recovery_count := recovery_count e |}.

Definition stats_beat (st : wdg_stats_t) : wdg_stats_t :=
  mk_wdg_stats (u32_incr (total_heartbeats st)) (total_timeouts st)
               (total_recoveries st) (checks_performed st).

Definition stats_timeout (st : wdg_stats_t) : wdg_stats_t :=
  mk_wdg_stats (total_heartbeats st) (u32_incr (total_timeouts st))
               (total_recoveries st) (checks_performed st).

Definition stats_recovery (st : wdg_stats_t) : wdg_stats_t :=
  mk_wdg_stats (total_heartbeats st) (total_timeouts st)
               (u32_incr (total_recoveries st)) (checks_performed st).

Definition stats_check (st : wdg_stats_t) : wdg_stats_t :=
  mk_wdg_stats (total_heartbeats st) (total_timeouts st)
               (total_recoveries st) (u32_incr (checks_performed st)).

(** [wdg_table[slot]], for a slot already checked to be non-negative. *)
Definition table_get (s : wdg) (slot : Z) : option wdg_entry :=
  wdg_table s !! Z.to_nat slot.

(** [wdg_table[slot] = e]. *)
Definition table_set (slot : Z) (e : wdg_entry) (s : wdg) : wdg :=
  {| wdg_table := <[Z.to_nat slot := e]> (wdg_table s);
     wdg_count := wdg_count s;
     wdg_enabled := wdg_enabled s;
     wdg_stats := wdg_stats s |}.

Definition with_stats (f : wdg_stats_t -> wdg_stats_t) (s : wdg) : wdg :=
  {| wdg_table := wdg_table s;
     wdg_count := wdg_count s;
     wdg_enabled := wdg_enabled s;
     wdg_stats := f (wdg_stats s) |}.

(** The slot test shared by [wdg_heartbeat], [wdg_unregister] and
    [wdg_get_state]: [slot < 0 || slot >= WDG_MAX_THREADS]. *)
Definition slot_out_of_range (slot : Z) : bool :=
  (slot <? 0) || (WDG_MAX_THREADS <=? slot).

(** ** Public API *)

(** [strncpy(e->name, name, sizeof(e->name) - 1)] into a zeroed buffer of 24
    bytes: the first 23 characters at most. *)
Definition copy_name (nm : string) : string := substring 0 23 nm.

(** [wdg_register]: the slot (or -1 when the table is full) and the new
    state. [timeout] is a [uint32_t] argument, so 0 <= timeout < 2^32 in
    every call the program makes; the statements that depend on it say so. *)
Definition wdg_register (now : Z) (nm : string) (timeout : Z)
    (cb : wdg_recovery_cb_t) (s : wdg) : Z * wdg :=
  if WDG_MAX_THREADS <=? wdg_count s then (-1, s)
  else
    let slot := wdg_count s in
    let e := {| active := true; name := copy_name nm; timeout_ms := timeout;
                last_heartbeat := now; state := WDG_STATE_IDLE;
                recovery_cb := cb; heartbeat_count := 0;
                timeout_count := 0; recovery_count := 0 |} in
    (slot,
     {| wdg_table := <[Z.to_nat slot := e]> (wdg_table s);
        wdg_count := slot + 1;
        wdg_enabled := wdg_enabled s;
        wdg_stats := wdg_stats s |}).

Definition wdg_heartbeat (now slot : Z) (s : wdg) : wdg :=
  if slot_out_of_range slot then s
  else
    match table_get s slot with
    | Some e =>
        if active e
        then with_stats stats_beat (table_set slot (entry_beat now e) s)
        else s
    | None => s
    end.

Definition wdg_unregister (slot : Z) (s : wdg) : wdg :=
  if slot_out_of_range slot then s
  else
    match table_get s slot with
    | Some e => if active e then table_set slot (entry_retire e) s else s
    | None => s
    end.

Definition wdg_enable (enable : bool) (s : wdg) : wdg :=
  {| wdg_table := wdg_table s;
     wdg_count := wdg_count s;
     wdg_enabled := enable;
     wdg_stats := wdg_stats s |}.

(** [wdg_get_state] reads the state field of any in-range slot; it does not
    look at [active]. *)
Definition wdg_get_state (slot : Z) (s : wdg) : wdg_thread_state :=
  if slot_out_of_range slot then WDG_STATE_IDLE
  else
    match table_get s slot with
    | Some e => state e
    | None => WDG_STATE_IDLE
    end.

(** The entries visited by [for (i = 0; i < wdg_count; i++)]. *)
Definition allocated (s : wdg) : list wdg_entry :=
  take (Z.to_nat (wdg_count s)) (wdg_table s).

Definition wdg_get_healthy_count (s : wdg) : Z :=
  Z.of_nat
    (length
       (filter
          (fun e => active e && wdg_thread_state_eqb (state e) WDG_STATE_HEALTHY = true)
          (allocated s))).

(** [wdg_dump_status]: what the status table shows, as data. One row per
    active entry below [wdg_count], with the columns Slot, Name, State,
    Timeout, Beats, Fails; the header line shows [wdg_enabled] and the
    aggregate statistics. *)
Record status_row : Set := mk_status_row {
  row_slot : Z;
  row_name : string;
  row_state : wdg_thread_state;
  row_timeout : Z;
  row_beats : Z;
  row_fails : Z
}.

Definition wdg_dump_status (s : wdg) : bool * wdg_stats_t * list status_row :=
  (wdg_enabled s, wdg_stats s,
   omap (fun p : nat * wdg_entry =>
           let e := p.2 in
           if active e
           then Some (mk_status_row (Z.of_nat p.1) (name e) (state e)
                        (timeout_ms e) (heartbeat_count e) (timeout_count e))
           else None)
        (imap (fun i e => (i, e)) (allocated s))).

(** *** API calls as data

    Used for the calls made while the checker has released the mutex, and
    for sequences of operations. *)

Inductive api_call : Set :=
| CallRegister (now : Z) (nm : string) (timeout : Z) (cb : wdg_recovery_cb_t)
| CallHeartbeat (now slot : Z)
| CallUnregister (slot : Z)
| CallEnable (enable : bool)
| CallGetState (slot : Z)
| CallGetHealthyCount
| CallDumpStatus.

Inductive api_result : Set :=
| RetSlot (slot : Z)
| RetVoid
| RetState (st : wdg_thread_state)
| RetCount (n : Z)
| RetStatus (report : bool * wdg_stats_t * list status_row).

(** The recovery action the checker invokes: [cb(ename, el)] or
    [wdg_default_recovery(ename, el)], which only prints. *)
Inductive recovery_action : Set :=
| InvokeCallback (cb : N) (ename : string) (el : Z)
| InvokeDefault (ename : string) (el : Z).

(** What an execution lets one observe: the value each API call returned and
    each recovery action invoked (with the slot it was invoked for). *)
Inductive obs : Set :=
| ObsCall (c : api_call) (r : api_result)
| ObsRecovery (slot : Z) (a : recovery_action).

Definition run_call (c : api_call) (s : wdg) : wdg * api_result :=
  match c with
  | CallRegister now nm timeout cb =>
      let r := wdg_register now nm timeout cb s in (r.2, RetSlot r.1)
  | CallHeartbeat now slot => (wdg_heartbeat now slot s, RetVoid)
  | CallUnregister slot => (wdg_unregister slot s, RetVoid)
  | CallEnable enable => (wdg_enable enable s, RetVoid)
  | CallGetState slot => (s, RetState (wdg_get_state slot s))
  | CallGetHealthyCount => (s, RetCount (wdg_get_healthy_count s))
  | CallDumpStatus => (s, RetStatus (wdg_dump_status s))
  end.

Fixpoint run_calls (cs : list api_call) (s : wdg) : wdg * list obs :=
  match cs with
  | [] => (s, [])
  | c :: cs' =>
      let r := run_call c s in
      let r' := run_calls cs' r.1 in
      (r'.1, ObsCall c r.2 :: r'.2)
  end.

(** ** The checker thread *)

(** The part of the loop body for slot [i] that runs with the mutex held, up
    to [k_mutex_unlock] before the callback: the new state, and the recovery
    action to invoke if the entry has just been marked unresponsive. *)
Definition checker_detect (now i : Z) (s : wdg)
  : wdg * option recovery_action :=
  match table_get s i with
  | None => (s, None)
  | Some e =>
      if negb (active e) then (s, None)
      else
        let elapsed := now - last_heartbeat e in
        if elapsed >? timeout_ms e then
          if negb (wdg_thread_state_eqb (state e) WDG_STATE_UNRESPONSIVE)
             && negb (wdg_thread_state_eqb (state e) WDG_STATE_RECOVERED)
          then
            (with_stats stats_timeout (table_set i (entry_timed_out e) s),
             Some (match recovery_cb e with
                   | Some cb => InvokeCallback cb (name e) (u32 elapsed)
                   | None => InvokeDefault (name e) (u32 elapsed)
                   end))
          else (s, None)
        else if elapsed >? u32 (timeout_ms e * 3) / 4 then
          if wdg_thread_state_eqb (state e) WDG_STATE_HEALTHY
          then (table_set i (entry_warning e) s, None)
          else (s, None)
        else (s, None)
  end.

(** The part after [k_mutex_lock] is taken again: [e] still points to
    [wdg_table[i]], whatever happened to it in between. *)
Definition checker_complete (i : Z) (s : wdg) : wdg :=
  match table_get s i with
  | Some e => with_stats stats_recovery (table_set i (entry_recovered e) s)
  | None => s
  end.

(** The loop body for slot [i]. [win i] lists the API calls that the recovery
    action itself and the other threads make while the mutex is released for
    slot [i]; [fun _ => []] is the run with nothing in between. *)
Definition checker_entry (win : Z -> list api_call) (now i : Z) (s : wdg)
  : wdg * list obs :=
  match checker_detect now i s with
  | (s1, Some a) =>
      let r := run_calls (win i) s1 in
      (checker_complete i r.1, ObsRecovery i a :: r.2)
  | (s1, None) => (s1, [])
  end.

(** [for (int i = 0; i < wdg_count; i++)], from index [i] on; [wdg_count] is
    read again at every iteration. [fuel] bounds the number of iterations
    ([checker_for_fuel] shows that [WDG_MAX_THREADS] is always enough). *)
Fixpoint checker_for (fuel : nat) (win : Z -> list api_call) (now i : Z)
    (s : wdg) : wdg * list obs :=
  match fuel with
  | O => (s, [])
  | S fuel' =>
      if i <? wdg_count s then
        let r := checker_entry win now i s in
        let r' := checker_for fuel' win now (i + 1) r.1 in
        (r'.1, r.2 ++ r'.2)
      else (s, [])
  end.

(** One iteration of the [while (1)] of [wdg_checker_fn], the clock reading
    [now] when it wakes up. *)
Definition wdg_checker_tick (win : Z -> list api_call) (now : Z) (s : wdg)
  : wdg * list obs :=
  if negb (wdg_enabled s) then (s, [])
  else checker_for (Z.to_nat WDG_MAX_THREADS) win now 0
         (with_stats stats_check s).

(** The run with no call between unlock and lock. *)
Definition no_calls : Z -> list api_call := fun _ => [].

(** ** Sequences of operations *)

Inductive wdg_op : Type :=
| OpCall (c : api_call)
| OpTick (now : Z) (win : Z -> list api_call).

Definition run_op (o : wdg_op) (s : wdg) : wdg * list obs :=
  match o with
  | OpCall c => let r := run_call c s in (r.1, [ObsCall c r.2])
  | OpTick now win => wdg_checker_tick win now s
  end.

Fixpoint run_ops (os : list wdg_op) (s : wdg) : wdg * list obs :=
  match os with
  | [] => (s, [])
  | o :: os' =>
      let r := run_op o s in
      let r' := run_ops os' r.1 in
      (r'.1, r.2 ++ r'.2)
  end.

(** States the program can be in. *)
Definition reachable (s : wdg) : Prop :=
  exists os, (run_ops os wdg_init).1 = s.

(** * Notions used in the statements *)

(** ** Well-formed states *)

Global Instance wdg_thread_state_eq_dec : EqDecision wdg_thread_state.
Proof. solve_decision. Defined.

Global Instance name_eq_dec : EqDecision string := string_dec.

Global Instance wdg_entry_eq_dec : EqDecision wdg_entry.
Proof. solve_decision. Defined.

(** The shape every state of the program has: the table has its
    [WDG_MAX_THREADS] elements, [wdg_count] is between 0 and
    [WDG_MAX_THREADS], and the slots from [wdg_count] on have never been
    written. *)
Definition wdg_wfb (s : wdg) : bool :=
  bool_decide (length (wdg_table s) = Z.to_nat WDG_MAX_THREADS)
  && (0 <=? wdg_count s) && (wdg_count s <=? WDG_MAX_THREADS)
  && forallb (fun e => bool_decide (e = zero_entry))
       (drop (Z.to_nat (wdg_count s)) (wdg_table s)).

Definition wdg_wf (s : wdg) : Prop := wdg_wfb s = true.

(** An in-range slot holding an active entry. *)
Definition slot_active (s : wdg) (slot : Z) : bool :=
  negb (slot_out_of_range slot)
  && match table_get s slot with
     | Some e => active e
     | None => false
     end.

(** ** The atomic updates of the registry

    Every write of watchdog.c to the shared state is one of these; each is
    made with the mutex held. *)
Inductive wdg_step : wdg -> wdg -> Prop :=
| step_register s now nm timeout cb :
    wdg_count s < WDG_MAX_THREADS ->
    wdg_step s (wdg_register now nm timeout cb s).2
| step_beat s k e now :
    table_get s k = Some e -> active e = true ->
    wdg_step s (with_stats stats_beat (table_set k (entry_beat now e) s))
| step_retire s k e :
    table_get s k = Some e -> active e = true ->
    wdg_step s (table_set k (entry_retire e) s)
| step_enable s b :
    wdg_step s (wdg_enable b s)
| step_check s :
    wdg_step s (with_stats stats_check s)
| step_timed_out s k e :
    table_get s k = Some e -> active e = true ->
    wdg_step s (with_stats stats_timeout (table_set k (entry_timed_out e) s))
| step_warning s k e :
    table_get s k = Some e -> active e = true ->
    wdg_step s (table_set k (entry_warning e) s)
| step_recovered s k e :
    table_get s k = Some e -> 0 <= k < wdg_count s ->
    wdg_step s (with_stats stats_recovery (table_set k (entry_recovered e) s)).

(** Sum of a per-entry counter over all the slots of the table. *)
Definition table_sum (f : wdg_entry -> Z) (l : list wdg_entry) : Z :=
  foldr (fun e acc => f e + acc) 0 l.

(** Each aggregate is the sum of the per-entry counters, as integers. *)
Definition stats_exact (s : wdg) : Prop :=
  total_heartbeats (wdg_stats s) = table_sum heartbeat_count (wdg_table s) /\
  total_timeouts (wdg_stats s) = table_sum timeout_count (wdg_table s) /\
  total_recoveries (wdg_stats s) = table_sum recovery_count (wdg_table s).

(** Each aggregate is that sum reduced modulo 2^32. *)
Definition stats_consistent (s : wdg) : Prop :=
  total_heartbeats (wdg_stats s)
    = u32 (table_sum heartbeat_count (wdg_table s)) /\
  total_timeouts (wdg_stats s)
    = u32 (table_sum timeout_count (wdg_table s)) /\
  total_recoveries (wdg_stats s)
    = u32 (table_sum recovery_count (wdg_table s)).

(** The per-entry counters are values of [uint32_t]. *)
Definition entry_counters_ok (e : wdg_entry) : Prop :=
  0 <= heartbeat_count e < 2 ^ 32 /\
  0 <= timeout_count e < 2 ^ 32 /\
  0 <= recovery_count e < 2 ^ 32.

Definition counters_ok (s : wdg) : Prop :=
  Forall entry_counters_ok (wdg_table s).

(** The invariant of the registry. *)
Definition wdg_inv (s : wdg) : Prop :=
  wdg_wf s /\ counters_ok s /\ stats_consistent s.

(** ** What the checker decides for one entry *)

(** The action invoked for entry [e] at clock value [now]. *)
Definition recovery_of (now : Z) (e : wdg_entry) : recovery_action :=
  match recovery_cb e with
  | Some cb => InvokeCallback cb (name e) (u32 (now - last_heartbeat e))
  | None => InvokeDefault (name e) (u32 (now - last_heartbeat e))
  end.

Inductive verdict : Set :=
| Expired (a : recovery_action)
| Warn
| Keep.

(** The branch of the loop body taken for entry [e], read off the fields of
    [e] alone. *)
Definition entry_verdict (now : Z) (e : wdg_entry) : verdict :=
  if negb (active e) then Keep
  else if now - last_heartbeat e >? timeout_ms e then
    if negb (wdg_thread_state_eqb (state e) WDG_STATE_UNRESPONSIVE)
       && negb (wdg_thread_state_eqb (state e) WDG_STATE_RECOVERED)
    then Expired (recovery_of now e)
    else Keep
  else if now - last_heartbeat e >? u32 (timeout_ms e * 3) / 4 then
    if wdg_thread_state_eqb (state e) WDG_STATE_HEALTHY then Warn else Keep
  else Keep.

(** The entry once the loop body is through with it, when nothing touches it
    while the mutex is released. *)
Definition entry_checked (now : Z) (e : wdg_entry) : wdg_entry :=
  match entry_verdict now e with
  | Expired _ => entry_recovered (entry_timed_out e)
  | Warn => entry_warning e
  | Keep => e
  end.

Definition entry_recoveries (now : Z) (e : wdg_entry) : list recovery_action :=
  match entry_verdict now e with
  | Expired a => [a]
  | _ => []
  end.

(** The recovery actions of a trace that were invoked for slot [i]. *)
Definition recoveries_for (i : Z) (tr : list obs) : list recovery_action :=
  omap (fun o => match o with
                 | ObsRecovery j a => if j =? i then Some a else None
                 | ObsCall _ _ => None
                 end) tr.

(** The slots returned by the successful registrations of a trace. *)
Definition registered_slots (tr : list obs) : list Z :=
  omap (fun o => match o with
                 | ObsCall (CallRegister _ _ _ _) (RetSlot z) =>
                     if z =? -1 then None else Some z
                 | _ => None
                 end) tr.

(** Calls that are a heartbeat for slot [i], an unregistration of slot [i]. *)
Definition beats (i : Z) (c : api_call) : bool :=
  match c with
  | CallHeartbeat _ slot => slot =? i
  | _ => false
  end.

Definition retires (i : Z) (c : api_call) : bool :=
  match c with
  | CallUnregister slot => slot =? i
  | _ => false
  end.

(** Slot [i] is allocated in the well-formed state [s] and its entry
    satisfies [P]. *)
Definition slot_has (i : Z) (P : wdg_entry -> Prop) (s : wdg) : Prop :=
  wdg_wf s /\ 0 <= i < wdg_count s /\
  exists e, table_get s i = Some e /\ P e.

(** An operation all of whose calls satisfy [okc] and, for a tick, whose
    clock value satisfies [okt]. *)
Definition op_ok (okc : api_call -> bool) (okt : Z -> Prop) (o : wdg_op)
  : Prop :=
  match o with
  | OpCall c => okc c = true
  | OpTick now win =>
      okt now /\ forall j, Forall (fun c => okc c = true) (win j)
  end.

(** A call that is neither a heartbeat for slot [i] nor an unregistration of
    it. *)
Definition quiet (i : Z) (c : api_call) : bool :=
  negb (beats i c || retires i c).

(** A run from state [s] that leaves slot [i] alone and in which every tick
    that finds the watchdog enabled comes at most [T] after [now0]; a tick
    that finds it disabled may come at any time. *)
Fixpoint silent_until (i now0 T : Z) (os : list wdg_op) (s : wdg) : Prop :=
  match os with
  | [] => True
  | o :: os' =>
      match o with
      | OpCall c => quiet i c = true
      | OpTick now win =>
          (wdg_enabled s = true -> now - now0 <= T)
          /\ forall j, Forall (fun c => quiet i c = true) (win j)
      end
      /\ silent_until i now0 T os' (run_op o s).1
  end.

(** Two states that differ at most in [wdg_enabled]. *)
Definition same_registry (s s' : wdg) : Prop :=
  wdg_table s' = wdg_table s /\ wdg_count s' = wdg_count s
  /\ wdg_stats s' = wdg_stats s.

Definition same_identity (e e' : wdg_entry) : Prop :=
  name e' = name e /\ timeout_ms e' = timeout_ms e
  /\ recovery_cb e' = recovery_cb e.

(** Calls other than a heartbeat for slot [i]. *)
Definition no_beat (i : Z) (c : api_call) : bool := negb (beats i c).

(** The state after [n] heartbeats for slot [i] at clock value [now]. *)
Definition beat_many (now i n : Z) (s : wdg) : wdg :=
  match table_get s i with
  | Some e =>
      {| wdg_table :=
           <[Z.to_nat i :=
               {| active := active e; name := name e;
                  timeout_ms := timeout_ms e; last_heartbeat := now;
                  state := WDG_STATE_HEALTHY; recovery_cb := recovery_cb e;
                  heartbeat_count := u32 (heartbeat_count e + n);
                  timeout_count := timeout_count e;
                  recovery_count := recovery_count e |}]> (wdg_table s);
         wdg_count := wdg_count s;
         wdg_enabled := wdg_enabled s;
         wdg_stats :=
           mk_wdg_stats (u32 (total_heartbeats (wdg_stats s) + n))
             (total_timeouts (wdg_stats s)) (total_recoveries (wdg_stats s))
             (checks_performed (wdg_stats s)) |}
  | None => s
  end.

(** ** Example states *)

(** One entry, registered at time 0 with a timeout of 1000 ms. *)
Definition demo_registered : wdg :=
  (wdg_register 0 "sensor" 1000 None wdg_init).2.

(** The same after a heartbeat at time 0. *)
Definition demo_healthy : wdg := wdg_heartbeat 0 0 demo_registered.

(** The same, unregistered. *)
Definition demo_retired : wdg := wdg_unregister 0 demo_healthy.

(** A full table. *)
Definition demo_full : wdg :=
  Nat.iter 8 (fun s => (wdg_register 0 "worker" 500 (Some 1%N) s).2) wdg_init.

(** Two entries, registered at time 0 with timeouts of 100 and 200 ms, the
    first with a callback. *)
Definition demo_pair : wdg :=
  (wdg_register 0 "B" 200 None
     (wdg_register 0 "A" 100 (Some 7%N) wdg_init).2).2.

(** The registry of [demo_pair] after 2^31 heartbeats for slot 0 and
    2^31 - 1 heartbeats for slot 1. *)
Definition demo_wrap : wdg :=
  beat_many 0 1 2147483647 (beat_many 0 0 2147483648 demo_pair).

(** The calls made while the recovery action of slot 0 runs: one call of
    [wdg_enable (false)]; no call in the other windows. *)
Definition disable_in_window : Z -> list api_call :=
  fun j => if j =? 0 then [CallEnable false] else [].

Global Arguments checker_for : simpl never.
Global Arguments wdg_checker_tick : simpl never.

(** * More of watchdog.c, and notions for its further properties *)

(** [wdg_state_names], indexed by the value of the enumeration. *)
Definition wdg_state_names : list string :=
  ["IDLE"; "HEALTHY"; "WARNING"; "UNRESPONSIVE"; "RECOVERED"]%string.

(** The value of each enumerator of [enum wdg_thread_state]. *)
Definition state_code (st : wdg_thread_state) : N :=
  match st with
  | WDG_STATE_IDLE => 0
  | WDG_STATE_HEALTHY => 1
  | WDG_STATE_WARNING => 2
  | WDG_STATE_UNRESPONSIVE => 3
  | WDG_STATE_RECOVERED => 4
  end%N.

(** [wdg_get_state_name]. [st] is the argument as the unsigned value that
    [st >= ARRAY_SIZE(wdg_state_names)] compares. *)
Definition wdg_get_state_name (st : N) : string :=
  if (N.of_nat (length wdg_state_names) <=? st)%N then "UNKNOWN"%string
  else default EmptyString (wdg_state_names !! N.to_nat st).

(** The row [wdg_dump_status] prints for slot [i] holding [e]. *)
Definition status_row_of (i : Z) (e : wdg_entry) : status_row :=
  mk_status_row i (name e) (state e) (timeout_ms e) (heartbeat_count e)
    (timeout_count e).

(** The number of ticks of [os], run from [s], that find the watchdog
    enabled. *)
Fixpoint enabled_ticks (os : list wdg_op) (s : wdg) : Z :=
  match os with
  | [] => 0
  | o :: os' =>
      (match o with
       | OpTick _ _ => if wdg_enabled s then 1 else 0
       | OpCall _ => 0
       end) + enabled_ticks os' (run_op o s).1
  end.

(** [timely i T last os]: along [os], every tick comes at most [T] after the
    latest heartbeat for slot [i], the latest before [os] being at [last];
    no heartbeat for slot [i] is made while the checker has released the
    mutex. *)
Fixpoint timely (i T last : Z) (os : list wdg_op) : Prop :=
  match os with
  | [] => True
  | OpCall (CallHeartbeat t slot) :: os' =>
      timely i T (if slot =? i then t else last) os'
  | OpCall _ :: os' => timely i T last os'
  | OpTick now win :: os' =>
      now - last <= T
      /\ (forall j, Forall (fun c => no_beat i c = true) (win j))
      /\ timely i T last os'
  end.

(** Every timeout has had its recovery: the two aggregates agree, and so do
    the two counters of every entry. *)
Definition timeouts_matched (s : wdg) : Prop :=
  total_timeouts (wdg_stats s) = total_recoveries (wdg_stats s)
  /\ Forall (fun e => timeout_count e = recovery_count e) (wdg_table s).

(** The same while the recovery action of slot [j] runs: slot [j] and the
    aggregate are one timeout ahead. *)
Definition timeouts_pending (j : Z) (s : wdg) : Prop :=
  total_timeouts (wdg_stats s) = u32_incr (total_recoveries (wdg_stats s))
  /\ forall k e, wdg_table s !! k = Some e ->
       timeout_count e
       = if decide (k = Z.to_nat j) then u32_incr (recovery_count e)
         else recovery_count e.

(** No entry is Unresponsive; none but that of slot [j]. *)
Definition none_unresponsive (s : wdg) : Prop :=
  Forall (fun e => state e <> WDG_STATE_UNRESPONSIVE) (wdg_table s).

Definition none_unresponsive_but (j : Z) (s : wdg) : Prop :=
  forall k e, wdg_table s !! k = Some e -> k <> Z.to_nat j ->
              state e <> WDG_STATE_UNRESPONSIVE.

(** The rows of [wdg_dump_status] for the entries [l], the entry at position
    [i] being that of slot [g i]. *)
Definition status_rows_with (g : nat -> nat) (l : list wdg_entry)
  : list status_row :=
  omap (fun p : nat * wdg_entry =>
          if active p.2 then Some (status_row_of (Z.of_nat p.1) p.2)
          else None)
       (imap (fun i e => (g i, e)) l).

(** The test of [wdg_get_healthy_count]. *)
Definition is_healthy (e : wdg_entry) : Prop :=
  active e && wdg_thread_state_eqb (state e) WDG_STATE_HEALTHY = true.

(** * A notion shared by the two ring buffers *)

(** The last [n] elements of a list. *)
Definition last_n {A} (n : nat) (l : list A) : list A :=
  drop (length l - n) l.

(** * logger.c: the ring-buffer log

    The embedding follows the same conventions. In addition:
    - a value of [enum log_level] is an [N]: the enumeration has no
      negative enumerator, so GCC and Clang, the compilers Zephyr builds
      with, give it an unsigned type; a value may lie above the enumerators;
    - [shrike_log] receives the expansion of its format string and
      arguments as one string [text], and the value of [k_uptime_get_32()]
      as [now];
    - a function that prints returns the lines it prints, one record per
      [printk] of the loop body. *)

Module Logger.

Definition LOG_BUF_ENTRIES : Z := 64.
Definition LOG_MSG_MAX_LEN : nat := 80.
Definition LOG_MODULE_MAX_LEN : nat := 16.

Definition LOG_LVL_DEBUG : N := 0.
Definition LOG_LVL_INFO : N := 1.
Definition LOG_LVL_WARN : N := 2.
Definition LOG_LVL_ERROR : N := 3.
Definition LOG_LVL_COUNT : N := 4.

Definition log_level_names : list string :=
  ["DEBUG"; "INFO"; "WARN"; "ERROR"]%string.

Definition log_level_tags : list string :=
  ["[D]"; "[I]"; "[W]"; "[E]"]%string.

Record log_entry := mk_log_entry {
  timestamp_ms : Z;
  level : N;
  module : string;
  message : string;
  sequence : Z
}.

Record log_buffer := mk_log_buffer {
  entries : list log_entry;
  head : Z;
  count : Z;
  next_seq : Z
}.

Record log_stats := mk_log_stats {
  total_messages : Z;
  dropped_messages : Z;
  per_level : list Z;
  queries_performed : Z
}.

(** The three static objects of the file. *)
Record logger := mk_logger {
  log_buf : log_buffer;
  log_st : log_stats;
  log_min_level : N
}.

Definition zero_log_entry : log_entry :=
  {| timestamp_ms := 0; level := 0%N; module := ""; message := "";
     sequence := 0 |}.

(** The state [shrike_log_init] builds before it logs its own message:
    both objects zeroed, the filter at [LOG_LVL_DEBUG]. It is also the state
    the program is loaded with. *)
Definition log_zero : logger :=
  {| log_buf := {| entries := replicate (Z.to_nat LOG_BUF_ENTRIES)
                                zero_log_entry;
                   head := 0; count := 0; next_seq := 0 |};
     log_st := {| total_messages := 0; dropped_messages := 0;
                  per_level := replicate (N.to_nat LOG_LVL_COUNT) 0;
                  queries_performed := 0 |};
     log_min_level := LOG_LVL_DEBUG |}.

(** The entry [shrike_log] writes: [strncpy] keeps at most 15 characters of
    the module name, [vsnprintf] at most 79 of the text. *)
Definition new_entry (now : Z) (lvl : N) (mod_name : option string)
    (text : string) (seq : Z) : log_entry :=
  {| timestamp_ms := now;
     level := lvl;
     module := match mod_name with
               | Some m => substring 0 (LOG_MODULE_MAX_LEN - 1) m
               | None => ""%string
               end;
     message := substring 0 (LOG_MSG_MAX_LEN - 1) text;
     sequence := seq |}.

Definition shrike_log (now : Z) (lvl : N) (mod_name : option string)
    (text : string) (g : logger) : logger :=
  if (lvl <? log_min_level g)%N then g
  else
    let b := log_buf g in
    let st := log_st g in
    let e := new_entry now lvl mod_name text (next_seq b) in
    let room := count b <? LOG_BUF_ENTRIES in
    {| log_buf :=
         {| entries := <[Z.to_nat (head b) := e]> (entries b);
            head := Z.rem (head b + 1) LOG_BUF_ENTRIES;
            count := if room then count b + 1 else count b;
            next_seq := u32_incr (next_seq b) |};
       log_st :=
         {| total_messages := u32_incr (total_messages st);
            dropped_messages := if room then dropped_messages st
                                else u32_incr (dropped_messages st);
            per_level := if (lvl <? LOG_LVL_COUNT)%N
                         then alter u32_incr (N.to_nat lvl) (per_level st)
                         else per_level st;
            queries_performed := queries_performed st |};
       log_min_level := log_min_level g |}.

Definition shrike_log_set_level (min : N) (g : logger) : logger :=
  if (min <? LOG_LVL_COUNT)%N
  then {| log_buf := log_buf g; log_st := log_st g; log_min_level := min |}
  else g.

Definition shrike_log_get_level (g : logger) : N := log_min_level g.

Definition shrike_log_clear (g : logger) : logger :=
  {| log_buf := {| entries := entries (log_buf g); head := 0; count := 0;
                   next_seq := next_seq (log_buf g) |};
     log_st := log_st g;
     log_min_level := log_min_level g |}.

(** [start] and [idx] of the query loops; [%] is C's remainder. *)
Definition log_start (b : log_buffer) : Z :=
  Z.rem (head b - count b + LOG_BUF_ENTRIES) LOG_BUF_ENTRIES.

Definition log_idx (b : log_buffer) (i : Z) : Z :=
  Z.rem (log_start b + i) LOG_BUF_ENTRIES.

Definition log_at (b : log_buffer) (i : Z) : log_entry :=
  default zero_log_entry (entries b !! Z.to_nat (log_idx b i)).

(** The entries visited by [for (int i = from; i < log_buf.count; i++)]. *)
Definition log_from (b : log_buffer) (from : Z) : list log_entry :=
  log_at b <$> seqZ from (count b - from).

(** One printed line: seconds, milliseconds, tag, module, message. The tag
    is read from [log_level_tags] at the entry's level; [None] stands for a
    read past the end of that array. *)
Record log_line := mk_log_line {
  line_s : Z;
  line_ms : Z;
  line_tag : option string;
  line_module : string;
  line_message : string
}.

Definition print_entry (e : log_entry) : log_line :=
  {| line_s := timestamp_ms e / 1000;
     line_ms := timestamp_ms e mod 1000;
     line_tag := log_level_tags !! N.to_nat (level e);
     line_module := module e;
     line_message := message e |}.

Definition count_query (g : logger) : logger :=
  {| log_buf := log_buf g;
     log_st := {| total_messages := total_messages (log_st g);
                  dropped_messages := dropped_messages (log_st g);
                  per_level := per_level (log_st g);
                  queries_performed :=
                    u32_incr (queries_performed (log_st g)) |};
     log_min_level := log_min_level g |}.

(** The header of [shrike_log_dump]: [log_buf.count], [LOG_BUF_ENTRIES] and
    the name of the filter, read from [log_level_names] at [min_level];
    [None] stands for a read past the end of that array. *)
Record dump_header := mk_dump_header {
  hdr_count : Z;
  hdr_entries : Z;
  hdr_filter : option string
}.

(** [shrike_log_dump]: the lines printed, the number [shown] of the last
    line, and the header printed before the lines. *)
Definition shrike_log_dump (min_level : N) (g : logger)
    : logger * (list log_line * (Z * dump_header)) :=
  let shown := filter (fun e => ~ (level e < min_level)%N)
                 (log_from (log_buf g) 0) in
  (count_query g,
   (print_entry <$> shown,
    (Z.of_nat (length shown),
     {| hdr_count := count (log_buf g);
        hdr_entries := LOG_BUF_ENTRIES;
        hdr_filter := log_level_names !! N.to_nat min_level |}))).

(** [shrike_log_dump_last]: the number [to_show] of the header and the
    lines printed. The argument is an [int]; [start_offset] is computed
    without overflow when it is above [-2^31 + LOG_BUF_ENTRIES]. *)
Definition shrike_log_dump_last (n : Z) (g : logger)
    : logger * (Z * list log_line) :=
  let b := log_buf g in
  let to_show := if n <? count b then n else count b in
  let start_offset := count b - to_show in
  (count_query g, (to_show, print_entry <$> log_from b start_offset)).

(** [strstr (hay, needle) != NULL]. *)
Definition strstr (hay needle : string) : bool :=
  match index 0 needle hay with Some _ => true | None => false end.

Definition entry_matches (keyword : string) (e : log_entry) : bool :=
  strstr (message e) keyword || strstr (module e) keyword.

(** The loop of [shrike_log_search] over the entries still to visit: the
    entries printed and the final value of [found]. *)
Fixpoint search_loop (keyword : string) (max_results found : Z)
    (es : list log_entry) : list log_entry * Z :=
  match es with
  | [] => ([], found)
  | e :: es' =>
      if found <? max_results then
        if entry_matches keyword e then
          let r := search_loop keyword max_results (found + 1) es' in
          (e :: r.1, r.2)
        else search_loop keyword max_results found es'
      else ([], found)
  end.

Definition shrike_log_search (keyword : string) (max_results : Z)
    (g : logger) : logger * (list log_line * Z) :=
  let r := search_loop keyword max_results 0 (log_from (log_buf g) 0) in
  (count_query g, (print_entry <$> r.1, r.2)).

Definition shrike_log_count_by_level (lvl : N) (g : logger) : Z :=
  Z.of_nat (length (filter (fun e => level e = lvl)
                      (log_from (log_buf g) 0))).

(** [shrike_log_dump_stats]: the numbers printed, then the per-level lines
    and the name of the filter, each name read from [log_level_names]. *)
Definition shrike_log_dump_stats (g : logger)
    : (Z * Z * Z * Z) * list (option string * option Z) * option string :=
  ((count (log_buf g), total_messages (log_st g),
    dropped_messages (log_st g), queries_performed (log_st g)),
   (fun i => (log_level_names !! i, per_level (log_st g) !! i))
     <$> seq 0 (N.to_nat LOG_LVL_COUNT),
   log_level_names !! N.to_nat (log_min_level g)).

Definition shrike_log_init (now : Z) : logger :=
  shrike_log now LOG_LVL_INFO (Some "LOG"%string)
    "Logging subsystem initialised (64 entry buffer)" log_zero.

(** ** Sequences of calls *)

Inductive log_call :=
  | LogWrite (now : Z) (lvl : N) (mod_name : option string) (text : string)
  | LogSetLevel (min : N)
  | LogClear
  | LogDump (min_level : N)
  | LogDumpLast (n : Z)
  | LogSearch (keyword : string) (max_results : Z)
  | LogCountByLevel (lvl : N)
  | LogDumpStats.

Definition run_log_call (c : log_call) (g : logger) : logger :=
  match c with
  | LogWrite now lvl m text => shrike_log now lvl m text g
  | LogSetLevel min => shrike_log_set_level min g
  | LogClear => shrike_log_clear g
  | LogDump min_level => (shrike_log_dump min_level g).1
  | LogDumpLast n => (shrike_log_dump_last n g).1
  | LogSearch keyword max_results =>
      (shrike_log_search keyword max_results g).1
  | LogCountByLevel _ => g
  | LogDumpStats => g
  end.

Definition run_log_calls (cs : list log_call) (g : logger) : logger :=
  foldl (fun g c => run_log_call c g) g cs.

(** ** Notions used in the statements *)

(** The buffered entries, oldest first, as every query loop visits them. *)
Definition log_view (g : logger) : list log_entry :=
  log_from (log_buf g) 0.

Definition log_wf (g : logger) : Prop :=
  length (entries (log_buf g)) = Z.to_nat LOG_BUF_ENTRIES
  /\ 0 <= head (log_buf g) < LOG_BUF_ENTRIES
  /\ 0 <= count (log_buf g) <= LOG_BUF_ENTRIES
  /\ 0 <= next_seq (log_buf g) < 2 ^ 32
  /\ length (per_level (log_st g)) = N.to_nat LOG_LVL_COUNT
  /\ (log_min_level g < LOG_LVL_COUNT)%N.

(** The messages of a sequence of calls that pass the filter in force when
    they are written, each as the entry stored for it; [seq] is the sequence
    number the next stored entry gets, [min] the filter. *)
Fixpoint written (cs : list log_call) (min : N) (seq : Z)
    : list log_entry :=
  match cs with
  | [] => []
  | LogWrite now lvl m text :: cs' =>
      if (lvl <? min)%N then written cs' min seq
      else new_entry now lvl m text seq :: written cs' min (u32_incr seq)
  | LogSetLevel min' :: cs' =>
      written cs' (if (min' <? LOG_LVL_COUNT)%N then min' else min) seq
  | _ :: cs' => written cs' min seq
  end.

Definition no_clear (cs : list log_call) : Prop :=
  Forall (fun c => c <> LogClear) cs.

Definition valid_levels (cs : list log_call) : Prop :=
  Forall (fun c => match c with
                   | LogWrite _ lvl _ _ => (lvl < LOG_LVL_COUNT)%N
                   | _ => True
                   end) cs.

Definition is_query (c : log_call) : bool :=
  match c with
  | LogDump _ | LogDumpLast _ | LogSearch _ _ => true
  | _ => false
  end.

(** The sum of the per-level counters. *)
Definition per_level_total (st : log_stats) : Z :=
  foldr Z.add 0 (per_level st).


(** Every message written is buffered or counted as dropped, and nothing
    is dropped before the buffer is full. *)
Definition drop_inv (g : logger) : Prop :=
  total_messages (log_st g)
  = u32 (count (log_buf g) + dropped_messages (log_st g))
  /\ (dropped_messages (log_st g) <> 0
      -> count (log_buf g) = LOG_BUF_ENTRIES).

Definition levels_ok (g : logger) : Prop :=
  Forall (fun e => (level e < LOG_LVL_COUNT)%N) (log_view g).

(** ** Example calls *)

Definition demo_writes : list log_call :=
  replicate 70 (LogWrite 5 LOG_LVL_WARN (Some "WDG"%string) "tick").

Definition demo_mixed : list log_call :=
  [LogWrite 1 LOG_LVL_INFO (Some "SYS"%string) "boot";
   LogSetLevel LOG_LVL_WARN;
   LogWrite 2 LOG_LVL_DEBUG None "ignored";
   LogWrite 3 LOG_LVL_ERROR (Some "WDG"%string) "thread stuck";
   LogDump LOG_LVL_DEBUG;
   LogWrite 4 LOG_LVL_WARN (Some "WDG"%string) "thread slow"].

End Logger.

(** * command.c: the command engine

    In addition to the conventions above:
    - a C string is a [string]; a pointer to one is never [NULL] where the
      code dereferences it without a test ([name], [line]), and is an
      [option] where the code tests it ([help], [usage]);
    - [tokenise] overwrites separators of [line] with NUL and returns
      pointers into it: here it returns the tokens themselves;
    - a handler is the function that gives its return value from its
      arguments; a handler returns, and leaves the state of the command
      engine alone (as the six built-in handlers do, which only print);
    - [strtol] is not modelled: [parse_auto] takes the function
      [strtol_int], which gives [Some v] when [strtol (s, &end, 0)] consumes
      the whole of a non-empty [s] and [(int) lval] is [v], and [None]
      otherwise;
    - [isspace] and [tolower] are those of the C locale. *)

Module Command.

Definition CMD_MAX_COMMANDS : Z := 24.
Definition CMD_MAX_ARGS : Z := 8.
Definition CMD_MAX_LINE : nat := 128.
Definition CMD_HISTORY_DEPTH : Z := 8.

(** [struct cmd_arg]: the type tag and the member of the union it selects
    ([CMD_ARG_NONE] selects none and is never produced). *)
Inductive cmd_arg :=
  | CMD_ARG_INT (ival : Z)
  | CMD_ARG_STRING (sval : string)
  | CMD_ARG_BOOL (bval : bool).

Definition cmd_handler_t := list cmd_arg -> Z.

Record cmd_entry := mk_cmd_entry {
  name : string;
  help : option string;
  usage : option string;
  handler : cmd_handler_t;
  min_args : Z;
  max_args : Z;
  hidden : bool
}.

Record cmd_history := mk_cmd_history {
  lines : list string;
  head : Z;
  count : Z
}.

Record cmd_stats_t := mk_cmd_stats {
  total_commands : Z;
  successful : Z;
  failed : Z;
  unknown : Z;
  arg_errors : Z
}.

Record cmd := mk_cmd {
  cmd_table : list cmd_entry;
  cmd_count : Z;
  cmd_hist : cmd_history;
  cmd_stats : cmd_stats_t
}.

(** The content of a table slot that was never written; it is never read. *)
Definition zero_cmd_entry : cmd_entry :=
  {| name := ""; help := None; usage := None; handler := fun _ => 0;
     min_args := 0; max_args := 0; hidden := false |}.

Definition zero_history : cmd_history :=
  {| lines := replicate (Z.to_nat CMD_HISTORY_DEPTH) ""%string;
     head := 0; count := 0 |}.

Definition zero_stats : cmd_stats_t :=
  {| total_commands := 0; successful := 0; failed := 0; unknown := 0;
     arg_errors := 0 |}.

(** The state the program is loaded with. *)
Definition cmd_zero : cmd :=
  {| cmd_table := replicate (Z.to_nat CMD_MAX_COMMANDS) zero_cmd_entry;
     cmd_count := 0;
     cmd_hist := zero_history;
     cmd_stats := zero_stats |}.

(** ** History *)

Definition history_prev (h : cmd_history) : Z :=
  Z.rem (head h - 1 + CMD_HISTORY_DEPTH) CMD_HISTORY_DEPTH.

Definition history_add (line : string) (h : cmd_history) : cmd_history :=
  match line with
  | EmptyString => h
  | _ =>
      if (0 <? count h)
         && String.eqb
              (default ""%string (lines h !! Z.to_nat (history_prev h)))
              line
      then h
      else
        {| lines := <[Z.to_nat (head h) :=
                        substring 0 (CMD_MAX_LINE - 1) line]> (lines h);
           head := Z.rem (head h + 1) CMD_HISTORY_DEPTH;
           count := if count h <? CMD_HISTORY_DEPTH then count h + 1
                    else count h |}
  end.

Definition history_start (h : cmd_history) : Z :=
  Z.rem (head h - count h + CMD_HISTORY_DEPTH) CMD_HISTORY_DEPTH.

Definition history_at (h : cmd_history) (i : Z) : string :=
  default ""%string
    (lines h !! Z.to_nat (Z.rem (history_start h + i) CMD_HISTORY_DEPTH)).

(** [cmd_history_dump]: the numbered lines printed after the header. *)
Definition cmd_history_dump (h : cmd_history) : list (Z * string) :=
  (fun i => (i + 1, history_at h i)) <$> seqZ 0 (count h).

(** ** Tokeniser *)

Definition isspace (c : ascii) : bool :=
  let n := N_of_ascii c in
  ((n =? 32) || ((9 <=? n) && (n <=? 13)))%N.

Definition tolower (c : ascii) : ascii :=
  let n := N_of_ascii c in
  if ((65 <=? n) && (n <=? 90))%N then ascii_of_N (n + 32) else c.

(** The character that opens and closes a quoted token. *)
Definition dquote : ascii := "034"%char.

(** The loop that moves [p] past white space. *)
Fixpoint skip_spaces (p : string) : string :=
  match p with
  | String c p' => if isspace c then skip_spaces p' else p
  | EmptyString => p
  end.

(** The loop that moves [p] to the next white space or to the end: the
    characters passed and the rest. *)
Fixpoint span_word (p : string) : string * string :=
  match p with
  | String c p' =>
      if isspace c then (EmptyString, p)
      else let r := span_word p' in (String c r.1, r.2)
  | EmptyString => (EmptyString, EmptyString)
  end.

(** [strchr (p, c)]: the characters before the first [c] and those after
    it, or [None] when [c] does not occur. *)
Fixpoint strchr (p : string) (c : ascii) : option (string * string) :=
  match p with
  | String d p' =>
      if Ascii.eqb d c then Some (EmptyString, p')
      else match strchr p' c with
           | Some (before, after) => Some (String d before, after)
           | None => None
           end
  | EmptyString => None
  end.

(** The loop of [tokenise], by the number [room] of tokens that may still
    be stored ([max_tok - count]); it gives the tokens stored from [p] on. *)
Fixpoint tokenise_from (room : nat) (p : string) : list string :=
  match room with
  | O => []
  | S room' =>
      match skip_spaces p with
      | EmptyString => []
      | String c rest =>
          if Ascii.eqb c dquote then
            match strchr rest dquote with
            | Some (tok, after) => tok :: tokenise_from room' after
            | None => [rest]
            end
          else
            let r := span_word (String c rest) in
            r.1 :: tokenise_from room'
                     (match r.2 with
                      | String _ after => after
                      | EmptyString => EmptyString
                      end)
      end
  end.

Definition tokenise (line : string) (max_tok : Z) : list string :=
  tokenise_from (Z.to_nat max_tok) line.

Definition streq (a b : string) : bool := String.eqb a b.

Section Strtol.

Variable strtol_int : string -> option Z.

Definition parse_auto (s : string) : cmd_arg :=
  if streq s "true" || streq s "on" || streq s "yes" then CMD_ARG_BOOL true
  else if streq s "false" || streq s "off" || streq s "no"
  then CMD_ARG_BOOL false
  else match strtol_int s with
       | Some v => CMD_ARG_INT v
       | None => CMD_ARG_STRING s
       end.

End Strtol.

(** ** Registration *)

Definition cmd_register (nm : string) (hlp usg : option string)
    (h : cmd_handler_t) (min_a max_a : Z) (st : cmd) : Z * cmd :=
  if CMD_MAX_COMMANDS <=? cmd_count st then (-1, st)
  else
    (0, {| cmd_table :=
             <[Z.to_nat (cmd_count st) :=
                 {| name := nm; help := hlp; usage := usg; handler := h;
                    min_args := min_a; max_args := max_a;
                    hidden := false |}]> (cmd_table st);
           cmd_count := cmd_count st + 1;
           cmd_hist := cmd_hist st;
           cmd_stats := cmd_stats st |}).

(** The built-in handlers print and return 0. *)
Definition cmd_help_handler : cmd_handler_t := fun _ => 0.
Definition cmd_status_handler : cmd_handler_t := fun _ => 0.
Definition cmd_history_handler : cmd_handler_t := fun _ => 0.
Definition cmd_echo_handler : cmd_handler_t := fun _ => 0.
Definition cmd_uptime_handler : cmd_handler_t := fun _ => 0.
Definition cmd_version_handler : cmd_handler_t := fun _ => 0.

(** The lines [cmd_help_handler] prints between its header and footer. *)
Definition cmd_help_lines (st : cmd) : list (string * string) :=
  omap (fun e => if hidden e then None
                 else Some (name e, default ""%string (help e)))
    (take (Z.to_nat (cmd_count st)) (cmd_table st)).

Definition cmd_register_builtins (st : cmd) : cmd :=
  let st := (cmd_register "help" (Some "Show available commands"%string)
               (Some "help"%string) cmd_help_handler 0 0 st).2 in
  let st := (cmd_register "status"
               (Some "Command engine statistics"%string)
               (Some "status"%string) cmd_status_handler 0 0 st).2 in
  let st := (cmd_register "history" (Some "Show command history"%string)
               (Some "history"%string) cmd_history_handler 0 0 st).2 in
  let st := (cmd_register "echo" (Some "Echo arguments back"%string)
               (Some "echo <args...>"%string) cmd_echo_handler 0
               CMD_MAX_ARGS st).2 in
  let st := (cmd_register "uptime" (Some "Show system uptime"%string)
               (Some "uptime"%string) cmd_uptime_handler 0 0 st).2 in
  (cmd_register "version" (Some "Show firmware version"%string)
     (Some "version"%string) cmd_version_handler 0 0 st).2.

(** ** Dispatch *)

(** The inner loop of [cmd_find] and the test that follows it. *)
Fixpoint name_match (a b : string) : bool :=
  match a, b with
  | String x a', String y b' =>
      if Ascii.eqb (tolower x) (tolower y) then name_match a' b' else false
  | EmptyString, EmptyString => true
  | _, _ => false
  end.

(** [cmd_find] returns a pointer into the table: here, the index and the
    entry. *)
Definition cmd_find (nm : string) (st : cmd) : option (nat * cmd_entry) :=
  list_find (fun e => name_match (name e) nm = true)
    (take (Z.to_nat (cmd_count st)) (cmd_table st)).

(** What [cmd_execute] does with a line, as far as its own code goes. *)
Inductive cmd_event :=
  | EvIgnored
  | EvUnknown (tok : string)
  | EvUsage (e : cmd_entry)
  | EvTooFew (e : cmd_entry) (argc : Z)
  | EvTooMany (e : cmd_entry) (argc : Z)
  | EvRun (e : cmd_entry) (args : list cmd_arg) (ret : Z).

(** [line + strspn] and the loop that cuts the trailing white space. *)
Fixpoint rtrim (s : string) : string :=
  match s with
  | String c s' =>
      match rtrim s' with
      | EmptyString => if isspace c then EmptyString
                       else String c EmptyString
      | t => String c t
      end
  | EmptyString => EmptyString
  end.

Definition with_stats (f : cmd_stats_t -> cmd_stats_t) (st : cmd) : cmd :=
  {| cmd_table := cmd_table st; cmd_count := cmd_count st;
     cmd_hist := cmd_hist st; cmd_stats := f (cmd_stats st) |}.

Definition count_total (s : cmd_stats_t) : cmd_stats_t :=
  {| total_commands := u32_incr (total_commands s);
     successful := successful s; failed := failed s;
     unknown := unknown s; arg_errors := arg_errors s |}.

Definition count_successful (s : cmd_stats_t) : cmd_stats_t :=
  {| total_commands := total_commands s;
     successful := u32_incr (successful s); failed := failed s;
     unknown := unknown s; arg_errors := arg_errors s |}.

Definition count_failed (s : cmd_stats_t) : cmd_stats_t :=
  {| total_commands := total_commands s;
     successful := successful s; failed := u32_incr (failed s);
     unknown := unknown s; arg_errors := arg_errors s |}.

Definition count_unknown (s : cmd_stats_t) : cmd_stats_t :=
  {| total_commands := total_commands s;
     successful := successful s; failed := failed s;
     unknown := u32_incr (unknown s); arg_errors := arg_errors s |}.

Definition count_arg_error (s : cmd_stats_t) : cmd_stats_t :=
  {| total_commands := total_commands s;
     successful := successful s; failed := failed s;
     unknown := unknown s; arg_errors := u32_incr (arg_errors s) |}.

Section Execute.

Variable strtol_int : string -> option Z.

(** [cmd_execute]: the value returned, what was done, and the state. *)
Definition cmd_execute (line : string) (st : cmd) : Z * cmd_event * cmd :=
  match line with
  | EmptyString => (0, EvIgnored, st)
  | _ =>
  match rtrim (skip_spaces line) with
  | EmptyString => (0, EvIgnored, st)
  | line1 =>
      let st1 := {| cmd_table := cmd_table st; cmd_count := cmd_count st;
                    cmd_hist := history_add line1 (cmd_hist st);
                    cmd_stats := cmd_stats st |} in
      match tokenise line1 (CMD_MAX_ARGS + 1) with
      | [] => (0, EvIgnored, st1)
      | tok0 :: rest =>
          let st2 := with_stats count_total st1 in
          match cmd_find tok0 st2 with
          | None => (-1, EvUnknown tok0, with_stats count_unknown st2)
          | Some (_, entry) =>
              if match rest with
                 | tok1 :: _ => streq tok1 "--help"
                 | [] => false
                 end
              then (0, EvUsage entry, st2)
              else
                let argc := Z.of_nat (length rest) in
                if argc <? min_args entry then
                  (-1, EvTooFew entry argc, with_stats count_arg_error st2)
                else if max_args entry <? argc then
                  (-1, EvTooMany entry argc, with_stats count_arg_error st2)
                else
                  let args := parse_auto strtol_int <$> rest in
                  let ret := handler entry args in
                  (ret, EvRun entry args ret,
                   with_stats (if ret =? 0 then count_successful
                               else count_failed) st2)
          end
      end
  end
  end.


End Execute.

(** [cmd_get_stats] with four non-null pointers. *)
Definition cmd_get_stats (st : cmd) : Z * Z * Z * Z :=
  (total_commands (cmd_stats st), successful (cmd_stats st),
   failed (cmd_stats st), unknown (cmd_stats st)).

Definition cmd_init (st : cmd) : cmd :=
  cmd_register_builtins
    {| cmd_table := cmd_table st; cmd_count := 0;
       cmd_hist := zero_history; cmd_stats := zero_stats |}.

(** ** Notions used in the statements *)

Definition cmd_wf (st : cmd) : Prop :=
  length (cmd_table st) = Z.to_nat CMD_MAX_COMMANDS
  /\ 0 <= cmd_count st <= CMD_MAX_COMMANDS.

Definition history_wf (h : cmd_history) : Prop :=
  length (lines h) = Z.to_nat CMD_HISTORY_DEPTH
  /\ 0 <= head h < CMD_HISTORY_DEPTH
  /\ 0 <= count h <= CMD_HISTORY_DEPTH.

(** The recorded lines, oldest first. *)
Definition history_view (h : cmd_history) : list string :=
  (cmd_history_dump h).*2.

(** The registered entries, in the order of their registration. *)
Definition registered (st : cmd) : list cmd_entry :=
  take (Z.to_nat (cmd_count st)) (cmd_table st).

Fixpoint lower (s : string) : string :=
  match s with
  | String c s' => String (tolower c) (lower s')
  | EmptyString => EmptyString
  end.

Fixpoint string_forall (P : ascii -> bool) (s : string) : bool :=
  match s with
  | String c s' => P c && string_forall P s'
  | EmptyString => true
  end.


(** The number of events of a kind. *)
Definition events (P : cmd_event -> bool) (rs : list (Z * cmd_event)) : Z :=
  Z.of_nat (length (filter (fun r => P r.2 = true) rs)).


(** What an event does to the counters. *)
Definition apply_event (ev : cmd_event) (s : cmd_stats_t) : cmd_stats_t :=
  match ev with
  | EvIgnored => s
  | EvUnknown _ => count_unknown (count_total s)
  | EvUsage _ => count_total s
  | EvTooFew _ _ | EvTooMany _ _ => count_arg_error (count_total s)
  | EvRun _ _ ret =>
      (if ret =? 0 then count_successful else count_failed) (count_total s)
  end.


(** A line of white space only. *)
Definition blank (line : string) : Prop :=
  string_forall isspace line = true.

Definition no_quote (s : string) : bool :=
  string_forall (fun c => negb (Ascii.eqb c dquote)) s.

Definition no_space (s : string) : bool :=
  string_forall (fun c => negb (isspace c)) s.

Definition none_hidden (st : cmd) : Prop :=
  Forall (fun e => hidden e = false) (registered st).

(** ** Example session *)


Definition demo_history : cmd_history :=
  history_add "status" (history_add "help" zero_history).

End Command.

(** * main.c: the shared monitor state and the serial commands

    [struct monitor_state] without its [float] field [temperature], which
    no command reads or writes. [atoi] is not modelled: [parse_command]
    takes it as the function [atoi]. *)

Module Monitor.



(** [strstr (hay, needle)]: the rest of [hay] from the first occurrence of
    [needle] on, or [None]. *)
Fixpoint strstr (hay needle : string) : option string :=
  if String.prefix needle hay then Some hay
  else match hay with
       | String _ hay' => strstr hay' needle
       | EmptyString => None
       end.



Section Atoi.

Variable atoi : string -> Z.






End Atoi.

(** ** Notions used in the statements *)


End Monitor.

(** * Properties *)

(** ** Elementary facts *)

Lemma u32_range x : 0 <= u32 x < 2 ^ 32.
Proof. unfold u32. apply Z.mod_pos_bound. lia. Qed.

Lemma u32_small x : 0 <= x < 2 ^ 32 -> u32 x = x.
Proof. unfold u32. intros. apply Z.mod_small. lia. Qed.

Lemma u32_add_l a b : u32 (u32 a + b) = u32 (a + b).
Proof. unfold u32. apply Zplus_mod_idemp_l. Qed.

Lemma u32_add_r a b : u32 (a + u32 b) = u32 (a + b).
Proof. unfold u32. apply Zplus_mod_idemp_r. Qed.

Lemma u32_le x : 0 <= x -> u32 x <= x.
Proof. unfold u32. intros. apply Z.mod_le; lia. Qed.

Lemma state_eqb_eq a b : wdg_thread_state_eqb a b = true <-> a = b.
Proof. destruct a, b; simpl; split; intros; congruence. Qed.

Lemma state_eqb_neq a b : wdg_thread_state_eqb a b = false <-> a <> b.
Proof. destruct a, b; simpl; split; intros; congruence. Qed.

Lemma slot_in_range slot :
  slot_out_of_range slot = false <-> 0 <= slot < WDG_MAX_THREADS.
Proof. unfold slot_out_of_range. rewrite orb_false_iff. lia. Qed.

Lemma wdg_wf_spec s :
  wdg_wf s <->
  length (wdg_table s) = Z.to_nat WDG_MAX_THREADS /\
  0 <= wdg_count s <= WDG_MAX_THREADS /\
  forall k e, (Z.to_nat (wdg_count s) <= k)%nat ->
              wdg_table s !! k = Some e -> e = zero_entry.
Proof.
  unfold wdg_wf, wdg_wfb.
  rewrite !andb_true_iff, bool_decide_eq_true, forallb_forall.
  rewrite Z.leb_le, Z.leb_le. split.
  - intros [[[Hl H0] H8] Hz]. split_and!; try done.
    intros k e Hk Hke. specialize (Hz e).
    rewrite bool_decide_eq_true in Hz. apply Hz.
    apply list_elem_of_In, list_elem_of_lookup.
    exists (k - Z.to_nat (wdg_count s))%nat.
    rewrite lookup_drop. rewrite <- Hke. f_equal. lia.
  - intros (Hl & [H0 H8] & Hz). split_and!; try done.
    intros e He. rewrite bool_decide_eq_true.
    apply list_elem_of_In, list_elem_of_lookup in He as [k Hk].
    rewrite lookup_drop in Hk. eapply Hz; [|exact Hk]. lia.
Qed.

Lemma wdg_init_wf : wdg_wf wdg_init.
Proof. reflexivity. Qed.

(** In a well-formed state an active entry lies below [wdg_count]. *)
Lemma wf_active_allocated s k e :
  wdg_wf s -> wdg_table s !! k = Some e -> active e = true ->
  (k < Z.to_nat (wdg_count s))%nat.
Proof.
  rewrite wdg_wf_spec. intros (_ & _ & Hz) Hk Ha.
  destruct (decide (k < Z.to_nat (wdg_count s))%nat) as [|Hn]; [done|].
  rewrite (Hz k e) in Ha; [discriminate|lia|done].
Qed.

Lemma wf_lookup s slot :
  wdg_wf s -> 0 <= slot < WDG_MAX_THREADS -> is_Some (table_get s slot).
Proof.
  rewrite wdg_wf_spec. intros (Hl & _ & _) H. unfold table_get.
  apply lookup_lt_is_Some. rewrite Hl. unfold WDG_MAX_THREADS in *. lia.
Qed.

(** *** Shape is preserved *)

Lemma wf_table_set s k e e' :
  wdg_wf s -> table_get s k = Some e ->
  (Z.to_nat k < Z.to_nat (wdg_count s))%nat ->
  wdg_wf (table_set k e' s).
Proof.
  rewrite !wdg_wf_spec. intros (Hl & Hc & Hz) Hk Hlt. simpl.
  rewrite length_insert. split_and!; try lia.
  intros k' e0 Hk' Hlk. rewrite list_lookup_insert_ne in Hlk by lia. eauto.
Qed.

Lemma wf_table_set_active s k e e' :
  wdg_wf s -> table_get s k = Some e -> active e = true ->
  wdg_wf (table_set k e' s).
Proof.
  intros Hwf Hk Ha. eapply wf_table_set; eauto.
  eapply wf_active_allocated; eauto.
Qed.

Lemma wf_with_stats f s : wdg_wf s -> wdg_wf (with_stats f s).
Proof. done. Qed.

Lemma wf_register now nm timeout cb s :
  wdg_wf s -> wdg_wf (wdg_register now nm timeout cb s).2.
Proof.
  unfold wdg_register. destruct (WDG_MAX_THREADS <=? wdg_count s) eqn:Hfull;
    [done|].
  apply Z.leb_gt in Hfull. rewrite !wdg_wf_spec. simpl.
  intros (Hl & Hc & Hz). rewrite length_insert. split_and!; try lia.
  intros k e Hk Hlk. rewrite list_lookup_insert_ne in Hlk by lia.
  eapply Hz; [|done]. lia.
Qed.

Lemma wdg_step_wf s s' : wdg_step s s' -> wdg_wf s -> wdg_wf s'.
Proof.
  destruct 1; intros Hwf;
    eauto using wf_register, wf_with_stats, wf_table_set_active.
  apply wf_with_stats. eapply wf_table_set; eauto. lia.
Qed.

Lemma wdg_step_count s s' : wdg_step s s' -> wdg_count s <= wdg_count s'.
Proof.
  destruct 1; simpl; try lia.
  unfold wdg_register. destruct (_ <=? _); simpl; lia.
Qed.

Lemma wdg_steps_wf s s' : rtc wdg_step s s' -> wdg_wf s -> wdg_wf s'.
Proof. induction 1; eauto using wdg_step_wf. Qed.

Lemma wdg_steps_count s s' :
  rtc wdg_step s s' -> wdg_count s <= wdg_count s'.
Proof.
  induction 1 as [|s s1 s' H1 _ IH]; [lia|].
  apply wdg_step_count in H1. lia.
Qed.

(** *** Every function of the module is a sequence of atomic updates *)

Lemma checker_for_S fuel win now i s :
  checker_for (S fuel) win now i s =
  if i <? wdg_count s then
    (let r := checker_entry win now i s in
     let r' := checker_for fuel win now (i + 1) r.1 in
     (r'.1, r.2 ++ r'.2))
  else (s, []).
Proof. reflexivity. Qed.

Lemma wdg_register_steps now nm timeout cb s :
  rtc wdg_step s (wdg_register now nm timeout cb s).2.
Proof.
  destruct (decide (wdg_count s < WDG_MAX_THREADS)) as [Hlt|Hge].
  - apply rtc_once. by constructor.
  - unfold wdg_register. destruct (Z.leb_spec WDG_MAX_THREADS (wdg_count s));
      [apply rtc_refl|lia].
Qed.

Lemma wdg_heartbeat_steps now slot s : rtc wdg_step s (wdg_heartbeat now slot s).
Proof.
  unfold wdg_heartbeat. destruct (slot_out_of_range slot); [apply rtc_refl|].
  destruct (table_get s slot) as [e|] eqn:He; [|apply rtc_refl].
  destruct (active e) eqn:Ha; [|apply rtc_refl].
  apply rtc_once. by econstructor.
Qed.

Lemma wdg_unregister_steps slot s : rtc wdg_step s (wdg_unregister slot s).
Proof.
  unfold wdg_unregister. destruct (slot_out_of_range slot); [apply rtc_refl|].
  destruct (table_get s slot) as [e|] eqn:He; [|apply rtc_refl].
  destruct (active e) eqn:Ha; [|apply rtc_refl].
  apply rtc_once. by econstructor.
Qed.

Lemma run_call_steps c s : rtc wdg_step s (run_call c s).1.
Proof.
  destruct c; simpl;
    auto using wdg_register_steps, wdg_heartbeat_steps,
      wdg_unregister_steps, rtc_refl.
  apply rtc_once. constructor.
Qed.

Lemma run_calls_steps cs s : rtc wdg_step s (run_calls cs s).1.
Proof.
  revert s. induction cs as [|c cs IH]; intros s; simpl; [apply rtc_refl|].
  etrans; [apply run_call_steps|apply IH].
Qed.

Lemma checker_detect_steps now i s : rtc wdg_step s (checker_detect now i s).1.
Proof.
  unfold checker_detect.
  destruct (table_get s i) as [e|] eqn:He; [|apply rtc_refl].
  destruct (active e) eqn:Ha; simpl; [|apply rtc_refl].
  repeat match goal with
         | |- context [if ?b then _ else _] => destruct b
         end; simpl; try apply rtc_refl;
    apply rtc_once; by econstructor.
Qed.

Lemma checker_complete_steps i s :
  0 <= i < wdg_count s -> rtc wdg_step s (checker_complete i s).
Proof.
  intros Hi. unfold checker_complete.
  destruct (table_get s i) as [e|] eqn:He; [|apply rtc_refl].
  apply rtc_once. by econstructor.
Qed.

Lemma checker_entry_steps win now i s :
  0 <= i < wdg_count s -> rtc wdg_step s (checker_entry win now i s).1.
Proof.
  intros Hi. unfold checker_entry.
  pose proof (checker_detect_steps now i s) as H1.
  destruct (checker_detect now i s) as [s1 [a|]]; simpl in *; [|done].
  pose proof (run_calls_steps (win i) s1) as H2.
  etrans; [exact H1|]. etrans; [exact H2|].
  apply checker_complete_steps.
  apply wdg_steps_count in H1, H2. lia.
Qed.

Lemma checker_for_steps fuel win now i s :
  0 <= i -> rtc wdg_step s (checker_for fuel win now i s).1.
Proof.
  revert i s. induction fuel as [|fuel IH]; intros i s Hi;
    [apply rtc_refl|].
  rewrite checker_for_S.
  destruct (Z.ltb_spec i (wdg_count s)); simpl; [|apply rtc_refl].
  etrans; [apply (checker_entry_steps win now i s); lia|]. apply IH. lia.
Qed.

Lemma wdg_checker_tick_steps win now s :
  rtc wdg_step s (wdg_checker_tick win now s).1.
Proof.
  unfold wdg_checker_tick. destruct (wdg_enabled s); cbn [negb];
    [|apply rtc_refl].
  eapply rtc_l; [apply step_check|]. apply checker_for_steps. lia.
Qed.

Lemma run_op_steps o s : rtc wdg_step s (run_op o s).1.
Proof.
  destruct o; simpl; [apply run_call_steps|apply wdg_checker_tick_steps].
Qed.

Lemma run_ops_steps os s : rtc wdg_step s (run_ops os s).1.
Proof.
  revert s. induction os as [|o os IH]; intros s; simpl; [apply rtc_refl|].
  etrans; [apply run_op_steps|apply IH].
Qed.

Lemma reachable_wf s : reachable s -> wdg_wf s.
Proof.
  intros [os <-]. eapply wdg_steps_wf; [apply run_ops_steps|].
  apply wdg_init_wf.
Qed.

(** *** The aggregate statistics follow the per-entry counters *)

Lemma table_sum_insert f (l : list wdg_entry) k e e' :
  l !! k = Some e ->
  table_sum f (<[k:=e']> l) = table_sum f l - f e + f e'.
Proof.
  revert k. induction l as [|x l IH]; intros [|k] Hk; simplify_eq/=; [lia|].
  rewrite (IH k Hk). lia.
Qed.

Lemma table_sum_nonneg f (l : list wdg_entry) :
  Forall (fun e => 0 <= f e) l -> 0 <= table_sum f l.
Proof. induction 1; simpl; lia. Qed.

Lemma u32_swap_incr a c : u32 (a - c + u32_incr c) = u32_incr (u32 a).
Proof.
  unfold u32_incr. rewrite u32_add_r, u32_add_l. f_equal. lia.
Qed.

Lemma wdg_step_consistent s s' :
  wdg_step s s' -> wdg_wf s -> stats_consistent s -> stats_consistent s'.
Proof.
  unfold stats_consistent, table_get.
  destruct 1 as [s now nm timeout cb Hlt| | | | | | |];
    intros Hwf (Hh & Ht & Hr); simpl;
    rewrite ?(table_sum_insert _ _ _ _ _ ltac:(eassumption)); simpl;
    rewrite ?u32_swap_incr, ?Z.sub_add; try (split_and!; congruence).
  unfold wdg_register. destruct (Z.leb_spec WDG_MAX_THREADS (wdg_count s));
    [lia|]. simpl.
  destruct (wf_lookup s (wdg_count s) Hwf) as [e0 He0].
  { apply wdg_wf_spec in Hwf. lia. }
  assert (e0 = zero_entry) as ->.
  { apply wdg_wf_spec in Hwf as (_ & _ & Hz). eapply Hz; [|exact He0]. lia. }
  rewrite !(table_sum_insert _ _ _ _ _ He0). simpl.
  rewrite !Z.sub_0_r, !Z.add_0_r. done.
Qed.

Lemma wdg_step_counters_ok s s' :
  wdg_step s s' -> counters_ok s -> counters_ok s'.
Proof.
  unfold counters_ok, table_get.
  assert (Hincr : forall x, 0 <= u32_incr x < 2 ^ 32)
    by (intros; apply u32_range).
  destruct 1 as [s now nm timeout cb Hlt| | | | | | |]; intros Hok; simpl;
    try done;
    try (apply Forall_insert; [done|]; unfold table_get in *;
         match goal with
         | H : _ !! _ = Some ?e |- _ =>
             pose proof (Forall_lookup_1 _ _ _ _ Hok H) as (? & ? & ?);
             pose proof (Hincr (heartbeat_count e));
             pose proof (Hincr (timeout_count e));
             pose proof (Hincr (recovery_count e))
         end;
         unfold entry_counters_ok; simpl; lia).
  unfold wdg_register. destruct (_ <=? _); [done|]. simpl.
  apply Forall_insert; [done|]. unfold entry_counters_ok. simpl. lia.
Qed.

Lemma wdg_init_inv : wdg_inv wdg_init.
Proof.
  split_and!; [reflexivity| |by vm_compute].
  unfold counters_ok, wdg_init. cbn [wdg_table]. apply Forall_replicate.
  unfold entry_counters_ok. simpl. lia.
Qed.

Lemma wdg_step_inv s s' : wdg_step s s' -> wdg_inv s -> wdg_inv s'.
Proof.
  intros Hstep (Hwf & Hok & Hc).
  split_and!;
    eauto using wdg_step_wf, wdg_step_counters_ok, wdg_step_consistent.
Qed.

Lemma wdg_steps_inv s s' : rtc wdg_step s s' -> wdg_inv s -> wdg_inv s'.
Proof. induction 1; eauto using wdg_step_inv. Qed.

(** Without wrap-around the aggregates are the sums themselves. *)
Lemma wdg_inv_exact s :
  wdg_inv s ->
  table_sum heartbeat_count (wdg_table s) < 2 ^ 32 ->
  table_sum timeout_count (wdg_table s) < 2 ^ 32 ->
  table_sum recovery_count (wdg_table s) < 2 ^ 32 ->
  stats_exact s.
Proof.
  intros (_ & Hok & Hh & Ht & Hr) H1 H2 H3. unfold stats_exact.
  rewrite Hh, Ht, Hr.
  split_and!; apply u32_small; (split; [|done]); apply table_sum_nonneg;
    eapply Forall_impl; [exact Hok| |exact Hok| |exact Hok|];
    intros e (? & ? & ?); simpl; lia.
Qed.

(** ** Reading and writing one slot *)

Lemma table_get_set_eq s k e e' :
  table_get s k = Some e -> table_get (table_set k e' s) k = Some e'.
Proof.
  unfold table_get. simpl. intros H. apply list_lookup_insert_eq.
  by eapply lookup_lt_Some.
Qed.

Lemma table_get_set_ne s k i e' :
  Z.to_nat k <> Z.to_nat i ->
  table_get (table_set k e' s) i = table_get s i.
Proof. unfold table_get. simpl. intros. by apply list_lookup_insert_ne. Qed.

Lemma slot_active_spec s slot :
  slot_active s slot = true <->
  slot_out_of_range slot = false /\
  exists e, table_get s slot = Some e /\ active e = true.
Proof.
  unfold slot_active. rewrite andb_true_iff, negb_true_iff.
  destruct (table_get s slot) as [e|]; split.
  - intros [H1 H2]. eauto.
  - intros [H1 (? & [= <-] & ?)]. done.
  - intros [_ [=]].
  - intros [_ (? & [=] & _)].
Qed.

Lemma wdg_heartbeat_inactive now slot s :
  slot_active s slot = false -> wdg_heartbeat now slot s = s.
Proof.
  unfold slot_active, wdg_heartbeat.
  destruct (slot_out_of_range slot); [done|]. simpl.
  destruct (table_get s slot) as [e|]; [|done]. by intros ->.
Qed.

Lemma wdg_unregister_inactive slot s :
  slot_active s slot = false -> wdg_unregister slot s = s.
Proof.
  unfold slot_active, wdg_unregister.
  destruct (slot_out_of_range slot); [done|]. simpl.
  destruct (table_get s slot) as [e|]; [|done]. by intros ->.
Qed.

Lemma wdg_unregister_active slot s :
  slot_active (wdg_unregister slot s) slot = false.
Proof.
  destruct (slot_active s slot) eqn:Hact.
  - apply slot_active_spec in Hact as (Hr & e & He & Ha).
    unfold wdg_unregister, slot_active. rewrite Hr, He, Ha.
    by rewrite (table_get_set_eq _ _ _ _ He).
  - by rewrite wdg_unregister_inactive.
Qed.

Lemma wdg_heartbeat_enable now slot b s :
  wdg_heartbeat now slot (wdg_enable b s)
  = wdg_enable b (wdg_heartbeat now slot s).
Proof.
  unfold wdg_heartbeat. destruct (slot_out_of_range slot); [done|].
  change (table_get (wdg_enable b s) slot) with (table_get s slot).
  destruct (table_get s slot) as [e|]; [|done]. by destruct (active e).
Qed.

Lemma checker_detect_eq now i s e :
  table_get s i = Some e ->
  checker_detect now i s =
  match entry_verdict now e with
  | Expired a =>
      (with_stats stats_timeout (table_set i (entry_timed_out e) s), Some a)
  | Warn => (table_set i (entry_warning e) s, None)
  | Keep => (s, None)
  end.
Proof.
  intros He. unfold checker_detect, entry_verdict, recovery_of. rewrite He.
  repeat match goal with
         | |- context [if ?b then _ else _] => destruct b
         end; reflexivity.
Qed.

Lemma recoveries_for_app i tr1 tr2 :
  recoveries_for i (tr1 ++ tr2) = recoveries_for i tr1 ++ recoveries_for i tr2.
Proof. apply omap_app. Qed.

Lemma wdg_register_get now nm timeout cb s i :
  wdg_wf s -> 0 <= i < wdg_count s ->
  table_get (wdg_register now nm timeout cb s).2 i = table_get s i.
Proof.
  intros Hwf Hi. unfold wdg_register. destruct (_ <=? _); [done|].
  unfold table_get. simpl. apply list_lookup_insert_ne. lia.
Qed.

Lemma wdg_heartbeat_get_ne now slot s i :
  0 <= i -> slot <> i ->
  table_get (wdg_heartbeat now slot s) i = table_get s i.
Proof.
  intros Hi Hne. unfold wdg_heartbeat.
  destruct (slot_out_of_range slot) eqn:Hr; [done|].
  apply slot_in_range in Hr.
  destruct (table_get s slot) as [e|]; [|done].
  destruct (active e); [|done].
  change (table_get (with_stats ?f ?s) i) with (table_get s i).
  apply table_get_set_ne. lia.
Qed.

Lemma wdg_heartbeat_get_eq now s i e :
  table_get s i = Some e ->
  table_get (wdg_heartbeat now i s) i
  = Some (if slot_active s i then entry_beat now e else e).
Proof.
  intros He. unfold wdg_heartbeat, slot_active. rewrite He.
  destruct (slot_out_of_range i); [done|]. simpl.
  destruct (active e); [|done].
  change (table_get (with_stats ?f ?s) i) with (table_get s i).
  by eapply table_get_set_eq.
Qed.

Lemma wdg_unregister_get_ne slot s i :
  0 <= i -> slot <> i ->
  table_get (wdg_unregister slot s) i = table_get s i.
Proof.
  intros Hi Hne. unfold wdg_unregister.
  destruct (slot_out_of_range slot) eqn:Hr; [done|].
  apply slot_in_range in Hr.
  destruct (table_get s slot) as [e|]; [|done].
  destruct (active e); [|done].
  apply table_get_set_ne. lia.
Qed.

Lemma wdg_unregister_get_eq s i e :
  table_get s i = Some e ->
  table_get (wdg_unregister i s) i
  = Some (if slot_active s i then entry_retire e else e).
Proof.
  intros He. unfold wdg_unregister, slot_active. rewrite He.
  destruct (slot_out_of_range i); [done|]. simpl.
  destruct (active e); [|done].
  by eapply table_get_set_eq.
Qed.

Lemma checker_complete_get_ne j s i :
  0 <= i -> 0 <= j -> j <> i ->
  table_get (checker_complete j s) i = table_get s i.
Proof.
  intros Hi Hj Hne. unfold checker_complete.
  destruct (table_get s j) as [e|]; [|done].
  change (table_get (with_stats ?f ?s) i) with (table_get s i).
  apply table_get_set_ne. lia.
Qed.

Lemma checker_detect_get_ne now j s i :
  0 <= i -> 0 <= j -> j <> i ->
  table_get (checker_detect now j s).1 i = table_get s i.
Proof.
  intros Hi Hj Hne.
  destruct (table_get s j) as [e|] eqn:He.
  - rewrite (checker_detect_eq _ _ _ _ He).
    destruct (entry_verdict now e); simpl; [| |done];
      change (table_get (with_stats ?f ?s) i) with (table_get s i);
      apply table_get_set_ne; lia.
  - unfold checker_detect. by rewrite He.
Qed.

(** ** A property of one slot kept along an execution *)

Lemma slot_has_after i Q P s s' e' :
  slot_has i Q s -> rtc wdg_step s s' ->
  table_get s' i = Some e' -> P e' -> slot_has i P s'.
Proof.
  intros (Hwf & Hi & _) Hsteps He' HP. split_and!.
  - eauto using wdg_steps_wf.
  - lia.
  - apply wdg_steps_count in Hsteps. lia.
  - eauto.
Qed.

Section SlotInvariant.
Variable i : Z.
Variable P : wdg_entry -> Prop.
Variable okc : api_call -> bool.
Variable okt : Z -> Prop.

Hypothesis P_beat :
  forall now e, okc (CallHeartbeat now i) = true -> P e -> P (entry_beat now e).
Hypothesis P_retire :
  forall e, okc (CallUnregister i) = true -> P e -> P (entry_retire e).
Hypothesis P_keep :
  forall now e, okt now -> P e -> entry_verdict now e = Keep.

Lemma run_call_slot c s :
  okc c = true -> slot_has i P s -> slot_has i P (run_call c s).1.
Proof.
  intros Hok Hs. pose proof Hs as (Hwf & Hi & e & He & HP).
  destruct c as [now nm timeout cb|now slot|slot| | | |]; simpl; try done.
  - eapply slot_has_after; eauto using wdg_register_steps.
    by rewrite wdg_register_get.
  - destruct (decide (slot = i)) as [->|Hne].
    + apply (slot_has_after i P P s _
               (if slot_active s i then entry_beat now e else e));
        auto using wdg_heartbeat_steps, wdg_heartbeat_get_eq.
      destruct (slot_active s i); auto.
    + eapply slot_has_after; eauto using wdg_heartbeat_steps.
      rewrite wdg_heartbeat_get_ne; [done|lia|done].
  - destruct (decide (slot = i)) as [->|Hne].
    + apply (slot_has_after i P P s _
               (if slot_active s i then entry_retire e else e));
        auto using wdg_unregister_steps, wdg_unregister_get_eq.
      destruct (slot_active s i); auto.
    + eapply slot_has_after; eauto using wdg_unregister_steps.
      rewrite wdg_unregister_get_ne; [done|lia|done].
Qed.

Lemma run_calls_slot cs s :
  Forall (fun c => okc c = true) cs -> slot_has i P s ->
  slot_has i P (run_calls cs s).1 /\ recoveries_for i (run_calls cs s).2 = [].
Proof.
  intros Hcs. revert s. induction Hcs as [|c cs Hc _ IH]; intros s Hs;
    simpl; [done|].
  apply IH. by apply run_call_slot.
Qed.

Lemma checker_entry_slot_ne win now j s :
  0 <= j < wdg_count s -> j <> i ->
  Forall (fun c => okc c = true) (win j) ->
  slot_has i P s ->
  slot_has i P (checker_entry win now j s).1
  /\ recoveries_for i (checker_entry win now j s).2 = [].
Proof.
  intros Hj Hne Hwin Hs. pose proof Hs as (Hwf & Hi & e & He & HP).
  assert (Hs1 : slot_has i P (checker_detect now j s).1).
  { eapply slot_has_after; eauto using checker_detect_steps.
    rewrite checker_detect_get_ne; [done|lia..|done]. }
  pose proof (checker_detect_steps now j s) as Hst.
  unfold checker_entry.
  destruct (checker_detect now j s) as [s1 [a|]]; simpl in *; [|done].
  destruct (run_calls_slot (win j) s1 Hwin Hs1) as [Hs2 Hr].
  pose proof (run_calls_steps (win j) s1) as Hst2.
  destruct (run_calls (win j) s1) as [s2 tr]. simpl in *.
  destruct (Z.eqb_spec j i); [done|]. split; [|done].
  pose proof Hs2 as (Hwf2 & Hi2 & e2 & He2 & HP2).
  apply (slot_has_after i P P s2 _ e2); [done| | |done].
  - apply checker_complete_steps.
    apply wdg_steps_count in Hst, Hst2. lia.
  - rewrite checker_complete_get_ne; [done|lia..|done].
Qed.

Lemma checker_entry_slot_eq win now s :
  okt now -> slot_has i P s -> checker_entry win now i s = (s, []).
Proof.
  intros Hnow (Hwf & Hi & e & He & HP). unfold checker_entry.
  by rewrite (checker_detect_eq _ _ _ _ He), (P_keep now e).
Qed.

Lemma checker_for_slot fuel win now j s :
  0 <= j -> okt now \/ i < j ->
  (forall j, Forall (fun c => okc c = true) (win j)) ->
  slot_has i P s ->
  slot_has i P (checker_for fuel win now j s).1
  /\ recoveries_for i (checker_for fuel win now j s).2 = [].
Proof.
  intros Hj Hnow Hwin. revert j s Hj Hnow.
  induction fuel as [|fuel IH]; intros j s Hj Hnow Hs; [done|].
  rewrite checker_for_S.
  destruct (Z.ltb_spec j (wdg_count s)) as [Hlt|]; [|done].
  cbn [fst snd]. rewrite recoveries_for_app.
  destruct (decide (j = i)) as [->|Hne].
  - destruct Hnow as [Hnow|]; [|lia].
    rewrite (checker_entry_slot_eq win now s Hnow Hs). simpl.
    apply IH; [lia|right; lia|done].
  - destruct (checker_entry_slot_ne win now j s) as [Hs1 ->]; auto.
    simpl. apply IH; [lia| |done]. destruct Hnow; [by left|right; lia].
Qed.

Lemma wdg_checker_tick_slot win now s :
  okt now -> (forall j, Forall (fun c => okc c = true) (win j)) ->
  slot_has i P s ->
  slot_has i P (wdg_checker_tick win now s).1
  /\ recoveries_for i (wdg_checker_tick win now s).2 = [].
Proof.
  intros Hnow Hwin Hs. unfold wdg_checker_tick.
  destruct (wdg_enabled s); cbn [negb]; [|done].
  apply checker_for_slot; [lia|by left|done|].
  destruct Hs as (Hwf & Hi & e & He & HP).
  unfold slot_has. split_and!; [done|simpl; lia..|by exists e].
Qed.

Lemma run_ops_slot os s :
  Forall (op_ok okc okt) os -> slot_has i P s ->
  slot_has i P (run_ops os s).1 /\ recoveries_for i (run_ops os s).2 = [].
Proof.
  intros Hos. revert s. induction Hos as [|o os Ho _ IH]; intros s Hs;
    cbn [run_ops fst snd]; [done|].
  rewrite recoveries_for_app.
  assert (slot_has i P (run_op o s).1 /\ recoveries_for i (run_op o s).2 = [])
    as [Hs1 ->].
  { destruct o as [c|now win]; simpl in *.
    - split; [by apply run_call_slot|done].
    - destruct Ho. by apply wdg_checker_tick_slot. }
  by apply IH.
Qed.
End SlotInvariant.

(** ** Executions that leave slot [i] alone *)

Lemma quiet_beat i now : quiet i (CallHeartbeat now i) = true -> False.
Proof. unfold quiet. simpl. rewrite Z.eqb_refl. discriminate. Qed.

Lemma quiet_retire i : quiet i (CallUnregister i) = true -> False.
Proof.
  unfold quiet. simpl. rewrite Z.eqb_refl. discriminate.
Qed.

Lemma run_calls_quiet i e cs s :
  Forall (fun c => quiet i c = true) cs -> slot_has i (eq e) s ->
  slot_has i (eq e) (run_calls cs s).1
  /\ recoveries_for i (run_calls cs s).2 = [].
Proof.
  apply run_calls_slot.
  - intros now e0 H. by apply quiet_beat in H.
  - intros e0 H. by apply quiet_retire in H.
Qed.

Lemma checker_for_quiet i e fuel win now j s :
  0 <= j -> i < j ->
  (forall j, Forall (fun c => quiet i c = true) (win j)) ->
  slot_has i (eq e) s ->
  slot_has i (eq e) (checker_for fuel win now j s).1
  /\ recoveries_for i (checker_for fuel win now j s).2 = [].
Proof.
  intros Hj Hlt. apply (checker_for_slot i (eq e) (quiet i) (fun _ => False));
    auto.
  - intros now0 e0 H. by apply quiet_beat in H.
  - intros e0 H. by apply quiet_retire in H.
  - done.
Qed.

(** The loop body on slot [i] when the calls made while the mutex is
    released leave slot [i] alone. *)
(** A silent run keeps an entry that no tick in time would touch. *)
Lemma run_ops_silent i now0 T e os s :
  (forall now, now - now0 <= T -> entry_verdict now e = Keep) ->
  silent_until i now0 T os s -> slot_has i (eq e) s ->
  slot_has i (eq e) (run_ops os s).1 /\ recoveries_for i (run_ops os s).2 = [].
Proof.
  intros Hkeep. revert s.
  induction os as [|o os IH]; intros s Hos Hs; cbn [run_ops fst snd]; [done|].
  destruct Hos as [Ho Hos]. rewrite recoveries_for_app.
  assert (slot_has i (eq e) (run_op o s).1
          /\ recoveries_for i (run_op o s).2 = []) as [Hs1 ->].
  { destruct o as [c|now win]; cbn [run_op fst snd].
    - split; [|done].
      apply (run_call_slot i (eq e) (quiet i)); try done.
      + intros t e0 H. by apply quiet_beat in H.
      + intros e0 H. by apply quiet_retire in H.
    - destruct Ho as [Hnow Hwin].
      destruct (wdg_enabled s) eqn:Hen.
      + apply (wdg_checker_tick_slot i (eq e) (quiet i)
                 (fun t => t - now0 <= T)); try done.
        * intros t e0 H. by apply quiet_beat in H.
        * intros e0 H. by apply quiet_retire in H.
        * intros t ? Ht <-. by apply Hkeep.
        * by apply Hnow.
      + unfold wdg_checker_tick. by rewrite Hen. }
  by apply IH.
Qed.

Lemma checker_entry_get win now i s e :
  slot_has i (eq e) s ->
  Forall (fun c => quiet i c = true) (win i) ->
  slot_has i (eq (entry_checked now e)) (checker_entry win now i s).1
  /\ recoveries_for i (checker_entry win now i s).2 = entry_recoveries now e.
Proof.
  intros Hs Hwin. pose proof Hs as (Hwf & Hi & ? & He & <-).
  pose proof (checker_detect_steps now i s) as Hst.
  unfold checker_entry, entry_checked, entry_recoveries.
  rewrite (checker_detect_eq _ _ _ _ He) in *.
  destruct (entry_verdict now e) as [a| |]; simpl in *.
  - set (s1 := with_stats stats_timeout (table_set i (entry_timed_out e) s))
      in *.
    assert (Hs1 : slot_has i (eq (entry_timed_out e)) s1).
    { apply (slot_has_after i _ _ s s1 (entry_timed_out e) Hs Hst); [|done].
      by apply (table_get_set_eq _ _ e). }
    destruct (run_calls_quiet i _ (win i) s1 Hwin Hs1) as [Hs2 ->].
    rewrite Z.eqb_refl. split; [|done].
    pose proof Hs2 as (Hwf2 & Hi2 & ? & He2 & <-).
    apply (slot_has_after i _ _ _ _ (entry_recovered (entry_timed_out e)) Hs2);
      [by apply checker_complete_steps| |done].
    unfold checker_complete. rewrite He2.
    by apply (table_get_set_eq _ _ (entry_timed_out e)).
  - split; [|done].
    apply (slot_has_after i _ _ s _ (entry_warning e) Hs Hst); [|done].
    by apply (table_get_set_eq _ _ e).
  - done.
Qed.

(** The loop, started at or below slot [i] with enough iterations left to
    reach it. *)
Lemma checker_for_get i e fuel win now j s :
  0 <= j <= i -> (Z.to_nat (i - j) < fuel)%nat ->
  (forall j, Forall (fun c => quiet i c = true) (win j)) ->
  slot_has i (eq e) s ->
  slot_has i (eq (entry_checked now e)) (checker_for fuel win now j s).1
  /\ recoveries_for i (checker_for fuel win now j s).2 = entry_recoveries now e.
Proof.
  intros Hj Hfuel Hwin. revert j s Hj Hfuel.
  induction fuel as [|fuel IH]; intros j s Hj Hfuel Hs; [lia|].
  pose proof Hs as (Hwf & Hi & _).
  rewrite checker_for_S.
  destruct (Z.ltb_spec j (wdg_count s)) as [Hlt|]; [|lia].
  cbn [fst snd]. rewrite recoveries_for_app.
  destruct (decide (j = i)) as [->|Hne].
  - destruct (checker_entry_get win now i s e Hs (Hwin i)) as [Hs1 ->].
    destruct (checker_for_quiet i _ fuel win now (i + 1) _
                ltac:(lia) ltac:(lia) Hwin Hs1) as [Hs2 ->].
    by rewrite app_nil_r.
  - destruct (checker_entry_slot_ne i (eq e) (quiet i)) with
      (win := win) (now := now) (j := j) (s := s) as [Hs1 ->]; auto.
    + intros now0 e0 H. by apply quiet_beat in H.
    + intros e0 H. by apply quiet_retire in H.
    + lia.
    + apply IH; [lia|lia|done].
Qed.

(** One tick, seen from an allocated slot that the calls made during the
    tick leave alone. *)
Lemma wdg_checker_tick_get i e win now s :
  wdg_enabled s = true ->
  (forall j, Forall (fun c => quiet i c = true) (win j)) ->
  slot_has i (eq e) s ->
  slot_has i (eq (entry_checked now e)) (wdg_checker_tick win now s).1
  /\ recoveries_for i (wdg_checker_tick win now s).2 = entry_recoveries now e.
Proof.
  intros Hen Hwin Hs. pose proof Hs as (Hwf & Hi & ? & He & <-).
  unfold wdg_checker_tick. rewrite Hen. cbn [negb].
  apply checker_for_get; [lia| |done|].
  - apply wdg_wf_spec in Hwf as (_ & Hc & _).
    unfold WDG_MAX_THREADS in *. lia.
  - unfold slot_has. split_and!; [done|simpl; lia..|by exists e].
Qed.

(** *** The loop always runs to its end *)

Lemma checker_for_fuel fuel extra win now j s :
  wdg_wf s -> 0 <= j -> (Z.to_nat (WDG_MAX_THREADS - j) <= fuel)%nat ->
  checker_for (fuel + extra) win now j s = checker_for fuel win now j s.
Proof.
  revert j s. induction fuel as [|fuel IH]; intros j s Hwf Hj Hfuel.
  - destruct extra as [|extra]; [done|]. simpl. rewrite checker_for_S.
    apply wdg_wf_spec in Hwf as (_ & Hc & _).
    destruct (Z.ltb_spec j (wdg_count s)); [lia|done].
  - simpl. rewrite !checker_for_S.
    destruct (Z.ltb_spec j (wdg_count s)); [|done].
    cbn zeta. rewrite IH; [done| |lia|lia].
    eapply wdg_steps_wf; [|done]. apply checker_entry_steps. lia.
Qed.

(** ** Slot allocation *)

Lemma wdg_heartbeat_count now slot s :
  wdg_count (wdg_heartbeat now slot s) = wdg_count s.
Proof.
  unfold wdg_heartbeat. destruct (slot_out_of_range slot); [done|].
  destruct (table_get s slot) as [e|]; [|done]. by destruct (active e).
Qed.

Lemma wdg_unregister_count slot s :
  wdg_count (wdg_unregister slot s) = wdg_count s.
Proof.
  unfold wdg_unregister. destruct (slot_out_of_range slot); [done|].
  destruct (table_get s slot) as [e|]; [|done]. by destruct (active e).
Qed.

Lemma checker_detect_count now i s :
  wdg_count (checker_detect now i s).1 = wdg_count s.
Proof.
  destruct (table_get s i) as [e|] eqn:He.
  - rewrite (checker_detect_eq _ _ _ _ He). by destruct (entry_verdict now e).
  - unfold checker_detect. by rewrite He.
Qed.

Lemma checker_complete_count i s :
  wdg_count (checker_complete i s) = wdg_count s.
Proof. unfold checker_complete. by destruct (table_get s i). Qed.

Lemma seqZ_chain a b c l1 l2 :
  a <= b <= c -> l1 = seqZ a (b - a) -> l2 = seqZ b (c - b) ->
  l1 ++ l2 = seqZ a (c - a).
Proof.
  intros H -> ->. replace (c - a) with ((b - a) + (c - b)) by lia.
  rewrite seqZ_app by lia. do 3 f_equal. lia.
Qed.

Lemma registered_slots_app tr1 tr2 :
  registered_slots (tr1 ++ tr2) = registered_slots tr1 ++ registered_slots tr2.
Proof. apply omap_app. Qed.

Lemma run_call_slots c s :
  wdg_wf s ->
  registered_slots [ObsCall c (run_call c s).2]
  = seqZ (wdg_count s) (wdg_count (run_call c s).1 - wdg_count s).
Proof.
  intros Hwf. apply wdg_wf_spec in Hwf as (_ & Hc & _).
  destruct c as [now nm timeout cb|now slot|slot| | | |]; simpl;
    rewrite ?wdg_heartbeat_count, ?wdg_unregister_count, ?Z.sub_diag;
    try done.
  unfold wdg_register. destruct (Z.leb_spec WDG_MAX_THREADS (wdg_count s));
    simpl.
  - by rewrite Z.sub_diag.
  - destruct (Z.eqb_spec (wdg_count s) (-1)); [lia|].
    replace (wdg_count s + 1 - wdg_count s) with 1 by lia. done.
Qed.

Lemma run_calls_slots cs s :
  wdg_wf s ->
  registered_slots (run_calls cs s).2
  = seqZ (wdg_count s) (wdg_count (run_calls cs s).1 - wdg_count s).
Proof.
  revert s. induction cs as [|c cs IH]; intros s Hwf; cbn [run_calls fst snd].
  - by rewrite Z.sub_diag.
  - pose proof (run_call_steps c s) as H1.
    pose proof (run_calls_steps cs (run_call c s).1) as H2.
    change (registered_slots (?x :: ?l)) with (registered_slots ([x] ++ l)).
    rewrite registered_slots_app.
    apply (seqZ_chain _ (wdg_count (run_call c s).1)).
    + apply wdg_steps_count in H1, H2. lia.
    + by apply run_call_slots.
    + apply IH. eauto using wdg_steps_wf.
Qed.

Lemma checker_entry_slots win now i s :
  wdg_wf s ->
  registered_slots (checker_entry win now i s).2
  = seqZ (wdg_count s) (wdg_count (checker_entry win now i s).1 - wdg_count s).
Proof.
  intros Hwf. unfold checker_entry.
  pose proof (checker_detect_steps now i s) as H1.
  pose proof (checker_detect_count now i s) as Hc.
  destruct (checker_detect now i s) as [s1 [a|]]; simpl in *.
  - rewrite checker_complete_count, <- Hc.
    apply run_calls_slots. eauto using wdg_steps_wf.
  - by rewrite Hc, Z.sub_diag.
Qed.

Lemma checker_for_slots fuel win now i s :
  wdg_wf s -> 0 <= i ->
  registered_slots (checker_for fuel win now i s).2
  = seqZ (wdg_count s) (wdg_count (checker_for fuel win now i s).1 - wdg_count s).
Proof.
  revert i s. induction fuel as [|fuel IH]; intros i s Hwf Hi.
  - simpl. by rewrite Z.sub_diag.
  - rewrite checker_for_S.
    destruct (Z.ltb_spec i (wdg_count s)); cbn [fst snd];
      [|by rewrite Z.sub_diag].
    pose proof (checker_entry_steps win now i s ltac:(lia)) as H1.
    pose proof (checker_for_steps fuel win now (i + 1)
                  (checker_entry win now i s).1 ltac:(lia)) as H2.
    rewrite registered_slots_app.
    apply (seqZ_chain _ (wdg_count (checker_entry win now i s).1)).
    + apply wdg_steps_count in H1, H2. lia.
    + by apply checker_entry_slots.
    + apply IH; [|lia]. eauto using wdg_steps_wf.
Qed.

Lemma run_op_slots o s :
  wdg_wf s ->
  registered_slots (run_op o s).2
  = seqZ (wdg_count s) (wdg_count (run_op o s).1 - wdg_count s).
Proof.
  intros Hwf. destruct o as [c|now win]; simpl.
  - by apply run_call_slots.
  - unfold wdg_checker_tick. destruct (wdg_enabled s); cbn [negb].
    + by apply (checker_for_slots _ _ _ _ (with_stats stats_check s)).
    + by rewrite Z.sub_diag.
Qed.

Lemma run_ops_slots os s :
  wdg_wf s ->
  registered_slots (run_ops os s).2
  = seqZ (wdg_count s) (wdg_count (run_ops os s).1 - wdg_count s).
Proof.
  revert s. induction os as [|o os IH]; intros s Hwf; cbn [run_ops fst snd].
  - by rewrite Z.sub_diag.
  - pose proof (run_op_steps o s) as H1.
    pose proof (run_ops_steps os (run_op o s).1) as H2.
    rewrite registered_slots_app.
    apply (seqZ_chain _ (wdg_count (run_op o s).1)).
    + apply wdg_steps_count in H1, H2. lia.
    + by apply run_op_slots.
    + apply IH. eauto using wdg_steps_wf.
Qed.

(** *** What identifies an entry is never rewritten *)

Lemma wdg_step_identity s s' i e :
  wdg_step s s' -> wdg_wf s -> 0 <= i < wdg_count s ->
  table_get s i = Some e ->
  exists e', table_get s' i = Some e' /\ same_identity e e'.
Proof.
  assert (Hset : forall s k e0 e',
    table_get s k = Some e0 -> table_get s i = Some e ->
    (e0 = e -> same_identity e e') ->
    exists e'', table_get (table_set k e' s) i = Some e''
                /\ same_identity e e'').
  { intros s0 k e0 e' Hk Hi Hsame.
    destruct (decide (Z.to_nat k = Z.to_nat i)) as [Heq|Hne].
    - exists e'. unfold table_get in *. simpl. rewrite Heq in *.
      split; [apply list_lookup_insert_eq; by eapply lookup_lt_Some|].
      apply Hsame. congruence.
    - exists e. by rewrite table_get_set_ne. }
  destruct 1 as [s now nm timeout cb Hlt| | | | | | |]; intros Hwf Hi He;
    try (eapply Hset; eauto; by intros ->);
    try (exists e; done).
  exists e. by rewrite wdg_register_get.
Qed.

Lemma wdg_steps_identity s s' i e :
  rtc wdg_step s s' -> wdg_wf s -> 0 <= i < wdg_count s ->
  table_get s i = Some e ->
  exists e', table_get s' i = Some e' /\ same_identity e e'.
Proof.
  intros Hsteps. revert e.
  induction Hsteps as [s|s s1 s' H1 _ IH]; intros e Hwf Hi He.
  - by exists e.
  - destruct (wdg_step_identity _ _ _ _ H1 Hwf Hi He)
      as (e1 & He1 & Hn1 & Ht1 & Hc1).
    destruct (IH e1) as (e' & He' & Hn & Ht & Hc); auto.
    + eauto using wdg_step_wf.
    + apply wdg_step_count in H1. lia.
    + exists e'. unfold same_identity. split_and!; congruence.
Qed.

(** ** Reading the state of a slot *)

Lemma wdg_get_state_get slot s e :
  slot_out_of_range slot = false -> table_get s slot = Some e ->
  wdg_get_state slot s = state e.
Proof. intros Hr He. unfold wdg_get_state. by rewrite Hr, He. Qed.

Lemma slot_has_get_state i e s :
  slot_has i (eq e) s -> wdg_get_state i s = state e.
Proof.
  intros (Hwf & Hi & ? & He & <-). apply wdg_get_state_get; [|done].
  apply slot_in_range. apply wdg_wf_spec in Hwf as (_ & Hc & _). lia.
Qed.

Lemma wdg_heartbeat_enabled now slot s :
  wdg_enabled (wdg_heartbeat now slot s) = wdg_enabled s.
Proof.
  unfold wdg_heartbeat. destruct (slot_out_of_range slot); [done|].
  destruct (table_get s slot) as [e|]; [|done]. by destruct (active e).
Qed.

(** ** The verdict in each case *)

Lemma entry_verdict_expired now e :
  active e = true -> timeout_ms e < now - last_heartbeat e ->
  state e <> WDG_STATE_UNRESPONSIVE -> state e <> WDG_STATE_RECOVERED ->
  entry_verdict now e = Expired (recovery_of now e).
Proof.
  intros Ha Hlt Hu Hr. unfold entry_verdict. rewrite Ha. simpl.
  destruct (Z.gtb_spec (now - last_heartbeat e) (timeout_ms e)); [|lia].
  apply state_eqb_neq in Hu, Hr. by rewrite Hu, Hr.
Qed.

Lemma entry_verdict_settled now e :
  state e = WDG_STATE_UNRESPONSIVE \/ state e = WDG_STATE_RECOVERED ->
  entry_verdict now e = Keep.
Proof.
  intros Hst. unfold entry_verdict.
  destruct (active e); simpl; [|done].
  destruct Hst as [-> | ->]; simpl; by repeat destruct (_ >? _).
Qed.

Lemma entry_verdict_within now e :
  now - last_heartbeat e <= timeout_ms e ->
  state e <> WDG_STATE_HEALTHY ->
  entry_verdict now e = Keep.
Proof.
  intros Hle Hst. unfold entry_verdict.
  destruct (active e); simpl; [|done].
  destruct (Z.gtb_spec (now - last_heartbeat e) (timeout_ms e)); [lia|].
  apply state_eqb_neq in Hst. rewrite Hst. by destruct (_ >? _).
Qed.

(** The 75% threshold as the code computes it, against the exact one. *)
Lemma warning_threshold_le t : 0 <= t -> 4 * (u32 (t * 3) / 4) <= 3 * t.
Proof.
  intros Ht. pose proof (u32_le (t * 3) ltac:(lia)).
  pose proof (u32_range (t * 3)).
  pose proof (Z.mul_div_le (u32 (t * 3)) 4 ltac:(lia)). lia.
Qed.

Lemma warning_threshold_exact t elapsed :
  0 <= t -> t * 3 < 2 ^ 32 ->
  (u32 (t * 3) / 4 < elapsed <-> 3 * t < 4 * elapsed).
Proof.
  intros Ht Hsmall. rewrite u32_small by lia.
  pose proof (Z.mul_div_le (t * 3) 4 ltac:(lia)).
  pose proof (Z.mul_succ_div_gt (t * 3) 4 ltac:(lia)). lia.
Qed.

Lemma entry_verdict_warn now e :
  active e = true -> 0 <= timeout_ms e ->
  state e = WDG_STATE_HEALTHY ->
  3 * timeout_ms e < 4 * (now - last_heartbeat e) ->
  now - last_heartbeat e <= timeout_ms e ->
  entry_verdict now e = Warn.
Proof.
  intros Ha Ht Hst Hlo Hhi. unfold entry_verdict. rewrite Ha, Hst. simpl.
  destruct (Z.gtb_spec (now - last_heartbeat e) (timeout_ms e)); [lia|].
  pose proof (warning_threshold_le (timeout_ms e) Ht).
  destruct (Z.gtb_spec (now - last_heartbeat e) (u32 (timeout_ms e * 3) / 4));
    [done|lia].
Qed.

Lemma entry_verdict_early now e :
  0 <= timeout_ms e -> timeout_ms e * 3 < 2 ^ 32 ->
  4 * (now - last_heartbeat e) <= 3 * timeout_ms e ->
  entry_verdict now e = Keep.
Proof.
  intros Ht Hsmall Hlo. unfold entry_verdict.
  destruct (active e); simpl; [|done].
  destruct (Z.gtb_spec (now - last_heartbeat e) (timeout_ms e)); [lia|].
  destruct (Z.gtb_spec (now - last_heartbeat e) (u32 (timeout_ms e * 3) / 4))
    as [Hgt|]; [|done].
  apply warning_threshold_exact in Hgt; [lia|done..].
Qed.

(** The same two cases against the threshold as the code computes it,
    whatever the timeout. *)
Lemma entry_verdict_above now e :
  active e = true -> state e = WDG_STATE_HEALTHY ->
  now - last_heartbeat e <= timeout_ms e ->
  u32 (timeout_ms e * 3) / 4 < now - last_heartbeat e ->
  entry_verdict now e = Warn.
Proof.
  intros Ha Hst Hhi Hlo. unfold entry_verdict. rewrite Ha, Hst. simpl.
  destruct (Z.gtb_spec (now - last_heartbeat e) (timeout_ms e)); [lia|].
  by destruct (Z.gtb_spec (now - last_heartbeat e)
                 (u32 (timeout_ms e * 3) / 4)); [|lia].
Qed.

Lemma entry_verdict_below now e :
  now - last_heartbeat e <= timeout_ms e ->
  now - last_heartbeat e <= u32 (timeout_ms e * 3) / 4 ->
  entry_verdict now e = Keep.
Proof.
  intros Hhi Hlo. unfold entry_verdict.
  destruct (active e); simpl; [|done].
  destruct (Z.gtb_spec (now - last_heartbeat e) (timeout_ms e)); [lia|].
  by destruct (Z.gtb_spec (now - last_heartbeat e)
                 (u32 (timeout_ms e * 3) / 4)); [lia|].
Qed.

(** ** Calls made while the mutex is released *)

Lemma run_call_totals c s :
  total_timeouts (wdg_stats (run_call c s).1) = total_timeouts (wdg_stats s)
  /\ total_recoveries (wdg_stats (run_call c s).1)
     = total_recoveries (wdg_stats s).
Proof.
  destruct c as [now nm timeout cb|now slot|slot| | | |]; simpl; try done.
  - unfold wdg_register. by destruct (_ <=? _).
  - unfold wdg_heartbeat. destruct (slot_out_of_range slot); [done|].
    destruct (table_get s slot) as [e|]; [|done]. by destruct (active e).
  - unfold wdg_unregister. destruct (slot_out_of_range slot); [done|].
    destruct (table_get s slot) as [e|]; [|done]. by destruct (active e).
Qed.

Lemma run_calls_totals cs s :
  total_timeouts (wdg_stats (run_calls cs s).1) = total_timeouts (wdg_stats s)
  /\ total_recoveries (wdg_stats (run_calls cs s).1)
     = total_recoveries (wdg_stats s).
Proof.
  revert s. induction cs as [|c cs IH]; intros s; simpl; [done|].
  destruct (IH (run_call c s).1) as [-> ->]. apply run_call_totals.
Qed.

Lemma recoveries_for_cons j i a tr :
  recoveries_for j (ObsRecovery i a :: tr)
  = (if i =? j then [a] else []) ++ recoveries_for j tr.
Proof. unfold recoveries_for. simpl. by destruct (i =? j). Qed.

Lemma run_calls_no_recovery j cs s : recoveries_for j (run_calls cs s).2 = [].
Proof. revert s. induction cs as [|c cs IH]; intros s; simpl; [done|apply IH]. Qed.

(** ** Many heartbeats *)

Lemma wdg_heartbeat_iter now i s (n : positive) :
  slot_active s i = true ->
  Pos.iter (wdg_heartbeat now i) s n = beat_many now i (Z.pos n) s.
Proof.
  intros (Hr & e & He & Ha)%slot_active_spec.
  induction n as [|n IH] using Pos.peano_ind.
  - simpl. unfold wdg_heartbeat, beat_many. rewrite Hr, He.
    unfold with_stats, table_set, entry_beat, stats_beat, u32_incr.
    by rewrite Ha.
  - rewrite Pos.iter_succ, IH. unfold wdg_heartbeat, beat_many.
    rewrite Hr, He. unfold table_get in *. simpl.
    rewrite list_lookup_insert_eq by by eapply lookup_lt_Some.
    simpl. unfold with_stats, table_set, entry_beat, stats_beat, u32_incr.
    simpl. rewrite list_insert_insert_eq, Ha, !u32_add_l, Pos2Z.inj_succ.
    by replace (Z.succ (Z.pos n)) with (Z.pos n + 1) by lia;
      rewrite !Z.add_assoc.
Qed.

Lemma run_ops_app os1 os2 s :
  (run_ops (os1 ++ os2) s).1 = (run_ops os2 (run_ops os1 s).1).1.
Proof.
  revert s. induction os1 as [|o os1 IH]; intros s; simpl; [done|apply IH].
Qed.

Lemma reachable_call c s : reachable s -> reachable (run_call c s).1.
Proof.
  intros [os <-]. exists (os ++ [OpCall c]). by rewrite run_ops_app.
Qed.

Lemma reachable_iter (f : wdg -> wdg) (n : positive) s :
  (forall s, reachable s -> reachable (f s)) ->
  reachable s -> reachable (Pos.iter f s n).
Proof.
  intros Hf Hs. induction n as [|n IH] using Pos.peano_ind; simpl; [auto|].
  rewrite Pos.iter_succ. auto.
Qed.

Lemma demo_wrap_reachable : reachable demo_wrap.
Proof.
  assert (Hpair : reachable demo_pair).
  { exists [OpCall (CallRegister 0 "A" 100 (Some 7%N));
            OpCall (CallRegister 0 "B" 200 None)]. reflexivity. }
  assert (Hbeat : forall now i s, reachable s ->
                                  reachable (wdg_heartbeat now i s)).
  { intros now i s. apply (reachable_call (CallHeartbeat now i)). }
  unfold demo_wrap.
  rewrite <- (wdg_heartbeat_iter 0 0 demo_pair 2147483648) by reflexivity.
  pose proof (reachable_iter (wdg_heartbeat 0 0) 2147483648 demo_pair
                (Hbeat 0 0) Hpair) as H0.
  rewrite <- (wdg_heartbeat_iter 0 1 _ 2147483647).
  - apply reachable_iter; [apply Hbeat|exact H0].
  - rewrite wdg_heartbeat_iter by reflexivity. reflexivity.
Qed.

Lemma reachable_inv s : reachable s -> wdg_inv s.
Proof.
  intros [os <-]. eapply wdg_steps_inv; [apply run_ops_steps|].
  apply wdg_init_inv.
Qed.

(** ** The scenarios of the specification *)

(** Entry "A" with a timeout of 200 ms and a tick every 50 ms, no heartbeat:
    the recovery action is invoked once, at the tick at 250 ms, and not again
    at the later ticks. *)
Example scenario_single_recovery :
  let os := (fun t => OpTick t no_calls) <$> [50; 100; 150; 200; 250; 300; 350] in
  let r := run_ops os (wdg_register 0 "A" 200 None wdg_init).2 in
  recoveries_for 0 r.2 = [InvokeDefault "A" 250]
  /\ recovery_count <$> table_get r.1 0 = Some 1
  /\ timeout_count <$> table_get r.1 0 = Some 1
  /\ wdg_get_state 0 r.1 = WDG_STATE_RECOVERED.
Proof. by vm_compute. Qed.

(** A heartbeat for the entry under recovery, made while the mutex is
    released, is recorded, and its Healthy state is then overwritten with
    Recovered. *)
Example scenario_heartbeat_during_recovery :
  let r := checker_entry (fun _ => [CallHeartbeat 160 0]) 150 0 demo_pair in
  table_get r.1 0
  = Some (mk_wdg_entry true "A" 100 160 WDG_STATE_RECOVERED (Some 7%N) 1 1 1)
  /\ total_heartbeats (wdg_stats r.1) = 1.
Proof. by vm_compute. Qed.

(** ** The loop of the checker does not read [wdg_enabled] *)

Lemma same_registry_refl s : same_registry s s.
Proof. by split_and!. Qed.

Lemma same_registry_enable b s : same_registry s (wdg_enable b s).
Proof. by split_and!. Qed.

Lemma same_registry_set s s' k e :
  same_registry s s' -> same_registry (table_set k e s) (table_set k e s').
Proof.
  intros (Ht & Hc & Hst). unfold same_registry. cbn. by rewrite Ht, Hc, Hst.
Qed.

Lemma same_registry_stats s s' f :
  same_registry s s' -> same_registry (with_stats f s) (with_stats f s').
Proof.
  intros (Ht & Hc & Hst). unfold same_registry. cbn. by rewrite Ht, Hc, Hst.
Qed.

Lemma same_registry_get s s' k :
  same_registry s s' -> table_get s' k = table_get s k.
Proof. intros (Ht & _). unfold table_get. by rewrite Ht. Qed.

Lemma run_call_same c s s' :
  same_registry s s' -> same_registry (run_call c s).1 (run_call c s').1.
Proof.
  intros Hs. pose proof Hs as (Ht & Hc & Hst).
  destruct c as [now nm timeout cb|now slot|slot|b| | |]; cbn [run_call fst];
    try done.
  - unfold wdg_register. rewrite Hc.
    destruct (WDG_MAX_THREADS <=? wdg_count s); [done|].
    unfold same_registry. cbn. by rewrite Ht, Hst.
  - unfold wdg_heartbeat. rewrite (same_registry_get s s') by done.
    destruct (slot_out_of_range slot); [done|].
    destruct (table_get s slot) as [e|]; [|done].
    destruct (active e); [|done].
    by apply same_registry_stats, same_registry_set.
  - unfold wdg_unregister. rewrite (same_registry_get s s') by done.
    destruct (slot_out_of_range slot); [done|].
    destruct (table_get s slot) as [e|]; [|done].
    destruct (active e); [|done]. by apply same_registry_set.
Qed.

Lemma run_calls_same cs s s' :
  same_registry s s' -> same_registry (run_calls cs s).1 (run_calls cs s').1.
Proof.
  revert s s'. induction cs as [|c cs IH]; intros s s' Hs; [done|].
  cbn [run_calls fst]. by apply IH, run_call_same.
Qed.

Lemma checker_detect_same now i s s' :
  same_registry s s' ->
  same_registry (checker_detect now i s).1 (checker_detect now i s').1
  /\ (checker_detect now i s').2 = (checker_detect now i s).2.
Proof.
  intros Hs. unfold checker_detect. rewrite (same_registry_get s s') by done.
  destruct (table_get s i) as [e|]; [|done].
  destruct (negb (active e)); [done|].
  destruct (_ >? timeout_ms e).
  - destruct (_ && _); [|done]. split; [|done].
    by apply same_registry_stats, same_registry_set.
  - destruct (_ >? _); [|done].
    destruct (wdg_thread_state_eqb _ _); [|done].
    split; [|done]. by apply same_registry_set.
Qed.

Lemma checker_complete_same i s s' :
  same_registry s s' ->
  same_registry (checker_complete i s) (checker_complete i s').
Proof.
  intros Hs. unfold checker_complete.
  rewrite (same_registry_get s s') by done.
  destruct (table_get s i) as [e|]; [|done].
  by apply same_registry_stats, same_registry_set.
Qed.

Lemma checker_entry_same win now i s s' :
  same_registry s s' ->
  same_registry (checker_entry win now i s).1 (checker_entry win now i s').1
  /\ forall j, recoveries_for j (checker_entry win now i s').2
               = recoveries_for j (checker_entry win now i s).2.
Proof.
  intros Hs. unfold checker_entry.
  destruct (checker_detect_same now i s s' Hs) as [Hd Ha].
  destruct (checker_detect now i s) as [s1 a].
  destruct (checker_detect now i s') as [s1' a']. cbn [fst snd] in *.
  subst a'. destruct a as [a|]; [|done]. cbn [fst snd]. split.
  - by apply checker_complete_same, run_calls_same.
  - intros j. by rewrite !recoveries_for_cons, !run_calls_no_recovery.
Qed.

Lemma checker_for_same fuel win now i s s' :
  same_registry s s' ->
  same_registry (checker_for fuel win now i s).1
    (checker_for fuel win now i s').1
  /\ forall j, recoveries_for j (checker_for fuel win now i s').2
               = recoveries_for j (checker_for fuel win now i s).2.
Proof.
  revert i s s'. induction fuel as [|fuel IH]; intros i s s' Hs; [done|].
  rewrite !checker_for_S. pose proof Hs as (_ & Hc & _). rewrite Hc.
  destruct (i <? wdg_count s); [|done]. cbn [fst snd].
  destruct (checker_entry_same win now i s s' Hs) as [He Hr].
  destruct (IH (i + 1) _ _ He) as [Hf Hr']. split; [done|].
  intros j. by rewrite !recoveries_for_app, Hr, Hr'.
Qed.

(** * The claims of the specification *)

(** C1. Take an allocated slot [i] whose entry is active, has more than
    [timeout_ms] elapsed since its last heartbeat, and is neither
    Unresponsive nor Recovered. When the checker evaluates it, whatever calls
    are made while the mutex is released:
    - exactly one recovery action is invoked, for slot [i]: the entry's
      callback if it has one, the default action otherwise, with the entry's
      name and the elapsed time;
    - afterwards the entry is Recovered, and [timeout_count],
      [recovery_count], [total_timeouts] and [total_recoveries] have each
      been incremented once (as [uint32_t]);
    - in a whole tick during which no call touches slot [i], this is what
      the tick does to the entry.
    Afterwards, along any sequence of operations without a heartbeat for
    slot [i], no recovery action is invoked for slot [i], the entry stays
    Recovered with the same [timeout_count] and [recovery_count], and the
    checker's evaluation of the entry changes nothing, the aggregate
    statistics included. *)
Theorem recovery_fires_once win now i s e :
  wdg_wf s -> 0 <= i < wdg_count s -> table_get s i = Some e ->
  active e = true ->
  timeout_ms e < now - last_heartbeat e ->
  state e <> WDG_STATE_UNRESPONSIVE -> state e <> WDG_STATE_RECOVERED ->
  let a := match recovery_cb e with
           | Some cb => InvokeCallback cb (name e) (u32 (now - last_heartbeat e))
           | None => InvokeDefault (name e) (u32 (now - last_heartbeat e))
           end in
  let settled (e' : wdg_entry) :=
    state e' = WDG_STATE_RECOVERED
    /\ timeout_count e' = u32 (timeout_count e + 1)
    /\ recovery_count e' = u32 (recovery_count e + 1) in
  let r := checker_entry win now i s in
  (forall j, recoveries_for j r.2 = if j =? i then [a] else [])
  /\ (exists e', table_get r.1 i = Some e' /\ settled e')
  /\ total_timeouts (wdg_stats r.1) = u32 (total_timeouts (wdg_stats s) + 1)
  /\ total_recoveries (wdg_stats r.1)
     = u32 (total_recoveries (wdg_stats s) + 1)
  /\ (wdg_enabled s = true ->
      (forall j, Forall (fun c => quiet i c = true) (win j)) ->
      let t := wdg_checker_tick win now s in
      recoveries_for i t.2 = [a]
      /\ exists e', table_get t.1 i = Some e' /\ settled e')
  /\ (forall os,
        Forall (op_ok (no_beat i) (fun _ => True)) os ->
        let r' := run_ops os r.1 in
        recoveries_for i r'.2 = []
        /\ (exists e', table_get r'.1 i = Some e' /\ settled e')
        /\ forall win' now', checker_entry win' now' i r'.1 = (r'.1, [])).
Proof.
  intros Hwf Hi He Ha Hlt Hu Hr a settled r.
  assert (Hs : slot_has i (eq e) s) by (split_and!; eauto; lia).
  pose proof (entry_verdict_expired now e Ha Hlt Hu Hr) as Hv.
  change (entry_verdict now e = Expired a) in Hv.
  pose proof (checker_detect_steps now i s) as Hst.
  rewrite (checker_detect_eq _ _ _ _ He), Hv in Hst. simpl in Hst.
  set (s1 := with_stats stats_timeout (table_set i (entry_timed_out e) s))
    in *.
  set (marked e' := timeout_count e' = u32 (timeout_count e + 1)
                    /\ recovery_count e' = recovery_count e).
  assert (Hs1 : slot_has i marked s1).
  { apply (slot_has_after i _ _ s s1 (entry_timed_out e) Hs Hst); [|done].
    by apply (table_get_set_eq _ _ e). }
  destruct (run_calls_slot i marked (fun _ => true)) with
    (cs := win i) (s := s1) as [Hs2 _]; try done.
  { by apply Forall_true. }
  destruct (run_calls_totals (win i) s1) as [Htt Htr].
  assert (Hr_eq : r = (checker_complete i (run_calls (win i) s1).1,
                       ObsRecovery i a :: (run_calls (win i) s1).2)).
  { unfold r, checker_entry. by rewrite (checker_detect_eq _ _ _ _ He), Hv. }
  pose proof Hs2 as (Hwf2 & Hi2 & e2 & He2 & Htc2 & Hrc2).
  assert (Hs3 : slot_has i settled r.1).
  { rewrite Hr_eq. cbn [fst].
    apply (slot_has_after i _ _ _ _ (entry_recovered e2) Hs2);
      [by apply checker_complete_steps| |].
    - unfold checker_complete. rewrite He2.
      by apply (table_get_set_eq _ _ e2).
    - unfold settled. simpl. unfold u32_incr. by rewrite Htc2, Hrc2. }
  assert (Hkeep : forall now' e', True -> settled e' ->
                                  entry_verdict now' e' = Keep).
  { intros now' e' _ (Hst' & _). apply entry_verdict_settled. by right. }
  split_and!.
  - intros j. rewrite Hr_eq. cbn [snd].
    rewrite recoveries_for_cons, run_calls_no_recovery, app_nil_r.
    by rewrite (Z.eqb_sym j i).
  - by destruct Hs3 as (_ & _ & Hex).
  - rewrite Hr_eq. cbn [fst]. unfold checker_complete. rewrite He2. simpl.
    by rewrite Htt.
  - rewrite Hr_eq. cbn [fst]. unfold checker_complete. rewrite He2. simpl.
    by rewrite Htr.
  - intros Hen Hq t.
    destruct (wdg_checker_tick_get i e win now s Hen Hq Hs) as [Ht1 Ht2].
    unfold entry_recoveries, entry_checked in *. rewrite Hv in *.
    split; [done|]. destruct Ht1 as (_ & _ & e' & He' & <-).
    exists (entry_recovered (entry_timed_out e)). by split.
  - intros os Hos r'.
    destruct (run_ops_slot i settled (no_beat i) (fun _ => True)) with
      (os := os) (s := r.1) as [Hs4 Hrec]; try done.
    { intros now' e'. unfold no_beat. simpl. by rewrite Z.eqb_refl. }
    split_and!; [done|by destruct Hs4 as (_ & _ & Hex)|].
    intros win' now'.
    by apply (checker_entry_slot_eq i settled (fun _ => True) Hkeep).
Qed.

Lemma recovery_fires_once_witness :
  recoveries_for 0 (checker_entry no_calls 150 0 demo_pair).2
  = [InvokeCallback 7%N "A" 150].
Proof.
  pose proof (recovery_fires_once no_calls 150 0 demo_pair
                (mk_wdg_entry true "A" 100 0 WDG_STATE_IDLE (Some 7%N) 0 0 0))
    as H.
  destruct H as [H _];
    [reflexivity|vm_compute; split; [discriminate|reflexivity]|reflexivity
    |reflexivity|reflexivity|discriminate|discriminate|].
  exact (H 0).
Defined.

(** C2, as the code has it. An entry registered at time [now0] with timeout
    [T] is Idle. As long as it gets no heartbeat and is not unregistered, it
    stays Idle through every enabled tick whose clock value is at most
    [now0 + T] (the warning zone included, since only a Healthy entry becomes
    Warning) and through every tick that finds the watchdog disabled,
    whenever that one comes; no recovery action is invoked for it. At the
    first enabled tick with more than [T] elapsed the checker marks it
    Unresponsive, invokes its recovery action once, and leaves it Recovered,
    which is what [wdg_get_state] returns after the tick. *)
Theorem silent_entry_times_out now0 nm T cb s os now win :
  wdg_wf s -> wdg_count s < WDG_MAX_THREADS ->
  let i := wdg_count s in
  let reg := wdg_register now0 nm T cb s in
  silent_until i now0 T os reg.2 ->
  let r := run_ops os reg.2 in
  reg.1 = i
  /\ wdg_get_state i reg.2 = WDG_STATE_IDLE
  /\ wdg_get_state i r.1 = WDG_STATE_IDLE
  /\ recoveries_for i r.2 = []
  /\ (wdg_enabled r.1 = true -> T < now - now0 ->
      (forall j, Forall (fun c => quiet i c = true) (win j)) ->
      let t := wdg_checker_tick win now r.1 in
      wdg_get_state i (checker_detect now i r.1).1 = WDG_STATE_UNRESPONSIVE
      /\ wdg_get_state i t.1 = WDG_STATE_RECOVERED
      /\ recoveries_for i t.2
         = [match cb with
            | Some f => InvokeCallback f (copy_name nm) (u32 (now - now0))
            | None => InvokeDefault (copy_name nm) (u32 (now - now0))
            end]).
Proof.
  intros Hwf Hroom i reg Hos r.
  set (e0 := mk_wdg_entry true (copy_name nm) T now0 WDG_STATE_IDLE cb 0 0 0).
  assert (Hreg : reg = (i, (wdg_register now0 nm T cb s).2)).
  { unfold reg, wdg_register.
    by destruct (Z.leb_spec WDG_MAX_THREADS (wdg_count s)); [lia|]. }
  pose proof Hwf as (Hlen & Hc & _)%wdg_wf_spec.
  assert (Hs1 : slot_has i (eq e0) reg.2).
  { split_and!.
    - by apply wf_register.
    - lia.
    - unfold reg, wdg_register.
      destruct (Z.leb_spec WDG_MAX_THREADS (wdg_count s)); [lia|]. simpl. lia.
    - exists e0. split; [|done]. unfold reg, wdg_register, table_get.
      destruct (Z.leb_spec WDG_MAX_THREADS (wdg_count s)); [lia|]. simpl.
      apply list_lookup_insert_eq. rewrite Hlen.
      unfold WDG_MAX_THREADS in *. lia. }
  destruct (run_ops_silent i now0 T e0 os reg.2) as [Hs2 Hrec]; try done.
  { intros t Ht. by apply entry_verdict_within. }
  split_and!; [by rewrite Hreg|by rewrite (slot_has_get_state i e0)
              |by rewrite (slot_has_get_state i e0)|done|].
  intros Hen Hlate Hq t. subst t.
  assert (Hv : entry_verdict now e0 = Expired (recovery_of now e0))
    by by apply entry_verdict_expired.
  destruct (wdg_checker_tick_get i e0 win now r.1 Hen Hq Hs2) as [Ht1 Ht2].
  unfold entry_checked, entry_recoveries in *. rewrite Hv in *.
  pose proof Hs2 as (Hwf2 & Hi2 & ? & He2 & <-).
  split_and!.
  - rewrite (checker_detect_eq _ _ _ _ He2), Hv. cbn [fst].
    rewrite (wdg_get_state_get i _ (entry_timed_out e0)); [done| |].
    + apply slot_in_range. apply wdg_wf_spec in Hwf2 as (_ & ? & _). lia.
    + by apply (table_get_set_eq _ _ e0).
  - by rewrite (slot_has_get_state i _ _ Ht1).
  - rewrite Ht2. unfold recovery_of. simpl. by destruct cb.
Qed.

(** Ticks at 800 and 1000 ms, then one at 5000 ms that finds the watchdog
    disabled: the entry is still Idle when the watchdog is enabled again. *)
Lemma silent_entry_times_out_witness :
  wdg_get_state 0
    (run_ops [OpTick 800 no_calls; OpTick 1000 no_calls;
              OpCall (CallEnable false); OpTick 5000 no_calls;
              OpCall (CallEnable true)] demo_registered).1
  = WDG_STATE_IDLE.
Proof.
  pose proof (silent_entry_times_out 0 "sensor" 1000 None wdg_init
                [OpTick 800 no_calls; OpTick 1000 no_calls;
                 OpCall (CallEnable false); OpTick 5000 no_calls;
                 OpCall (CallEnable true)] 5001 no_calls)
    as H.
  destruct H as (_ & _ & H & _); [reflexivity|reflexivity| |exact H].
  cbn [silent_until]. split_and!; try done;
    try (intros _; vm_compute; discriminate);
    try (intros j; constructor).
Defined.

(** C2 as stated fails: 800 ms after a registration with a timeout of
    1000 ms and no heartbeat, a tick leaves the entry Idle, not Warning;
    after 1200 ms a tick leaves it Recovered, not Unresponsive. *)
Lemma silent_entry_counterexample :
  wdg_get_state 0 (wdg_checker_tick no_calls 800 demo_registered).1
    = WDG_STATE_IDLE
  /\ wdg_get_state 0 (wdg_checker_tick no_calls 800 demo_registered).1
     <> WDG_STATE_WARNING
  /\ wdg_get_state 0 (wdg_checker_tick no_calls 1200 demo_registered).1
     = WDG_STATE_RECOVERED
  /\ wdg_get_state 0 (wdg_checker_tick no_calls 1200 demo_registered).1
     <> WDG_STATE_UNRESPONSIVE.
Proof. by vm_compute. Qed.

(** C3, as the code has it. At an enabled tick during which no call touches
    slot [i], for the active entry of slot [i], with [elapsed] the time
    since its last heartbeat:
    - Healthy and strictly more than 75% of its own [timeout_ms] elapsed,
      at most 100%: it becomes Warning and nothing else in it changes;
    - Healthy and at most 75% elapsed, for a timeout whose triple fits 32
      bits (at most 1431655765 ms): it is unchanged;
    - Healthy and at most 100% elapsed, whatever the timeout: it becomes
      Warning exactly when [elapsed] is strictly above the threshold the
      code computes, [timeout_ms * 3] reduced modulo 2^32 and divided by 4,
      and is unchanged otherwise; that threshold is never above 75% of the
      timeout and is 75% of it when the triple fits 32 bits;
    - Warning and at most 100% elapsed: it is unchanged;
    - Healthy or Warning and strictly more than 100% elapsed: the checker
      marks it Unresponsive, invokes its recovery action, and the tick
      leaves it Recovered.
    Every condition reads the fields of that entry only. *)
Theorem checker_thresholds win now i s e :
  wdg_wf s -> 0 <= i < wdg_count s -> table_get s i = Some e ->
  active e = true -> wdg_enabled s = true -> 0 <= timeout_ms e ->
  (forall j, Forall (fun c => quiet i c = true) (win j)) ->
  let elapsed := now - last_heartbeat e in
  let threshold := u32 (timeout_ms e * 3) / 4 in
  let t := wdg_checker_tick win now s in
  (state e = WDG_STATE_HEALTHY ->
   3 * timeout_ms e < 4 * elapsed -> elapsed <= timeout_ms e ->
   table_get t.1 i = Some (entry_warning e)
   /\ wdg_get_state i t.1 = WDG_STATE_WARNING
   /\ recoveries_for i t.2 = [])
  /\ (state e = WDG_STATE_HEALTHY ->
      timeout_ms e * 3 < 2 ^ 32 -> 4 * elapsed <= 3 * timeout_ms e ->
      table_get t.1 i = Some e /\ recoveries_for i t.2 = [])
  /\ (state e = WDG_STATE_HEALTHY -> elapsed <= timeout_ms e ->
      (threshold < elapsed ->
       table_get t.1 i = Some (entry_warning e)
       /\ wdg_get_state i t.1 = WDG_STATE_WARNING
       /\ recoveries_for i t.2 = [])
      /\ (elapsed <= threshold ->
          table_get t.1 i = Some e
          /\ wdg_get_state i t.1 = WDG_STATE_HEALTHY
          /\ recoveries_for i t.2 = []))
  /\ 4 * threshold <= 3 * timeout_ms e
  /\ (timeout_ms e * 3 < 2 ^ 32 ->
      (threshold < elapsed <-> 3 * timeout_ms e < 4 * elapsed))
  /\ (state e = WDG_STATE_WARNING -> elapsed <= timeout_ms e ->
      table_get t.1 i = Some e /\ recoveries_for i t.2 = [])
  /\ (state e = WDG_STATE_HEALTHY \/ state e = WDG_STATE_WARNING ->
      timeout_ms e < elapsed ->
      wdg_get_state i (checker_detect now i s).1 = WDG_STATE_UNRESPONSIVE
      /\ wdg_get_state i t.1 = WDG_STATE_RECOVERED
      /\ recoveries_for i t.2 = [recovery_of now e]).
Proof.
  intros Hwf Hi He Ha Hen Ht Hq elapsed threshold t.
  subst elapsed threshold t.
  assert (Hs : slot_has i (eq e) s) by (split_and!; eauto; lia).
  destruct (wdg_checker_tick_get i e win now s Hen Hq Hs) as [Ht1 Ht2].
  unfold entry_checked, entry_recoveries in *.
  pose proof (slot_has_get_state i _ _ Ht1) as Hst.
  destruct Ht1 as (_ & _ & e' & He' & Hee').
  split_and!.
  - intros Hh Hlo Hhi.
    rewrite (entry_verdict_warn now e) in * by done. by subst e'.
  - intros Hh Hsmall Hlo.
    rewrite (entry_verdict_early now e) in * by done. by subst e'.
  - intros Hh Hhi. split.
    + intros Hlo. rewrite (entry_verdict_above now e) in * by done.
      by subst e'.
    + intros Hlo. rewrite (entry_verdict_below now e) in * by done.
      subst e'. by rewrite Hst.
  - by apply warning_threshold_le.
  - intros Hsmall. by apply warning_threshold_exact.
  - intros Hw Hhi.
    rewrite (entry_verdict_within now e) in * by (done || congruence).
    by subst e'.
  - intros Hhw Hlate.
    assert (Hv : entry_verdict now e = Expired (recovery_of now e)).
    { apply entry_verdict_expired; try done; destruct Hhw; congruence. }
    rewrite Hv in *. split_and!; [|done..].
    rewrite (checker_detect_eq _ _ _ _ He), Hv. cbn [fst].
    rewrite (wdg_get_state_get i _ (entry_timed_out e)); [done| |].
    + apply slot_in_range. apply wdg_wf_spec in Hwf as (_ & ? & _). lia.
    + by apply (table_get_set_eq _ _ e).
Qed.

Lemma checker_thresholds_witness :
  wdg_get_state 0 (wdg_checker_tick no_calls 751 demo_healthy).1
  = WDG_STATE_WARNING.
Proof.
  pose proof (checker_thresholds no_calls 751 0 demo_healthy
                (mk_wdg_entry true "sensor" 1000 0 WDG_STATE_HEALTHY None
                   1 0 0)) as H.
  destruct H as [H _];
    [reflexivity|vm_compute; split; [discriminate|reflexivity]|reflexivity
    |reflexivity|reflexivity|vm_compute; discriminate
    |intros j; constructor|].
  apply H; [reflexivity|reflexivity|vm_compute; discriminate].
Defined.

(** C3 as stated fails at both boundaries: a Healthy entry with a timeout of
    1000 ms is still Healthy after a tick at exactly 750 ms, and is Warning,
    not Unresponsive, after a tick at exactly 1000 ms. *)
Lemma checker_thresholds_counterexample :
  wdg_get_state 0 demo_healthy = WDG_STATE_HEALTHY
  /\ wdg_get_state 0 (wdg_checker_tick no_calls 750 demo_healthy).1
     = WDG_STATE_HEALTHY
  /\ wdg_get_state 0 (wdg_checker_tick no_calls 1000 demo_healthy).1
     = WDG_STATE_WARNING.
Proof. by vm_compute. Qed.

(** C4. For every in-range slot holding an active entry, [wdg_heartbeat]
    sets the entry's state to Healthy whatever it was before, sets
    [last_heartbeat] to the current clock value, and increments the entry's
    [heartbeat_count] and the global [total_heartbeats] by one (both are
    [uint32_t], so the increment is modulo 2^32); [wdg_get_state] called
    right after returns Healthy. *)
Theorem heartbeat_marks_healthy now slot s e :
  slot_out_of_range slot = false ->
  table_get s slot = Some e ->
  active e = true ->
  let s' := wdg_heartbeat now slot s in
  (exists e', table_get s' slot = Some e'
     /\ state e' = WDG_STATE_HEALTHY
     /\ last_heartbeat e' = now
     /\ heartbeat_count e' = u32 (heartbeat_count e + 1))
  /\ total_heartbeats (wdg_stats s')
     = u32 (total_heartbeats (wdg_stats s) + 1)
  /\ wdg_get_state slot s' = WDG_STATE_HEALTHY.
Proof.
  intros Hr He Ha s'.
  assert (Hget : table_get s' slot = Some (entry_beat now e)).
  { unfold s'. rewrite (wdg_heartbeat_get_eq _ _ _ _ He).
    unfold slot_active. by rewrite Hr, He, Ha. }
  split_and!.
  - by exists (entry_beat now e).
  - unfold s', wdg_heartbeat. by rewrite Hr, He, Ha.
  - by rewrite (wdg_get_state_get _ _ _ Hr Hget).
Qed.

Lemma heartbeat_marks_healthy_witness :
  wdg_get_state 0 (wdg_heartbeat 7 0 demo_registered) = WDG_STATE_HEALTHY.
Proof.
  eapply (heartbeat_marks_healthy 7 0 demo_registered); reflexivity.
Defined.

(** C5, as the code has it. A checker tick that starts while the watchdog
    is disabled changes nothing at all: no entry, no counter, and
    [checks_performed] in particular. A heartbeat that arrives while the
    watchdog is disabled is recorded as it is when the watchdog is enabled:
    the entry becomes Healthy, [last_heartbeat] is the current clock value,
    [heartbeat_count] and [total_heartbeats] grow by one (modulo 2^32), and
    the watchdog stays disabled. [wdg_enabled] is read once, when a tick
    starts: the loop over the entries does the same to the table, to
    [wdg_count], to the statistics and for the recovery actions whether the
    watchdog is enabled or not, so a tick that is already running when the
    watchdog is disabled goes on to its end. *)
Theorem disabled_checker_is_frozen win now s :
  wdg_enabled s = false ->
  wdg_checker_tick win now s = (s, [])
  /\ checks_performed (wdg_stats (wdg_checker_tick win now s).1)
     = checks_performed (wdg_stats s)
  /\ (forall t slot,
        wdg_heartbeat t slot s
        = wdg_enable false (wdg_heartbeat t slot (wdg_enable true s))
        /\ wdg_enabled (wdg_heartbeat t slot s) = false)
  /\ (forall t slot e,
        slot_out_of_range slot = false -> table_get s slot = Some e ->
        active e = true ->
        let s' := wdg_heartbeat t slot s in
        (exists e', table_get s' slot = Some e'
           /\ state e' = WDG_STATE_HEALTHY
           /\ last_heartbeat e' = t
           /\ heartbeat_count e' = u32 (heartbeat_count e + 1)
           /\ timeout_count e' = timeout_count e
           /\ recovery_count e' = recovery_count e)
        /\ total_heartbeats (wdg_stats s')
           = u32 (total_heartbeats (wdg_stats s) + 1)
        /\ wdg_get_state slot s' = WDG_STATE_HEALTHY)
  /\ (forall k,
        let r := checker_for (Z.to_nat WDG_MAX_THREADS) win now k s in
        let r' := checker_for (Z.to_nat WDG_MAX_THREADS) win now k
                    (wdg_enable true s) in
        same_registry r.1 r'.1
        /\ forall j, recoveries_for j r'.2 = recoveries_for j r.2).
Proof.
  intros Hdis.
  assert (Htick : wdg_checker_tick win now s = (s, []))
    by (unfold wdg_checker_tick; by rewrite Hdis).
  split_and!; [done|by rewrite Htick| | |].
  - intros t slot. rewrite wdg_heartbeat_enable.
    pose proof (wdg_heartbeat_enabled t slot s) as Hen. rewrite Hdis in Hen.
    split; [|done].
    destruct (wdg_heartbeat t slot s) as [tb c en st]. simpl in *. by subst.
  - intros t slot e Hr He Ha s'.
    assert (Hget : table_get s' slot = Some (entry_beat t e)).
    { unfold s'. rewrite (wdg_heartbeat_get_eq _ _ _ _ He).
      unfold slot_active. by rewrite Hr, He, Ha. }
    split_and!.
    + by exists (entry_beat t e).
    + unfold s', wdg_heartbeat. by rewrite Hr, He, Ha.
    + by rewrite (wdg_get_state_get _ _ _ Hr Hget).
  - intros k r r'. subst r r'.
    by apply checker_for_same, same_registry_enable.
Qed.

Lemma disabled_checker_is_frozen_witness :
  wdg_checker_tick no_calls 5000 (wdg_enable false demo_healthy)
  = (wdg_enable false demo_healthy, []).
Proof.
  apply (disabled_checker_is_frozen no_calls 5000
           (wdg_enable false demo_healthy)).
  reflexivity.
Defined.

(** C5 as stated fails for a tick that is running when the watchdog is
    disabled. Both entries of [demo_pair] have timed out at 250 ms, and the
    recovery action of slot 0 calls [wdg_enable (false)]. [mid] is the state
    when that call has returned: the watchdog is disabled, slot 1 is Idle and
    one timeout has been counted. The tick then goes on with [mid]: it
    completes slot 0 and evaluates slot 1, which ends Recovered with its
    recovery action invoked and a second timeout counted. *)
Lemma disable_during_tick_counterexample :
  let now := 250 in
  let mid := (run_calls (disable_in_window 0)
                (checker_detect now 0 (with_stats stats_check demo_pair)).1).1
  in
  let t := wdg_checker_tick disable_in_window now demo_pair in
  t.1 = (checker_for 7 disable_in_window now 1 (checker_complete 0 mid)).1
  /\ wdg_enabled mid = false
  /\ wdg_get_state 1 mid = WDG_STATE_IDLE
  /\ total_timeouts (wdg_stats mid) = 1
  /\ wdg_enabled t.1 = false
  /\ wdg_get_state 1 t.1 = WDG_STATE_RECOVERED
  /\ wdg_get_state 1 t.1 <> wdg_get_state 1 mid
  /\ total_timeouts (wdg_stats t.1) = 2
  /\ recoveries_for 1 t.2 = [InvokeDefault "B" 250].
Proof. by vm_compute. Qed.

(** C6. When [wdg_count] has reached [WDG_MAX_THREADS], [wdg_register]
    returns -1 and the state is unchanged. *)
Theorem register_full_fails now nm timeout cb s :
  WDG_MAX_THREADS <= wdg_count s ->
  wdg_register now nm timeout cb s = (-1, s).
Proof.
  intros Hfull. unfold wdg_register.
  by destruct (Z.leb_spec WDG_MAX_THREADS (wdg_count s)); [|lia].
Qed.

Lemma register_full_fails_witness :
  wdg_register 9 "extra" 100 None demo_full = (-1, demo_full).
Proof. apply register_full_fails. vm_compute. discriminate. Defined.

(** C7. [wdg_unregister] is idempotent; on a slot that is out of range or
    inactive, [wdg_unregister] and [wdg_heartbeat] return the state they were
    given; so a heartbeat after an unregistration does nothing. Slots are
    arbitrary integers, negative and past-capacity ones included, and both
    functions return nothing. *)
Theorem unregister_idempotent slot s :
  wdg_unregister slot (wdg_unregister slot s) = wdg_unregister slot s
  /\ (slot_active s slot = false ->
      wdg_unregister slot s = s /\ forall now, wdg_heartbeat now slot s = s)
  /\ (forall now,
        wdg_heartbeat now slot (wdg_unregister slot s)
        = wdg_unregister slot s).
Proof.
  pose proof (wdg_unregister_active slot s) as Hun. split_and!.
  - by apply wdg_unregister_inactive.
  - intros Hin. split; [by apply wdg_unregister_inactive|].
    intros now. by apply wdg_heartbeat_inactive.
  - intros now. by apply wdg_heartbeat_inactive.
Qed.

Lemma unregister_idempotent_witness :
  wdg_unregister (-3) demo_healthy = demo_healthy
  /\ forall now, wdg_heartbeat now (-3) demo_healthy = demo_healthy.
Proof.
  apply (proj1 (proj2 (unregister_idempotent (-3) demo_healthy))).
  reflexivity.
Defined.

(** [wdg_get_state] never changes the state. It returns Idle for an
    out-of-range slot and for a slot that was never allocated; for an
    in-range slot it returns the state field of the entry without looking at
    [active], also right after [wdg_unregister]. *)
Lemma get_state_invalid_slot slot s :
  (run_call (CallGetState slot) s).1 = s
  /\ (slot_out_of_range slot = true -> wdg_get_state slot s = WDG_STATE_IDLE)
  /\ (wdg_wf s -> wdg_count s <= slot ->
      wdg_get_state slot s = WDG_STATE_IDLE)
  /\ (forall e, slot_out_of_range slot = false ->
                table_get s slot = Some e ->
                wdg_get_state slot s = state e
                /\ wdg_get_state slot (wdg_unregister slot s) = state e).
Proof.
  split_and!; [done|by unfold wdg_get_state; intros ->| |].
  - intros Hwf Hge. unfold wdg_get_state.
    destruct (slot_out_of_range slot); [done|].
    destruct (table_get s slot) as [e|] eqn:He; [|done].
    apply wdg_wf_spec in Hwf as (_ & Hc & Hz).
    rewrite (Hz (Z.to_nat slot) e); [done|lia|done].
  - intros e Hr He. split; [by apply wdg_get_state_get|].
    rewrite (wdg_get_state_get slot _
               (if slot_active s slot then entry_retire e else e));
      [by destruct (slot_active s slot)|done|].
    by apply wdg_unregister_get_eq.
Qed.

Lemma get_state_invalid_slot_witness :
  wdg_get_state 8 demo_healthy = WDG_STATE_IDLE
  /\ wdg_get_state 5 demo_healthy = WDG_STATE_IDLE.
Proof.
  split.
  - apply (proj1 (proj2 (get_state_invalid_slot 8 demo_healthy))).
    reflexivity.
  - apply (proj1 (proj2 (proj2 (get_state_invalid_slot 5 demo_healthy)))).
    + reflexivity.
    + vm_compute. discriminate.
Defined.

(** C8 on the code, at the calls register ("sensor", 1000, NULL) at uptime
    0, heartbeat (0), unregister (0), get_state (0) made after [wdg_init].
    Slot 0 is then in range and inactive: [wdg_heartbeat] and
    [wdg_unregister] refuse it and change nothing, [wdg_get_healthy_count]
    and the report of [wdg_dump_status] pass it over. [wdg_get_state], which
    tests the range only, returns Healthy for it, where C8 says Idle. *)
Theorem get_state_unregistered_slot :
  let calls := [CallRegister 0 "sensor" 1000 None; CallHeartbeat 0 0;
                CallUnregister 0; CallGetState 0] in
  let r := run_calls calls wdg_init in
  r.1 = demo_retired
  /\ r.2 = [ObsCall (CallRegister 0 "sensor" 1000 None) (RetSlot 0);
            ObsCall (CallHeartbeat 0 0) RetVoid;
            ObsCall (CallUnregister 0) RetVoid;
            ObsCall (CallGetState 0) (RetState WDG_STATE_HEALTHY)]
  /\ slot_out_of_range 0 = false
  /\ slot_active r.1 0 = false
  /\ wdg_heartbeat 5 0 r.1 = r.1
  /\ wdg_unregister 0 r.1 = r.1
  /\ wdg_get_healthy_count r.1 = 0
  /\ (wdg_dump_status r.1).2 = []
  /\ wdg_get_state 0 r.1 = WDG_STATE_HEALTHY
  /\ wdg_get_state 0 r.1 <> WDG_STATE_IDLE.
Proof. by vm_compute. Qed.

(** C9. Along any sequence of operations from a well-formed state (calls
    made while the checker has released the mutex included), the slots
    returned by the successful registrations are [wdg_count], [wdg_count + 1],
    ... in this order: each is new, none is returned twice, and none is a
    slot allocated before. A slot allocated before keeps its name, timeout
    and callback for ever. [wdg_unregister] on an active slot writes
    [active = false] in that entry and nothing else, and does not change
    [wdg_count], so the slot is not given out again. *)
Theorem slots_never_reused os s :
  wdg_wf s ->
  let r := run_ops os s in
  registered_slots r.2 = seqZ (wdg_count s) (wdg_count r.1 - wdg_count s)
  /\ NoDup (registered_slots r.2)
  /\ (forall z, z ∈ registered_slots r.2 ->
                wdg_count s <= z < WDG_MAX_THREADS)
  /\ (forall i e, 0 <= i < wdg_count s -> table_get s i = Some e ->
        exists e', table_get r.1 i = Some e'
                   /\ name e' = name e
                   /\ timeout_ms e' = timeout_ms e
                   /\ recovery_cb e' = recovery_cb e)
  /\ (forall slot e, slot_active s slot = true -> table_get s slot = Some e ->
        wdg_unregister slot s
        = table_set slot
            (mk_wdg_entry false (name e) (timeout_ms e) (last_heartbeat e)
               (state e) (recovery_cb e) (heartbeat_count e)
               (timeout_count e) (recovery_count e)) s)
  /\ (forall slot, wdg_count (wdg_unregister slot s) = wdg_count s).
Proof.
  intros Hwf r. pose proof (run_ops_slots os s Hwf) as Hslots.
  pose proof (run_ops_steps os s) as Hsteps. fold r in Hslots, Hsteps.
  split_and!.
  - done.
  - rewrite Hslots. apply NoDup_seqZ.
  - intros z. rewrite Hslots, elem_of_seqZ.
    pose proof (wdg_steps_wf _ _ Hsteps Hwf) as (_ & Hc & _)%wdg_wf_spec.
    lia.
  - intros i e Hi He. by apply (wdg_steps_identity s).
  - intros slot e (Hr & e' & He' & Ha)%slot_active_spec He.
    unfold wdg_unregister. rewrite Hr, He'.
    assert (e' = e) as -> by congruence. by rewrite Ha.
  - intros slot. apply wdg_unregister_count.
Qed.

Lemma slots_never_reused_witness :
  registered_slots
    (run_ops [OpCall (CallUnregister 0);
              OpCall (CallRegister 5 "C" 300 None)] demo_pair).2
  = [2].
Proof.
  pose proof (slots_never_reused
                [OpCall (CallUnregister 0);
                 OpCall (CallRegister 5 "C" 300 None)] demo_pair) as H.
  destruct H as [H _]; [reflexivity|]. exact H.
Defined.

(** C10, as the code has it. The registry starts in, and every operation
    (API call or checker tick, with the calls made while the mutex is
    released) keeps, the invariant [wdg_inv]: the state is well formed, the
    per-entry counters are 32-bit values, and each of [total_heartbeats],
    [total_timeouts], [total_recoveries] equals the sum of the corresponding
    per-entry counter over all the slots of the table, active or not, reduced
    modulo 2^32. It also holds when the checker releases the mutex for a
    recovery action. In every reachable state the aggregates are therefore
    these sums modulo 2^32, and the sums themselves as long as the sums are
    below 2^32. *)
Theorem stats_follow_counters :
  wdg_inv wdg_init
  /\ (forall o s, wdg_inv s -> wdg_inv (run_op o s).1)
  /\ (forall now i s, wdg_inv s -> wdg_inv (checker_detect now i s).1)
  /\ (forall s, reachable s ->
        stats_consistent s
        /\ (table_sum heartbeat_count (wdg_table s) < 2 ^ 32 ->
            table_sum timeout_count (wdg_table s) < 2 ^ 32 ->
            table_sum recovery_count (wdg_table s) < 2 ^ 32 ->
            stats_exact s)).
Proof.
  split_and!.
  - apply wdg_init_inv.
  - intros o s. apply wdg_steps_inv, run_op_steps.
  - intros now i s. apply wdg_steps_inv, checker_detect_steps.
  - intros s Hs%reachable_inv. split; [apply Hs|].
    by apply wdg_inv_exact.
Qed.

Lemma stats_follow_counters_witness : stats_exact demo_healthy.
Proof.
  apply stats_follow_counters.
  - exists [OpCall (CallRegister 0 "sensor" 1000 None);
            OpCall (CallHeartbeat 0 0)]. reflexivity.
  - reflexivity.
  - reflexivity.
  - reflexivity.
Defined.

(** C10 as stated fails once a sum passes 2^32. [demo_wrap] is reachable
    (two registrations, 2^31 heartbeats for slot 0, 2^31 - 1 for slot 1) and
    its aggregates are the sums; one more heartbeat for slot 1 takes
    [total_heartbeats] from 2^32 - 1 to 0 while the per-entry counters sum
    to 2^32. *)
Lemma stats_exact_counterexample :
  reachable demo_wrap
  /\ stats_exact demo_wrap
  /\ total_heartbeats (wdg_stats (wdg_heartbeat 0 1 demo_wrap)) = 0
  /\ table_sum heartbeat_count (wdg_table (wdg_heartbeat 0 1 demo_wrap))
     = 4294967296
  /\ ~ stats_exact (wdg_heartbeat 0 1 demo_wrap).
Proof.
  split; [apply demo_wrap_reachable|].
  split_and!; [by vm_compute..|].
  intros [H _]. vm_compute in H. discriminate.
Qed.

(** * Further properties of watchdog.c *)

(** ** A property of one slot kept along an execution, checker included *)

Section SlotKeeps.
Variable i : Z.
Variable P : wdg_entry -> Prop.
Variable okc : api_call -> bool.
Variable okt : Z -> Prop.

Hypothesis K_beat :
  forall now e, okc (CallHeartbeat now i) = true -> P e -> active e = true ->
                P (entry_beat now e).
Hypothesis K_retire :
  forall e, okc (CallUnregister i) = true -> P e -> active e = true ->
            P (entry_retire e).
Hypothesis K_check :
  forall now e, okt now -> P e ->
                entry_recoveries now e = [] /\ P (entry_checked now e).

Lemma run_call_keeps c s :
  okc c = true -> slot_has i P s -> slot_has i P (run_call c s).1.
Proof.
  intros Hok Hs. pose proof Hs as (Hwf & Hi & e & He & HP).
  assert (Hact : slot_active s i = true -> active e = true).
  { intros (_ & e' & He' & Ha)%slot_active_spec. congruence. }
  destruct c as [now nm timeout cb|now slot|slot| | | |]; simpl; try done.
  - apply (slot_has_after i P P s _ e); auto using wdg_register_steps.
    by rewrite wdg_register_get.
  - destruct (decide (slot = i)) as [->|Hne].
    + apply (slot_has_after i P P s _
               (if slot_active s i then entry_beat now e else e));
        auto using wdg_heartbeat_steps, wdg_heartbeat_get_eq.
      destruct (slot_active s i); auto.
    + apply (slot_has_after i P P s _ e); auto using wdg_heartbeat_steps.
      rewrite wdg_heartbeat_get_ne; [done|lia|done].
  - destruct (decide (slot = i)) as [->|Hne].
    + apply (slot_has_after i P P s _
               (if slot_active s i then entry_retire e else e));
        auto using wdg_unregister_steps, wdg_unregister_get_eq.
      destruct (slot_active s i); auto.
    + apply (slot_has_after i P P s _ e); auto using wdg_unregister_steps.
      rewrite wdg_unregister_get_ne; [done|lia|done].
Qed.

Lemma run_calls_keeps cs s :
  Forall (fun c => okc c = true) cs -> slot_has i P s ->
  slot_has i P (run_calls cs s).1.
Proof.
  intros Hcs. revert s. induction Hcs as [|c cs Hc _ IH]; intros s Hs;
    simpl; [done|].
  apply IH. by apply run_call_keeps.
Qed.

Lemma checker_entry_keeps_ne win now j s :
  0 <= j < wdg_count s -> j <> i ->
  Forall (fun c => okc c = true) (win j) ->
  slot_has i P s ->
  slot_has i P (checker_entry win now j s).1
  /\ recoveries_for i (checker_entry win now j s).2 = [].
Proof.
  intros Hj Hne Hwin Hs. pose proof Hs as (Hwf & Hi & e & He & HP).
  assert (Hs1 : slot_has i P (checker_detect now j s).1).
  { apply (slot_has_after i P P s _ e); auto using checker_detect_steps.
    rewrite checker_detect_get_ne; [done|lia..|done]. }
  pose proof (checker_detect_steps now j s) as Hst.
  unfold checker_entry.
  destruct (checker_detect now j s) as [s1 [a|]]; cbn [fst snd] in *;
    [|done].
  pose proof (run_calls_keeps (win j) s1 Hwin Hs1) as Hs2.
  pose proof (run_calls_steps (win j) s1) as Hst2.
  rewrite recoveries_for_cons, run_calls_no_recovery.
  destruct (Z.eqb_spec j i); [done|]. split; [|done].
  pose proof Hs2 as (Hwf2 & Hi2 & e2 & He2 & HP2).
  apply (slot_has_after i P P (run_calls (win j) s1).1 _ e2); [done| |
                                                              |done].
  - apply checker_complete_steps.
    apply wdg_steps_count in Hst, Hst2. lia.
  - rewrite checker_complete_get_ne; [done|lia..|done].
Qed.

Lemma checker_entry_keeps_eq win now s :
  okt now -> slot_has i P s ->
  slot_has i P (checker_entry win now i s).1
  /\ recoveries_for i (checker_entry win now i s).2 = [].
Proof.
  intros Hnow Hs. pose proof Hs as (Hwf & Hi & e & He & HP).
  destruct (K_check now e Hnow HP) as [Hrec HP'].
  pose proof (checker_detect_steps now i s) as Hst.
  unfold checker_entry, entry_recoveries, entry_checked in *.
  rewrite (checker_detect_eq _ _ _ _ He) in *.
  destruct (entry_verdict now e) as [a| |]; simpl in *; [done| |done].
  split; [|done].
  apply (slot_has_after i P P s _ (entry_warning e) Hs Hst); [|done].
  by apply (table_get_set_eq _ _ e).
Qed.

Lemma checker_for_keeps fuel win now j s :
  0 <= j -> okt now ->
  (forall j, Forall (fun c => okc c = true) (win j)) ->
  slot_has i P s ->
  slot_has i P (checker_for fuel win now j s).1
  /\ recoveries_for i (checker_for fuel win now j s).2 = [].
Proof.
  intros Hj Hnow Hwin. revert j s Hj.
  induction fuel as [|fuel IH]; intros j s Hj Hs; [done|].
  rewrite checker_for_S.
  destruct (Z.ltb_spec j (wdg_count s)) as [Hlt|]; [|done].
  cbn [fst snd]. rewrite recoveries_for_app.
  destruct (decide (j = i)) as [->|Hne].
  - destruct (checker_entry_keeps_eq win now s Hnow Hs) as [Hs1 ->].
    simpl. apply IH; [lia|done].
  - destruct (checker_entry_keeps_ne win now j s) as [Hs1 ->]; auto.
    simpl. apply IH; [lia|done].
Qed.

Lemma run_op_keeps o s :
  op_ok okc okt o -> slot_has i P s ->
  slot_has i P (run_op o s).1 /\ recoveries_for i (run_op o s).2 = [].
Proof.
  intros Ho Hs. destruct o as [c|now win]; simpl in *.
  - split; [by apply run_call_keeps|done].
  - destruct Ho as [Hnow Hwin]. unfold wdg_checker_tick.
    destruct (wdg_enabled s); cbn [negb]; [|done].
    apply checker_for_keeps; [lia|done..|].
    destruct Hs as (Hwf & Hi & e & He & HP).
    unfold slot_has. split_and!; [done|simpl; lia..|by exists e].
Qed.

Lemma run_ops_keeps os s :
  Forall (op_ok okc okt) os -> slot_has i P s ->
  slot_has i P (run_ops os s).1 /\ recoveries_for i (run_ops os s).2 = [].
Proof.
  intros Hos. revert s. induction Hos as [|o os Ho _ IH]; intros s Hs;
    cbn [run_ops fst snd]; [done|].
  rewrite recoveries_for_app.
  destruct (run_op_keeps o s Ho Hs) as [Hs1 ->]. by apply IH.
Qed.
End SlotKeeps.

(** ** Invariants of the whole table, with their form inside the window *)

Lemma table_set_entry s slot e1 k e' :
  wdg_table (table_set slot e1 s) !! k = Some e' ->
  (k = Z.to_nat slot /\ e' = e1)
  \/ (k <> Z.to_nat slot /\ wdg_table s !! k = Some e').
Proof.
  simpl. intros [(-> & -> & _)|[? ?]]%list_lookup_insert_Some; auto.
Qed.

(** What an API call can do to the entry of any slot. *)
Lemma run_call_entry c s k e' :
  wdg_wf s -> wdg_table (run_call c s).1 !! k = Some e' ->
  exists e, wdg_table s !! k = Some e
            /\ timeout_count e' = timeout_count e
            /\ recovery_count e' = recovery_count e
            /\ (state e' = state e \/ state e' = WDG_STATE_HEALTHY).
Proof.
  intros Hwf.
  destruct c as [now nm timeout cb|now slot|slot| | | |]; simpl;
    try (intros He'; exists e'; by auto).
  - unfold wdg_register.
    destruct (Z.leb_spec WDG_MAX_THREADS (wdg_count s)) as [|Hroom]; simpl;
      [intros He'; exists e'; by auto|].
    intros [(<- & <- & Hlen)|[? He']]%list_lookup_insert_Some;
      [|exists e'; by auto].
    destruct (lookup_lt_is_Some_2 _ _ Hlen) as [e He].
    assert (e = zero_entry) as ->.
    { apply wdg_wf_spec in Hwf as (_ & _ & Hz). eapply Hz; [|exact He]. lia. }
    exists zero_entry. by auto.
  - unfold wdg_heartbeat. destruct (slot_out_of_range slot);
      [intros He'; exists e'; by auto|].
    destruct (table_get s slot) as [e|] eqn:He;
      [|intros He'; exists e'; by auto].
    destruct (active e); [|intros He'; exists e'; by auto].
    change (wdg_table (with_stats ?f ?s)) with (wdg_table s).
    intros [[-> ->]|[? He']]%table_set_entry; [|exists e'; by auto].
    exists e. by auto.
  - unfold wdg_unregister. destruct (slot_out_of_range slot);
      [intros He'; exists e'; by auto|].
    destruct (table_get s slot) as [e|] eqn:He;
      [|intros He'; exists e'; by auto].
    destruct (active e); [|intros He'; exists e'; by auto].
    intros [[-> ->]|[? He']]%table_set_entry; [|exists e'; by auto].
    exists e. by auto.
Qed.

Section TableInvariant.
Variable I : wdg -> Prop.
Variable W : Z -> wdg -> Prop.

Hypothesis I_call : forall c s, wdg_wf s -> I s -> I (run_call c s).1.
Hypothesis W_call :
  forall j c s, wdg_wf s -> 0 <= j < wdg_count s -> W j s ->
                W j (run_call c s).1.
Hypothesis I_detect :
  forall now j s, wdg_wf s -> 0 <= j < wdg_count s -> I s ->
    match (checker_detect now j s).2 with
    | Some _ => W j (checker_detect now j s).1
    | None => I (checker_detect now j s).1
    end.
Hypothesis W_complete :
  forall j s, wdg_wf s -> 0 <= j < wdg_count s -> W j s ->
              I (checker_complete j s).
Hypothesis I_check : forall s, I s -> I (with_stats stats_check s).

Lemma run_calls_window j cs s :
  wdg_wf s -> 0 <= j < wdg_count s -> W j s -> W j (run_calls cs s).1.
Proof.
  revert s. induction cs as [|c cs IH]; intros s Hwf Hj HW; simpl; [done|].
  pose proof (run_call_steps c s) as Hst.
  apply IH; [eauto using wdg_steps_wf| |by apply W_call].
  apply wdg_steps_count in Hst. lia.
Qed.

Lemma checker_entry_inv win now j s :
  wdg_wf s -> 0 <= j < wdg_count s -> I s ->
  I (checker_entry win now j s).1.
Proof.
  intros Hwf Hj HI. pose proof (I_detect now j s Hwf Hj HI) as Hd.
  pose proof (checker_detect_steps now j s) as Hst.
  unfold checker_entry.
  destruct (checker_detect now j s) as [s1 [a|]]; cbn [fst snd] in *;
    [|done].
  pose proof (run_calls_steps (win j) s1) as Hst2.
  pose proof (wdg_steps_count _ _ Hst). pose proof (wdg_steps_count _ _ Hst2).
  apply W_complete; [eauto using wdg_steps_wf|lia|].
  apply run_calls_window; [eauto using wdg_steps_wf|lia|done].
Qed.

Lemma checker_for_inv fuel win now j s :
  wdg_wf s -> 0 <= j -> I s -> I (checker_for fuel win now j s).1.
Proof.
  revert j s. induction fuel as [|fuel IH]; intros j s Hwf Hj HI; [done|].
  rewrite checker_for_S.
  destruct (Z.ltb_spec j (wdg_count s)); [|done]. cbn [fst].
  apply IH; [|lia|by apply checker_entry_inv].
  eapply wdg_steps_wf; [apply checker_entry_steps; lia|done].
Qed.

Lemma run_op_inv o s : wdg_wf s -> I s -> I (run_op o s).1.
Proof.
  intros Hwf HI. destruct o as [c|now win]; simpl; [by apply I_call|].
  unfold wdg_checker_tick. destruct (wdg_enabled s); cbn [negb]; [|done].
  apply checker_for_inv; [done|lia|by apply I_check].
Qed.

Lemma run_ops_inv os s : wdg_wf s -> I s -> I (run_ops os s).1.
Proof.
  revert s. induction os as [|o os IH]; intros s Hwf HI; simpl; [done|].
  apply IH; [|by apply run_op_inv].
  eapply wdg_steps_wf; [apply run_op_steps|done].
Qed.
End TableInvariant.

(** ** The names of the states *)

(** [wdg_get_state_name] gives the five states five different names, none of
    them "UNKNOWN", and gives "UNKNOWN" for every value that is not a
    state. *)
Theorem state_names_distinct :
  (forall a b, wdg_get_state_name (state_code a)
               = wdg_get_state_name (state_code b) -> a = b)
  /\ (forall a, wdg_get_state_name (state_code a) <> "UNKNOWN"%string)
  /\ (forall n, (5 <= n)%N -> wdg_get_state_name n = "UNKNOWN"%string)
  /\ (forall n, (n < 5)%N -> exists a, n = state_code a).
Proof.
  split_and!.
  - intros [] []; vm_compute; congruence.
  - intros []; vm_compute; congruence.
  - intros n Hn. unfold wdg_get_state_name.
    change (N.of_nat (length wdg_state_names)) with 5%N.
    by destruct (N.leb_spec 5 n); [|lia].
  - intros n Hn.
    destruct (decide (n = 0%N)) as [->|]; [by exists WDG_STATE_IDLE|].
    destruct (decide (n = 1%N)) as [->|]; [by exists WDG_STATE_HEALTHY|].
    destruct (decide (n = 2%N)) as [->|]; [by exists WDG_STATE_WARNING|].
    destruct (decide (n = 3%N)) as [->|];
      [by exists WDG_STATE_UNRESPONSIVE|].
    exists WDG_STATE_RECOVERED. simpl. lia.
Qed.

(** ** The status table and the healthy count *)

Lemma wdg_dump_status_rows s :
  wdg_dump_status s
  = (wdg_enabled s, wdg_stats s, status_rows_with (fun i => i) (allocated s)).
Proof. reflexivity. Qed.

Lemma status_rows_with_cons g x l :
  status_rows_with g (x :: l)
  = (if active x then [status_row_of (Z.of_nat (g 0%nat)) x] else [])
    ++ status_rows_with (g ∘ S) l.
Proof.
  unfold status_rows_with. rewrite imap_cons. simpl. by destruct (active x).
Qed.

Lemma status_rows_with_elem g l r :
  r ∈ status_rows_with g l
  <-> exists i e, l !! i = Some e /\ active e = true
                  /\ r = status_row_of (Z.of_nat (g i)) e.
Proof.
  unfold status_rows_with. rewrite list_elem_of_omap. split.
  - intros ([k e] & Hin & Hrow).
    apply elem_of_lookup_imap in Hin as (i & e' & [= -> ->] & He').
    simpl in Hrow. destruct (active e') eqn:Ha; [|done].
    exists i, e'. by simplify_eq.
  - intros (i & e & He & Ha & ->). exists (g i, e). split.
    + apply elem_of_lookup_imap. by exists i, e.
    + simpl. by rewrite Ha.
Qed.

Lemma status_rows_with_sorted g l :
  (forall i j, (i < j)%nat -> (g i < g j)%nat) ->
  StronglySorted Z.lt (row_slot <$> status_rows_with g l).
Proof.
  revert g. induction l as [|x l IH]; intros g Hg; [constructor|].
  rewrite status_rows_with_cons.
  assert (Htail : StronglySorted Z.lt
                    (row_slot <$> status_rows_with (g ∘ S) l)).
  { apply IH. intros i j Hij. simpl. apply Hg. lia. }
  destruct (active x); [|done]. simpl. constructor; [done|].
  apply Forall_fmap, Forall_forall. intros r Hr.
  apply status_rows_with_elem in Hr as (i & e & _ & _ & ->). simpl.
  pose proof (Hg 0%nat (S i) ltac:(lia)). lia.
Qed.

Lemma status_rows_with_healthy g l :
  length (filter (fun r => row_state r = WDG_STATE_HEALTHY)
            (status_rows_with g l))
  = length (filter is_healthy l).
Proof.
  revert g. induction l as [|x l IH]; intros g; [done|].
  rewrite status_rows_with_cons, filter_app, length_app, IH.
  destruct (decide (is_healthy x)) as [Hh|Hn].
  - rewrite (filter_cons_True is_healthy) by done.
    apply andb_true_iff in Hh as [-> Hst%state_eqb_eq].
    by rewrite filter_cons_True.
  - rewrite (filter_cons_False is_healthy) by done.
    destruct (active x) eqn:Ha; [|done].
    rewrite filter_cons_False; [done|]. simpl. intros Hst.
    apply Hn. unfold is_healthy. rewrite Ha, Hst. done.
Qed.

Lemma allocated_lookup s i e :
  allocated s !! i = Some e
  <-> (Z.of_nat i < wdg_count s) /\ wdg_table s !! i = Some e.
Proof. unfold allocated. rewrite lookup_take_Some. split; intros []; split; auto; lia. Qed.

(** The status table lists exactly the allocated slots whose entry is
    active, each once and in increasing slot order, with the fields of the
    entry. *)
Theorem dump_status_rows s :
  let rows := (wdg_dump_status s).2 in
  (forall r, r ∈ rows <->
     0 <= row_slot r < wdg_count s
     /\ exists e, table_get s (row_slot r) = Some e /\ active e = true
                  /\ r = status_row_of (row_slot r) e)
  /\ StronglySorted Z.lt (row_slot <$> rows)
  /\ NoDup (row_slot <$> rows).
Proof.
  intros rows. unfold rows. rewrite wdg_dump_status_rows. cbn [snd].
  assert (Hsorted : StronglySorted Z.lt
            (row_slot <$> status_rows_with (fun i => i) (allocated s)))
    by (apply status_rows_with_sorted; lia).
  split_and!; [|done|].
  - intros r. rewrite status_rows_with_elem. unfold table_get. split.
    + intros (i & e & [Hi He]%allocated_lookup & Ha & ->). simpl.
      split; [lia|]. exists e. by rewrite Nat2Z.id.
    + intros (Hr & e & He & Ha & Hre). exists (Z.to_nat (row_slot r)), e.
      rewrite allocated_lookup, Z2Nat.id by lia. by split_and!; [lia|..].
  - clear -Hsorted.
    induction Hsorted as [|z zs _ IH Hlt]; constructor; [|done].
    intros Hin. rewrite Forall_forall in Hlt. specialize (Hlt z Hin). lia.
Qed.

(** [wdg_get_healthy_count] is the number of rows of the status table in
    state Healthy; it is between 0 and the number of rows. *)
Theorem healthy_count_matches_dump s :
  let rows := (wdg_dump_status s).2 in
  wdg_get_healthy_count s
  = Z.of_nat (length (filter (fun r => row_state r = WDG_STATE_HEALTHY) rows))
  /\ 0 <= wdg_get_healthy_count s <= Z.of_nat (length rows).
Proof.
  intros rows. unfold rows. rewrite wdg_dump_status_rows. cbn [snd].
  assert (Heq : wdg_get_healthy_count s
                = Z.of_nat (length (filter (fun r => row_state r = WDG_STATE_HEALTHY)
                     (status_rows_with (fun i => i) (allocated s))))).
  { by rewrite status_rows_with_healthy. }
  split; [done|]. rewrite Heq.
  pose proof (length_filter (fun r => row_state r = WDG_STATE_HEALTHY)
                (status_rows_with (fun i => i) (allocated s))).
  lia.
Qed.

Lemma filter_insert_length (P : wdg_entry -> Prop) `{!forall e, Decision (P e)}
    (l : list wdg_entry) k x y :
  l !! k = Some x ->
  (length (filter P (<[k:=y]> l)) + (if decide (P x) then 1 else 0)
   = length (filter P l) + (if decide (P y) then 1 else 0))%nat.
Proof.
  revert k. induction l as [|z l IH]; intros [|k] Hk; simplify_eq/=.
  - rewrite !filter_cons. repeat case_decide; simpl; lia.
  - specialize (IH k Hk). rewrite !filter_cons.
    destruct (decide (P z)); simpl; lia.
Qed.

Lemma healthy_count_table_set s slot e e' :
  wdg_wf s -> table_get s slot = Some e -> active e = true ->
  wdg_get_healthy_count (table_set slot e' s)
  + (if decide (is_healthy e) then 1 else 0)
  = wdg_get_healthy_count s + (if decide (is_healthy e') then 1 else 0).
Proof.
  intros Hwf He Ha. unfold wdg_get_healthy_count, allocated. simpl.
  pose proof (wf_active_allocated _ _ _ Hwf He Ha) as Hlt.
  rewrite take_insert_lt by done.
  assert (Htake : take (Z.to_nat (wdg_count s)) (wdg_table s)
                  !! Z.to_nat slot = Some e)
    by by rewrite lookup_take_lt.
  pose proof (filter_insert_length is_healthy _ _ _ e' Htake) as Hlen.
  fold is_healthy.
  destruct (decide (is_healthy e)), (decide (is_healthy e')); lia.
Qed.

(** How the healthy count moves in a well-formed state: a heartbeat for an
    active slot raises it by one unless the entry was already Healthy, an
    unregistration lowers it by one when the entry was Healthy, a
    registration leaves it as it is (the new entry is Idle), and it never
    exceeds [wdg_count]. *)
Theorem healthy_count_moves s :
  wdg_wf s ->
  (forall now slot e,
     slot_active s slot = true -> table_get s slot = Some e ->
     wdg_get_healthy_count (wdg_heartbeat now slot s)
     = wdg_get_healthy_count s
       + (if wdg_thread_state_eqb (state e) WDG_STATE_HEALTHY then 0 else 1))
  /\ (forall slot e,
        slot_active s slot = true -> table_get s slot = Some e ->
        wdg_get_healthy_count (wdg_unregister slot s)
        = wdg_get_healthy_count s
          - (if wdg_thread_state_eqb (state e) WDG_STATE_HEALTHY
             then 1 else 0))
  /\ (forall now nm timeout cb,
        wdg_get_healthy_count (wdg_register now nm timeout cb s).2
        = wdg_get_healthy_count s)
  /\ 0 <= wdg_get_healthy_count s <= wdg_count s.
Proof.
  intros Hwf.
  assert (Hh : forall e, active e = true ->
             (if decide (is_healthy e) then 1 else 0)
             = if wdg_thread_state_eqb (state e) WDG_STATE_HEALTHY
               then 1 else 0).
  { intros e Ha. unfold is_healthy. rewrite Ha. simpl.
    destruct (wdg_thread_state_eqb _ _); by case_decide. }
  assert (Hb : 0 <= wdg_get_healthy_count s <= wdg_count s).
  { unfold wdg_get_healthy_count, allocated.
    pose proof (length_filter is_healthy
                  (take (Z.to_nat (wdg_count s)) (wdg_table s))) as Hle.
    rewrite length_take in Hle. fold is_healthy.
    pose proof Hwf as (_ & Hc & _)%wdg_wf_spec. lia. }
  split_and!; [| | |lia..].
  - intros now slot e Hact He.
    pose proof Hact as (Hr & e0 & He0 & Ha)%slot_active_spec.
    assert (e0 = e) as -> by congruence.
    unfold wdg_heartbeat. rewrite Hr, He, Ha.
    change (wdg_get_healthy_count (with_stats ?f ?s0))
      with (wdg_get_healthy_count s0).
    pose proof (healthy_count_table_set s slot e (entry_beat now e) Hwf He Ha)
      as Heq.
    rewrite (Hh e Ha) in Heq. rewrite (Hh (entry_beat now e) Ha) in Heq.
    simpl in Heq. destruct (wdg_thread_state_eqb (state e) _); lia.
  - intros slot e Hact He.
    pose proof Hact as (Hr & e0 & He0 & Ha)%slot_active_spec.
    assert (e0 = e) as -> by congruence.
    unfold wdg_unregister. rewrite Hr, He, Ha.
    pose proof (healthy_count_table_set s slot e (entry_retire e) Hwf He Ha)
      as Heq.
    rewrite (Hh e Ha) in Heq.
    assert ((if decide (is_healthy (entry_retire e)) then 1 else 0) = 0)
      as Hz by (unfold is_healthy; simpl; by case_decide).
    rewrite Hz in Heq. destruct (wdg_thread_state_eqb (state e) _); lia.
  - intros now nm timeout cb. unfold wdg_register.
    destruct (Z.leb_spec WDG_MAX_THREADS (wdg_count s)) as [|Hroom];
      [done|].
    pose proof Hwf as (Hlen & Hc & _)%wdg_wf_spec.
    unfold wdg_get_healthy_count, allocated. simpl.
    replace (Z.to_nat (wdg_count s + 1)) with (S (Z.to_nat (wdg_count s)))
      by lia.
    erewrite take_S_r;
      [|apply list_lookup_insert_eq; unfold WDG_MAX_THREADS in *; lia].
    rewrite take_insert_ge by lia.
    rewrite filter_app, length_app. simpl. lia.
Qed.

Lemma healthy_count_moves_witness :
  wdg_get_healthy_count (wdg_heartbeat 3 0 demo_registered) = 1
  /\ wdg_get_healthy_count (wdg_unregister 0 demo_healthy) = 0.
Proof.
  split.
  - apply (proj1 (healthy_count_moves demo_registered eq_refl) 3 0
             (mk_wdg_entry true "sensor" 1000 0 WDG_STATE_IDLE None 0 0 0));
      reflexivity.
  - apply (proj1 (proj2 (healthy_count_moves demo_healthy eq_refl)) 0
             (mk_wdg_entry true "sensor" 1000 0 WDG_STATE_HEALTHY None 1 0 0));
      reflexivity.
Defined.

(** ** Capacity *)

(** Once the table is full it stays full: whatever happens afterwards,
    unregistrations included, [wdg_register] returns -1 and changes
    nothing. *)
Theorem capacity_never_regained os now nm timeout cb s :
  wdg_wf s -> wdg_count s = WDG_MAX_THREADS ->
  let s' := (run_ops os s).1 in
  wdg_register now nm timeout cb s' = (-1, s')
  /\ wdg_count s' = WDG_MAX_THREADS.
Proof.
  intros Hwf Hfull s'.
  pose proof (run_ops_steps os s) as Hst. fold s' in Hst.
  pose proof (wdg_steps_count _ _ Hst) as Hmono.
  pose proof (wdg_steps_wf _ _ Hst Hwf) as (_ & Hc & _)%wdg_wf_spec.
  split; [|lia]. unfold wdg_register.
  by destruct (Z.leb_spec WDG_MAX_THREADS (wdg_count s')); [|lia].
Qed.

Lemma capacity_never_regained_witness :
  wdg_register 50 "late" 100 None
    (run_ops [OpCall (CallUnregister 3)] demo_full).1
  = (-1, (run_ops [OpCall (CallUnregister 3)] demo_full).1).
Proof.
  apply (capacity_never_regained [OpCall (CallUnregister 3)] 50 "late" 100
           None demo_full); reflexivity.
Defined.

(** ** The tick counter *)

Lemma run_call_checks c s :
  checks_performed (wdg_stats (run_call c s).1)
  = checks_performed (wdg_stats s).
Proof.
  destruct c as [now nm timeout cb|now slot|slot| | | |]; simpl; try done.
  - unfold wdg_register. by destruct (_ <=? _).
  - unfold wdg_heartbeat. destruct (slot_out_of_range slot); [done|].
    destruct (table_get s slot) as [e|]; [|done]. by destruct (active e).
  - unfold wdg_unregister. destruct (slot_out_of_range slot); [done|].
    destruct (table_get s slot) as [e|]; [|done]. by destruct (active e).
Qed.

Lemma run_calls_checks cs s :
  checks_performed (wdg_stats (run_calls cs s).1)
  = checks_performed (wdg_stats s).
Proof.
  revert s. induction cs as [|c cs IH]; intros s; simpl; [done|].
  by rewrite IH, run_call_checks.
Qed.

Lemma checker_entry_checks win now i s :
  checks_performed (wdg_stats (checker_entry win now i s).1)
  = checks_performed (wdg_stats s).
Proof.
  unfold checker_entry, checker_detect, checker_complete.
  destruct (table_get s i) as [e|]; [|done].
  repeat match goal with
         | |- context [if ?b then _ else _] => destruct b
         end; cbn [fst snd]; try done.
  destruct (table_get _ i); simpl; by rewrite run_calls_checks.
Qed.

Lemma checker_for_checks fuel win now i s :
  checks_performed (wdg_stats (checker_for fuel win now i s).1)
  = checks_performed (wdg_stats s).
Proof.
  revert i s. induction fuel as [|fuel IH]; intros i s; [done|].
  rewrite checker_for_S. destruct (i <? wdg_count s); [|done]. cbn [fst].
  by rewrite IH, checker_entry_checks.
Qed.

Lemma enabled_ticks_nonneg os s : 0 <= enabled_ticks os s.
Proof.
  revert s. induction os as [|o os IH]; intros s; simpl; [lia|].
  specialize (IH (run_op o s).1).
  destruct o; [lia|]. destruct (wdg_enabled s); lia.
Qed.

(** [checks_performed] counts the ticks that found the watchdog enabled, as
    a [uint32_t]: a tick while disabled and an API call never change it. *)
Theorem checks_count_enabled_ticks os s :
  0 <= checks_performed (wdg_stats s) < 2 ^ 32 ->
  checks_performed (wdg_stats (run_ops os s).1)
  = u32 (checks_performed (wdg_stats s) + enabled_ticks os s).
Proof.
  revert s. induction os as [|o os IH]; intros s Hr; cbn [run_ops fst].
  - simpl. by rewrite Z.add_0_r, u32_small.
  - cbn [enabled_ticks].
    assert (Hstep : checks_performed (wdg_stats (run_op o s).1)
              = u32 (checks_performed (wdg_stats s)
                     + match o with
                       | OpTick _ _ => if wdg_enabled s then 1 else 0
                       | OpCall _ => 0
                       end)).
    { destruct o as [c|now win]; simpl.
      - by rewrite run_call_checks, Z.add_0_r, u32_small.
      - unfold wdg_checker_tick. destruct (wdg_enabled s); cbn [negb].
        + by rewrite checker_for_checks.
        + by rewrite Z.add_0_r, u32_small. }
    rewrite IH by (rewrite Hstep; apply u32_range).
    rewrite Hstep, u32_add_l. f_equal. lia.
Qed.

Lemma checks_count_enabled_ticks_witness :
  checks_performed
    (wdg_stats
       (run_ops [OpTick 10 no_calls; OpCall (CallEnable false);
                 OpTick 20 no_calls; OpCall (CallEnable true);
                 OpTick 30 no_calls] demo_healthy).1)
  = 2.
Proof.
  apply (checks_count_enabled_ticks
           [OpTick 10 no_calls; OpCall (CallEnable false);
            OpTick 20 no_calls; OpCall (CallEnable true);
            OpTick 30 no_calls] demo_healthy).
  vm_compute. split; [discriminate|reflexivity].
Defined.

(** ** Retired entries *)

(** An unregistered entry is out of the game for good: along any sequence of
    operations (heartbeats and unregistrations of its slot included), it is
    never written again, it is never active again, and no recovery action is
    invoked for its slot. *)
Theorem retired_entry_is_frozen os i s e :
  wdg_wf s -> 0 <= i < wdg_count s -> table_get s i = Some e ->
  active e = false ->
  let r := run_ops os s in
  table_get r.1 i = Some e
  /\ slot_active r.1 i = false
  /\ recoveries_for i r.2 = [].
Proof.
  intros Hwf Hi He Ha r.
  destruct (run_ops_keeps i (eq e) (fun _ => true) (fun _ => True)) with
    (os := os) (s := s) as [(_ & _ & ? & He' & <-) Hrec].
  - intros now ? _ <- Hact. congruence.
  - intros ? _ <- Hact. congruence.
  - intros now ? _ <-. unfold entry_recoveries, entry_checked, entry_verdict.
    by rewrite Ha.
  - apply Forall_forall. intros [c|now win] _; simpl; [done|].
    split; [done|]. intros j. by apply Forall_true.
  - split_and!; eauto; lia.
  - fold r in He', Hrec. split_and!; [done| |done].
    unfold slot_active. by rewrite He', Ha, andb_false_r.
Qed.

Lemma retired_entry_is_frozen_witness :
  table_get
    (run_ops [OpCall (CallHeartbeat 5 0); OpTick 5000 no_calls] demo_retired).1
    0
  = Some (mk_wdg_entry false "sensor" 1000 0 WDG_STATE_HEALTHY None 1 0 0).
Proof.
  apply (retired_entry_is_frozen
           [OpCall (CallHeartbeat 5 0); OpTick 5000 no_calls] 0 demo_retired);
    [reflexivity|vm_compute; split; [discriminate|reflexivity]
    |reflexivity|reflexivity].
Defined.

(** ** Heartbeats in time *)

Lemma entry_in_time now x last :
  (active x = true -> last_heartbeat x = last) ->
  now - last <= timeout_ms x ->
  entry_recoveries now x = []
  /\ (entry_checked now x = x \/ entry_checked now x = entry_warning x).
Proof.
  intros Hl Hle. unfold entry_recoveries, entry_checked, entry_verdict.
  destruct (active x); simpl; [|by auto]. rewrite (Hl eq_refl).
  destruct (Z.gtb_spec (now - last) (timeout_ms x)); [lia|].
  destruct (_ >? _); [|by auto].
  destruct (wdg_thread_state_eqb _ _); by auto.
Qed.

(** An entry whose heartbeats keep coming in time is never timed out: if
    every tick comes at most [timeout_ms] after the latest heartbeat for the
    slot, no recovery action is invoked for it, and its [timeout_count] and
    [recovery_count] do not move. *)
Theorem timely_heartbeats_prevent_recovery os i s e :
  wdg_wf s -> 0 <= i < wdg_count s -> table_get s i = Some e ->
  timely i (timeout_ms e) (last_heartbeat e) os ->
  let r := run_ops os s in
  recoveries_for i r.2 = []
  /\ exists e', table_get r.1 i = Some e'
                /\ timeout_count e' = timeout_count e
                /\ recovery_count e' = recovery_count e.
Proof.
  intros Hwf Hi He Hos r. subst r.
  set (P last (x : wdg_entry) :=
         timeout_ms x = timeout_ms e
         /\ timeout_count x = timeout_count e
         /\ recovery_count x = recovery_count e
         /\ (active x = true -> last_heartbeat x = last)).
  assert (Hs : slot_has i (P (last_heartbeat e)) s).
  { split_and!; [done|lia..|]. exists e. by split_and!. }
  assert (Hgoal : recoveries_for i (run_ops os s).2 = []
                  /\ exists last, slot_has i (P last) (run_ops os s).1).
  { clear He Hwf Hi. revert Hos Hs. generalize (last_heartbeat e) as last.
    revert s. induction os as [|o os IH]; intros s last Hos Hs.
    { split; [done|]. by exists last. }
    cbn [run_ops fst snd]. rewrite recoveries_for_app.
    assert (Hstep : exists last',
              slot_has i (P last') (run_op o s).1
              /\ recoveries_for i (run_op o s).2 = []
              /\ timely i (timeout_ms e) last' os).
    { destruct o as [c|now win].
      - destruct (decide (beats i c = true)) as [Hb|Hb].
        + destruct c as [|t slot| | | | |]; try discriminate.
          simpl in Hb. apply Z.eqb_eq in Hb as ->.
          simpl in Hos. rewrite Z.eqb_refl in Hos.
          exists t. split_and!; [|done..].
          pose proof Hs as (Hwf & Hi & x & Hx & Ht & Htc & Hrc & Hl).
          apply (slot_has_after i (P last) (P t) s _
                   (if slot_active s i then entry_beat t x else x));
            [done|apply wdg_heartbeat_steps|by apply wdg_heartbeat_get_eq|].
          destruct (slot_active s i) eqn:Hact; [by split_and!|].
          split_and!; try done. intros Hax.
          unfold slot_active in Hact. rewrite Hx, Hax, andb_true_r in Hact.
          apply negb_false_iff in Hact.
          assert (slot_out_of_range i = false); [|congruence].
          apply slot_in_range.
          pose proof Hwf as (_ & ? & _)%wdg_wf_spec. lia.
        + exists last.
          assert (Hos' : timely i (timeout_ms e) last os).
          { destruct c as [|t slot| | | | |]; try done. simpl in *.
            destruct (slot =? i); [done|done]. }
          split_and!; [|done..].
          apply (run_call_keeps i (P last) (no_beat i)); [| |by
            unfold no_beat; destruct (beats i c)|done].
          * intros t x Hok. unfold no_beat in Hok. simpl in Hok.
            by rewrite Z.eqb_refl in Hok.
          * intros x _ (? & ? & ? & ?) _. by split_and!.
      - exists last. destruct Hos as (Hnow & Hwin & Hos').
        destruct (run_op_keeps i (P last) (no_beat i)
                    (fun t => t - last <= timeout_ms e)) with
          (o := OpTick now win) (s := s) as [Hs1 Hrec]; try done.
        + intros t x Hok. unfold no_beat in Hok. simpl in Hok.
          by rewrite Z.eqb_refl in Hok.
        + intros x _ (? & ? & ? & ?) _. by split_and!.
        + intros t x Ht (HT & Htc & Hrc & Hl).
          destruct (entry_in_time t x last Hl) as [-> [-> | ->]];
            [lia|by split_and!..]. }
    destruct Hstep as (last' & Hs1 & -> & Hos').
    by apply (IH _ last'). }
  destruct Hgoal as [Hrec (last & _ & _ & e' & He' & _ & Htc & Hrc & _)].
  split; [done|]. by exists e'.
Qed.

Lemma timely_heartbeats_prevent_recovery_witness :
  recoveries_for 0
    (run_ops [OpTick 900 no_calls; OpCall (CallHeartbeat 950 0);
              OpTick 1900 no_calls] demo_healthy).2
  = [].
Proof.
  apply (timely_heartbeats_prevent_recovery
           [OpTick 900 no_calls; OpCall (CallHeartbeat 950 0);
            OpTick 1900 no_calls] 0 demo_healthy
           (mk_wdg_entry true "sensor" 1000 0 WDG_STATE_HEALTHY None 1 0 0));
    [reflexivity|vm_compute; split; [discriminate|reflexivity]
    |reflexivity|].
  simpl. split_and!; try (vm_compute; discriminate); try done;
    intros j; constructor.
Defined.

(** ** A new episode *)

(** A heartbeat starts a new episode whatever the state of the entry,
    Recovered included: the entry is Healthy again, and a later tick with
    more than [timeout_ms] elapsed since that heartbeat invokes the recovery
    action once more, with the time elapsed since that heartbeat. *)
Theorem heartbeat_rearms_recovery win t now i s e :
  wdg_wf s -> 0 <= i < wdg_count s -> table_get s i = Some e ->
  active e = true -> wdg_enabled s = true ->
  timeout_ms e < now - t ->
  (forall j, Forall (fun c => quiet i c = true) (win j)) ->
  let s1 := wdg_heartbeat t i s in
  let r := wdg_checker_tick win now s1 in
  wdg_get_state i s1 = WDG_STATE_HEALTHY
  /\ recoveries_for i r.2
     = [match recovery_cb e with
        | Some cb => InvokeCallback cb (name e) (u32 (now - t))
        | None => InvokeDefault (name e) (u32 (now - t))
        end]
  /\ exists e', table_get r.1 i = Some e'
                /\ state e' = WDG_STATE_RECOVERED
                /\ timeout_count e' = u32 (timeout_count e + 1)
                /\ recovery_count e' = u32 (recovery_count e + 1).
Proof.
  intros Hwf Hi He Ha Hen Hlate Hq s1 r.
  assert (Hact : slot_active s i = true).
  { unfold slot_active. rewrite He, Ha, andb_true_r.
    apply negb_true_iff, slot_in_range.
    pose proof Hwf as (_ & ? & _)%wdg_wf_spec. lia. }
  assert (Hs1 : slot_has i (eq (entry_beat t e)) s1).
  { apply (slot_has_after i (eq e) _ s _ (entry_beat t e));
      [split_and!; eauto; lia|apply wdg_heartbeat_steps| |done].
    unfold s1. by rewrite (wdg_heartbeat_get_eq _ _ _ _ He), Hact. }
  assert (Hen1 : wdg_enabled s1 = true)
    by (unfold s1; by rewrite wdg_heartbeat_enabled).
  destruct (wdg_checker_tick_get i _ win now s1 Hen1 Hq Hs1) as [Hr1 Hr2].
  fold r in Hr1, Hr2.
  assert (Hv : entry_verdict now (entry_beat t e)
               = Expired (recovery_of now (entry_beat t e)))
    by by apply entry_verdict_expired.
  unfold entry_checked, entry_recoveries in *. rewrite Hv in *.
  split_and!.
  - by rewrite (slot_has_get_state i _ _ Hs1).
  - rewrite Hr2. unfold recovery_of. simpl. by destruct (recovery_cb e).
  - destruct Hr1 as (_ & _ & e' & He' & <-). eexists. split; [exact He'|].
    by split_and!.
Qed.

Lemma heartbeat_rearms_recovery_witness :
  recoveries_for 0
    (wdg_checker_tick no_calls 3000
       (wdg_heartbeat 1500 0
          (wdg_checker_tick no_calls 1200 demo_registered).1)).2
  = [InvokeDefault "sensor" 1500].
Proof.
  apply (heartbeat_rearms_recovery no_calls 1500 3000 0
           (wdg_checker_tick no_calls 1200 demo_registered).1
           (mk_wdg_entry true "sensor" 1000 0 WDG_STATE_RECOVERED None 0 1 1));
    [reflexivity|vm_compute; split; [discriminate|reflexivity]
    |reflexivity|reflexivity|reflexivity|reflexivity|intros j; constructor].
Defined.

(** ** Timeouts and recoveries go together *)

Lemma timeouts_matched_run_ops os s :
  wdg_wf s -> timeouts_matched s -> timeouts_matched (run_ops os s).1.
Proof.
  apply (run_ops_inv timeouts_matched timeouts_pending).
  - intros c s0 Hwf [Ht Hall]. destruct (run_call_totals c s0) as [Htt Htr].
    split; [congruence|]. apply Forall_lookup. intros k e' He'.
    destruct (run_call_entry c s0 k e' Hwf He') as (e & He & -> & -> & _).
    by apply (Forall_lookup_1 _ _ _ _ Hall He).
  - intros j c s0 Hwf Hj [Ht Hall].
    destruct (run_call_totals c s0) as [Htt Htr].
    split; [congruence|]. intros k e' He'.
    destruct (run_call_entry c s0 k e' Hwf He') as (e & He & -> & -> & _).
    by apply Hall.
  - intros now j s0 Hwf Hj [Ht Hall].
    destruct (wf_lookup s0 j Hwf) as [e He].
    { pose proof Hwf as (_ & ? & _)%wdg_wf_spec. lia. }
    rewrite (checker_detect_eq _ _ _ _ He).
    destruct (entry_verdict now e); cbn [fst snd].
    + split; [simpl; congruence|]. intros k e' He'.
      change (wdg_table (with_stats ?f ?s)) with (wdg_table s) in He'.
      apply table_set_entry in He' as [[-> ->]|[Hk He']].
      * rewrite decide_True by done. simpl.
        by rewrite (Forall_lookup_1 _ _ _ _ Hall He).
      * rewrite decide_False by done.
        by apply (Forall_lookup_1 _ _ _ _ Hall He').
    + split; [done|]. apply Forall_insert; [done|]. simpl.
      by apply (Forall_lookup_1 _ _ _ _ Hall He).
    + done.
  - intros j s0 Hwf Hj [Ht Hall]. unfold checker_complete.
    destruct (wf_lookup s0 j Hwf) as [e He].
    { pose proof Hwf as (_ & ? & _)%wdg_wf_spec. lia. }
    rewrite He. split; [simpl; congruence|].
    change (wdg_table (with_stats ?f ?s)) with (wdg_table s).
    apply Forall_lookup. intros k e' He'.
    apply table_set_entry in He' as [[-> ->]|[Hk He']].
    + simpl. specialize (Hall _ _ He). by rewrite decide_True in Hall.
    + specialize (Hall _ _ He'). by rewrite decide_False in Hall.
  - by intros s0 [? ?].
Qed.

(** Between operations every timeout has had its recovery: in every state
    the program reaches, [total_timeouts] equals [total_recoveries] and each
    entry's [timeout_count] equals its [recovery_count]. *)
Theorem timeouts_matched_by_recoveries os :
  let s := (run_ops os wdg_init).1 in
  total_timeouts (wdg_stats s) = total_recoveries (wdg_stats s)
  /\ forall slot e, table_get s slot = Some e ->
                    timeout_count e = recovery_count e.
Proof.
  intros s.
  destruct (timeouts_matched_run_ops os wdg_init) as [Ht Hall];
    [done| |].
  - split; [done|]. by apply Forall_replicate.
  - split; [done|]. intros slot e He.
    by apply (Forall_lookup_1 _ _ _ _ Hall He).
Qed.

(** ** Unresponsive is a transient state *)

Lemma none_unresponsive_run_ops os s :
  wdg_wf s -> none_unresponsive s -> none_unresponsive (run_ops os s).1.
Proof.
  apply (run_ops_inv none_unresponsive none_unresponsive_but).
  - intros c s0 Hwf Hall. apply Forall_lookup. intros k e' He'.
    destruct (run_call_entry c s0 k e' Hwf He')
      as (e & He & _ & _ & [-> | ->]); [|done].
    by apply (Forall_lookup_1 _ _ _ _ Hall He).
  - intros j c s0 Hwf Hj Hall k e' He' Hk.
    destruct (run_call_entry c s0 k e' Hwf He')
      as (e & He & _ & _ & [-> | ->]); [|done].
    by apply (Hall k).
  - intros now j s0 Hwf Hj Hall.
    destruct (wf_lookup s0 j Hwf) as [e He].
    { pose proof Hwf as (_ & ? & _)%wdg_wf_spec. lia. }
    rewrite (checker_detect_eq _ _ _ _ He).
    destruct (entry_verdict now e); cbn [fst snd].
    + intros k e' He' Hk.
      change (wdg_table (with_stats ?f ?s)) with (wdg_table s) in He'.
      apply table_set_entry in He' as [[-> ->]|[_ He']]; [done|].
      by apply (Forall_lookup_1 _ _ _ _ Hall He').
    + by apply Forall_insert.
    + done.
  - intros j s0 Hwf Hj Hall. unfold checker_complete.
    destruct (wf_lookup s0 j Hwf) as [e He].
    { pose proof Hwf as (_ & ? & _)%wdg_wf_spec. lia. }
    rewrite He. apply Forall_lookup. intros k e' He'.
    change (wdg_table (with_stats ?f ?s)) with (wdg_table s) in He'.
    apply table_set_entry in He' as [[-> ->]|[Hk He']]; [done|].
    by apply (Hall k).
  - done.
Qed.

(** Between operations no entry is Unresponsive: the checker replaces
    Unresponsive by Recovered before it ends its tick, so [wdg_get_state]
    can return Unresponsive only to a caller that runs while a recovery
    action does, and no row of the status table printed between operations
    shows it. *)
Theorem unresponsive_is_transient os slot :
  let s := (run_ops os wdg_init).1 in
  wdg_get_state slot s <> WDG_STATE_UNRESPONSIVE
  /\ forall r, r ∈ (wdg_dump_status s).2 ->
               row_state r <> WDG_STATE_UNRESPONSIVE.
Proof.
  intros s.
  assert (Hall : none_unresponsive s).
  { apply none_unresponsive_run_ops; [done|]. by apply Forall_replicate. }
  split.
  - unfold wdg_get_state. destruct (slot_out_of_range slot); [done|].
    destruct (table_get s slot) as [e|] eqn:He; [|done].
    by apply (Forall_lookup_1 _ _ _ _ Hall He).
  - intros r Hr. rewrite wdg_dump_status_rows in Hr. cbn [snd] in Hr.
    apply status_rows_with_elem in Hr as (i & e & He & _ & ->). simpl.
    apply allocated_lookup in He as [_ He].
    by apply (Forall_lookup_1 _ _ _ _ Hall He).
Qed.

(** ** The warning threshold for very long timeouts *)

(** [timeout_ms * 3] is computed in 32 bits. For a timeout above
    1431655765 ms the product wraps, and the threshold the checker compares
    with is at least 2^30 ms below 75% of the timeout: a Healthy entry past
    that lower threshold and not past its timeout becomes Warning. *)
Theorem warning_threshold_wraps win now i s e :
  wdg_wf s -> 0 <= i < wdg_count s -> table_get s i = Some e ->
  active e = true -> wdg_enabled s = true ->
  state e = WDG_STATE_HEALTHY ->
  timeout_ms e < 2 ^ 32 -> 2 ^ 32 <= timeout_ms e * 3 ->
  (forall j, Forall (fun c => quiet i c = true) (win j)) ->
  let threshold := u32 (timeout_ms e * 3) / 4 in
  4 * (threshold + 2 ^ 30) <= 3 * timeout_ms e
  /\ (threshold < now - last_heartbeat e <= timeout_ms e ->
      wdg_get_state i (wdg_checker_tick win now s).1 = WDG_STATE_WARNING).
Proof.
  intros Hwf Hi He Ha Hen Hst Hmax Hwrap Hq threshold. split.
  - unfold threshold, u32.
    pose proof (Z.mul_div_le ((timeout_ms e * 3) mod 2 ^ 32) 4 ltac:(lia)).
    assert ((timeout_ms e * 3) mod 2 ^ 32 <= timeout_ms e * 3 - 2 ^ 32);
      [|lia].
    rewrite (Z.mod_eq _ (2 ^ 32)) by lia.
    assert (1 <= timeout_ms e * 3 / 2 ^ 32); [|lia].
    apply Z.div_le_lower_bound; lia.
  - intros [Hlo Hhi].
    assert (Hs : slot_has i (eq e) s) by (split_and!; eauto; lia).
    destruct (wdg_checker_tick_get i e win now s Hen Hq Hs) as [Ht1 _].
    rewrite (slot_has_get_state i _ _ Ht1).
    unfold entry_checked, entry_verdict. rewrite Ha, Hst. simpl.
    destruct (Z.gtb_spec (now - last_heartbeat e) (timeout_ms e)); [lia|].
    fold threshold.
    by destruct (Z.gtb_spec (now - last_heartbeat e) threshold); [|lia].
Qed.

(** An entry with a timeout of 2^31 ms, Healthy since time 0. *)
Lemma warning_threshold_wraps_witness :
  wdg_get_state 0
    (wdg_checker_tick no_calls 536870913
       (wdg_heartbeat 0 0
          (wdg_register 0 "slow" 2147483648 None wdg_init).2)).1
  = WDG_STATE_WARNING.
Proof.
  apply (warning_threshold_wraps no_calls 536870913 0
           (wdg_heartbeat 0 0
              (wdg_register 0 "slow" 2147483648 None wdg_init).2)
           (mk_wdg_entry true "slow" 2147483648 0 WDG_STATE_HEALTHY None
              1 0 0));
    [reflexivity|vm_compute; split; [discriminate|reflexivity]
    |reflexivity|reflexivity|reflexivity|reflexivity|reflexivity
    |vm_compute; discriminate|intros j; constructor
    |vm_compute; split; [reflexivity|discriminate]].
Defined.

(** * Properties of the last elements of a list *)

Lemma last_n_drop {A} (n k : nat) (l : list A) :
  (n + k <= length l)%nat -> last_n n (drop k l) = last_n n l.
Proof.
  intros H. unfold last_n. rewrite drop_drop, length_drop. f_equal. lia.
Qed.

Lemma last_n_all {A} (n : nat) (l : list A) :
  (length l <= n)%nat -> last_n n l = l.
Proof.
  intros H. unfold last_n.
  by replace (length l - n)%nat with 0%nat by lia.
Qed.

Lemma last_n_snoc_full {A} (n : nat) (l : list A) x :
  (0 < n)%nat -> length l = n -> last_n n (l ++ [x]) = drop 1 l ++ [x].
Proof.
  intros Hn <-. unfold last_n. rewrite length_app. cbn [length].
  replace (length l + 1 - length l)%nat with 1%nat by lia.
  destruct l; [cbn [length] in Hn; lia|done].
Qed.

Lemma last_n_snoc_room {A} (n : nat) (l : list A) x :
  (length l < n)%nat -> last_n n (l ++ [x]) = l ++ [x].
Proof.
  intros H. unfold last_n. rewrite length_app. cbn [length].
  by replace (length l + 1 - n)%nat with 0%nat by lia.
Qed.

(** * Properties of logger.c *)

Module LoggerFacts.
Import Logger.

Ltac ring_arith :=
  unfold log_idx, log_start, LOG_BUF_ENTRIES in *;
  cbn [head count entries next_seq] in *;
  Z.to_euclidean_division_equations; lia.

Lemma log_from_lookup b from (i : nat) :
  log_from b from !! i
  = if decide (Z.of_nat i < count b - from)
    then Some (log_at b (from + Z.of_nat i)) else None.
Proof.
  unfold log_from. rewrite list_lookup_fmap.
  case_decide as H.
  - by rewrite lookup_seqZ_lt.
  - rewrite lookup_seqZ_ge; [done|lia].
Qed.

Lemma log_from_length b from :
  length (log_from b from) = Z.to_nat (count b - from).
Proof. unfold log_from. by rewrite length_fmap, length_seqZ. Qed.

Lemma log_view_length g :
  length (log_view g) = Z.to_nat (count (log_buf g)).
Proof. unfold log_view. rewrite log_from_length. f_equal. lia. Qed.

Lemma log_from_drop b (from : Z) :
  0 <= from -> log_from b from = drop (Z.to_nat from) (log_from b 0).
Proof.
  intros Hf. apply list_eq. intros i.
  rewrite lookup_drop, !log_from_lookup.
  repeat case_decide; try lia; try done.
  do 2 f_equal. lia.
Qed.

(** ** Well-formed states *)

Lemma log_zero_wf : log_wf log_zero.
Proof.
  unfold log_wf, log_zero; cbn. split_and!; (reflexivity || lia || done).
Qed.

Lemma shrike_log_wf now lvl m text g :
  log_wf g -> log_wf (shrike_log now lvl m text g).
Proof.
  intros (Hlen & Hh & Hc & Hs & Hp & Hm).
  unfold shrike_log. destruct (lvl <? log_min_level g)%N; [done|].
  unfold log_wf, LOG_BUF_ENTRIES in *.
  cbn [log_buf log_st log_min_level entries head count next_seq per_level].
  assert (Hp' : length (if (lvl <? LOG_LVL_COUNT)%N
                        then alter u32_incr (N.to_nat lvl)
                               (per_level (log_st g))
                        else per_level (log_st g))
                = N.to_nat LOG_LVL_COUNT).
  { destruct (lvl <? LOG_LVL_COUNT)%N; [by rewrite length_alter|done]. }
  pose proof (u32_range (next_seq (log_buf g) + 1)).
  rewrite length_insert. unfold u32_incr.
  destruct (Z.ltb_spec (count (log_buf g)) 64);
    split_and!; try done; try lia; Z.to_euclidean_division_equations; lia.
Qed.

Lemma run_log_call_wf c g : log_wf g -> log_wf (run_log_call c g).
Proof.
  intros Hwf. destruct c; cbn [run_log_call]; try done.
  - by apply shrike_log_wf.
  - unfold shrike_log_set_level.
    destruct (N.ltb_spec min LOG_LVL_COUNT); [|done].
    destruct Hwf as (? & ? & ? & ? & ? & ?). unfold log_wf in *.
    cbn [log_buf log_st log_min_level]. split_and!; try done; lia.
  - destruct Hwf as (? & ? & ? & ? & ? & ?).
    unfold log_wf, LOG_BUF_ENTRIES in *.
    cbn [shrike_log_clear log_buf log_st log_min_level entries head count
         next_seq].
    split_and!; try done; lia.
Qed.

Lemma run_log_calls_cons c cs g :
  run_log_calls (c :: cs) g = run_log_calls cs (run_log_call c g).
Proof. reflexivity. Qed.

Lemma run_log_calls_wf cs g : log_wf g -> log_wf (run_log_calls cs g).
Proof.
  revert g. induction cs as [|c cs IH]; intros g Hwf; [done|].
  apply IH. by apply run_log_call_wf.
Qed.

(** ** The ring *)

(** One accepted message: it goes to the end of the buffered entries, and
    the oldest one leaves when the buffer is full. *)
Lemma log_view_push now lvl m text g :
  log_wf g -> (lvl <? log_min_level g)%N = false ->
  log_view (shrike_log now lvl m text g)
  = (if count (log_buf g) <? LOG_BUF_ENTRIES then log_view g
     else drop 1 (log_view g))
    ++ [new_entry now lvl m text (next_seq (log_buf g))].
Proof.
  intros (Hlen & Hh & Hc & _) Hacc.
  unfold shrike_log. rewrite Hacc.
  set (e := new_entry _ _ _ _ _).
  unfold log_view. cbn [log_buf].
  set (b' := mk_log_buffer _ _ _ _).
  apply list_eq. intros i.
  rewrite log_from_lookup.
  pose proof (Z.ltb_spec (count (log_buf g)) LOG_BUF_ENTRIES) as Hroom0.
  assert (Hat : forall j, 0 <= j -> log_idx b' j <> head (log_buf g) ->
            log_at b' j
            = default zero_log_entry
                (entries (log_buf g) !! Z.to_nat (log_idx b' j))).
  { intros j Hj Hne. unfold log_at. subst b'. cbn [entries].
    rewrite list_lookup_insert_ne; [done|].
    intros Heq. apply Hne. revert Heq.
    destruct Hroom0; ring_arith. }
  assert (Hnew : forall j, 0 <= j -> log_idx b' j = head (log_buf g) ->
            log_at b' j = e).
  { intros j Hj Heq. unfold log_at. rewrite Heq. subst b'. cbn [entries].
    rewrite list_lookup_insert_eq; [done|].
    unfold LOG_BUF_ENTRIES in *. lia. }
  destruct (Z.ltb_spec (count (log_buf g)) LOG_BUF_ENTRIES) as [Hroom|Hfull].
  - destruct (decide (i < length (log_from (log_buf g) 0))%nat) as [Hi|Hi].
    + rewrite lookup_app_l by done. rewrite log_from_lookup.
      rewrite log_from_length in Hi.
      subst b'. cbn [count]. rewrite !decide_True by lia.
      f_equal. rewrite Hat.
      * unfold log_at. do 3 f_equal. ring_arith.
      * lia.
      * ring_arith.
    + rewrite lookup_app_r by lia. rewrite log_from_length in *.
      destruct (decide (i = Z.to_nat (count (log_buf g) - 0))) as [->|Hne].
      * rewrite Nat.sub_diag. cbn [lookup list_lookup].
        subst b'; cbn [count]. rewrite decide_True by lia.
        f_equal. apply Hnew; [lia|]. ring_arith.
      * subst b'; cbn [count]. rewrite decide_False by lia.
        symmetry. apply lookup_ge_None_2. cbn [length]. lia.
  - assert (Hc64 : count (log_buf g) = 64)
      by (unfold LOG_BUF_ENTRIES in *; lia).
    destruct (decide (i < 63)%nat) as [Hi|Hi].
    + rewrite lookup_app_l by (rewrite length_drop, log_from_length; lia).
      rewrite lookup_drop, log_from_lookup.
      subst b'. cbn [count]. rewrite !decide_True by lia.
      f_equal. rewrite Hat.
      * unfold log_at. do 3 f_equal. ring_arith.
      * lia.
      * ring_arith.
    + rewrite lookup_app_r by (rewrite length_drop, log_from_length; lia).
      rewrite length_drop, log_from_length.
      destruct (decide (i = 63)%nat) as [->|Hne].
      * rewrite Hc64. change (63 - (Z.to_nat (64 - 0) - 1))%nat with 0%nat.
        cbn [lookup list_lookup].
        subst b'; cbn [count]. rewrite decide_True by lia.
        f_equal. apply Hnew; [lia|]. ring_arith.
      * subst b'; cbn [count]. rewrite decide_False by lia.
        symmetry. apply lookup_ge_None_2. cbn [length]. lia.
Qed.

Lemma log_view_calls cs g :
  log_wf g -> no_clear cs ->
  log_view (run_log_calls cs g)
  = last_n (Z.to_nat LOG_BUF_ENTRIES)
      (log_view g ++ written cs (log_min_level g) (next_seq (log_buf g))).
Proof.
  revert g. induction cs as [|c cs IH]; intros g Hwf Hnc.
  - cbn. rewrite app_nil_r, last_n_all; [done|].
    rewrite log_view_length. destruct Hwf as (_ & _ & ? & _). lia.
  - apply Forall_cons in Hnc as [Hc Hnc].
    rewrite run_log_calls_cons, IH by (try apply run_log_call_wf; done).
    destruct c; cbn [run_log_call written]; try done.
    + destruct (lvl <? log_min_level g)%N eqn:Hacc.
      { unfold shrike_log. by rewrite Hacc. }
      rewrite log_view_push by done.
      assert (log_min_level (shrike_log now lvl mod_name text g)
              = log_min_level g) as ->.
      { unfold shrike_log. by rewrite Hacc. }
      assert (next_seq (log_buf (shrike_log now lvl mod_name text g))
              = u32_incr (next_seq (log_buf g))) as ->.
      { unfold shrike_log. by rewrite Hacc. }
      set (e := new_entry _ _ _ _ _). set (W := written _ _ _).
      destruct (Z.ltb_spec (count (log_buf g)) LOG_BUF_ENTRIES)
        as [Hroom|Hfull].
      * by rewrite <- app_assoc.
      * rewrite <- app_assoc. cbn [app].
        assert (Hl : length (log_view g) = 64%nat).
        { rewrite log_view_length. destruct Hwf as (_ & _ & ? & _).
          unfold LOG_BUF_ENTRIES in *. lia. }
        rewrite <- (last_n_drop _ 1 (log_view g ++ e :: W)).
        -- f_equal. by destruct (log_view g).
        -- rewrite length_app, Hl. cbn [length].
           unfold LOG_BUF_ENTRIES. lia.
    + unfold shrike_log_set_level.
      by destruct (min <? LOG_LVL_COUNT)%N.
Qed.

(** The buffer holds the latest 64 messages that passed the filter, oldest
    first: after any calls other than [shrike_log_clear], the entries the
    query loops visit are the last 64 of the entries buffered before
    followed by the entries written since, each message filtered by the
    level in force when it was written. After [shrike_log_clear] they are
    the last 64 of the entries written since alone. *)
Theorem ring_keeps_latest cs g :
  log_wf g -> no_clear cs ->
  let w := written cs (log_min_level g) (next_seq (log_buf g)) in
  log_view (run_log_calls cs g)
  = last_n (Z.to_nat LOG_BUF_ENTRIES) (log_view g ++ w)
  /\ log_view (run_log_calls cs (shrike_log_clear g))
     = last_n (Z.to_nat LOG_BUF_ENTRIES) w.
Proof.
  intros Hwf Hnc w. split; [by apply log_view_calls|].
  by rewrite log_view_calls
    by (try apply (run_log_call_wf LogClear); done).
Qed.

(** Seventy messages into the empty buffer: the last 64 remain. *)
Lemma ring_keeps_latest_witness :
  log_view (run_log_calls demo_writes log_zero)
  = last_n 64 (written demo_writes LOG_LVL_DEBUG 0).
Proof.
  apply (ring_keeps_latest demo_writes log_zero).
  - unfold log_wf. vm_compute. split_and!; (reflexivity || discriminate).
  - apply Forall_replicate. discriminate.
Defined.

(** ** Sequence numbers *)






(** ** Statistics *)

Lemma sum_alter_incr (l : list Z) (i : nat) :
  (i < length l)%nat ->
  u32 (foldr Z.add 0 (alter u32_incr i l)) = u32 (foldr Z.add 0 l + 1).
Proof.
  revert i. induction l as [|x l IH]; intros i Hi; cbn [length] in Hi; [lia|].
  destruct i as [|i]; cbn [alter list_alter foldr].
  - unfold u32_incr. rewrite u32_add_l. f_equal. lia.
  - rewrite <- u32_add_r, IH by lia. rewrite u32_add_r. f_equal. lia.
Qed.

Lemma totals_push now lvl m text g :
  log_wf g -> (lvl < LOG_LVL_COUNT)%N ->
  total_messages (log_st g) = u32 (per_level_total (log_st g)) ->
  total_messages (log_st (shrike_log now lvl m text g))
  = u32 (per_level_total (log_st (shrike_log now lvl m text g))).
Proof.
  intros Hwf Hv Hinv. unfold shrike_log.
  destruct (lvl <? log_min_level g)%N; [done|].
  cbn [log_st total_messages]. unfold per_level_total. cbn [per_level].
  destruct (N.ltb_spec lvl LOG_LVL_COUNT); [|lia].
  destruct Hwf as (_ & _ & _ & _ & Hp & _).
  rewrite sum_alter_incr by (rewrite Hp; lia).
  rewrite Hinv. unfold u32_incr. by rewrite u32_add_l.
Qed.

Lemma totals_calls cs g :
  log_wf g -> valid_levels cs ->
  total_messages (log_st g) = u32 (per_level_total (log_st g)) ->
  let g' := run_log_calls cs g in
  total_messages (log_st g') = u32 (per_level_total (log_st g')).
Proof.
  revert g. induction cs as [|c cs IH]; intros g Hwf Hv Hinv; [done|].
  apply Forall_cons in Hv as [Hc Hv].
  cbn zeta. rewrite run_log_calls_cons.
  apply IH; [by apply run_log_call_wf|done|].
  destruct c; cbn [run_log_call]; try done.
  - by apply totals_push.
  - unfold shrike_log_set_level. by destruct (min <? LOG_LVL_COUNT)%N.
Qed.

(** As long as every message is written at one of the four levels,
    [total_messages] is the sum of the four [per_level] counters, modulo
    2^32. *)
Theorem total_is_sum_of_levels cs :
  valid_levels cs ->
  let st := log_st (run_log_calls cs log_zero) in
  total_messages st = u32 (per_level_total st).
Proof.
  intros Hv. by apply totals_calls; [apply log_zero_wf| |].
Qed.

Lemma total_is_sum_of_levels_witness :
  total_messages (log_st (run_log_calls demo_mixed log_zero))
  = u32 (per_level_total (log_st (run_log_calls demo_mixed log_zero))).
Proof.
  apply (total_is_sum_of_levels demo_mixed).
  unfold valid_levels, demo_mixed. repeat constructor.
Defined.

Lemma dropped_push now lvl m text g :
  log_wf g -> drop_inv g -> drop_inv (shrike_log now lvl m text g).
Proof.
  intros (_ & _ & Hc & _) [Hinv Hd]. unfold shrike_log.
  destruct (lvl <? log_min_level g)%N; [done|].
  unfold drop_inv.
  cbn [log_st log_buf total_messages dropped_messages count].
  rewrite Hinv. unfold u32_incr. rewrite u32_add_l.
  destruct (Z.ltb_spec (count (log_buf g)) LOG_BUF_ENTRIES).
  - split; [f_equal; lia|]. intros Hne. apply Hd in Hne. lia.
  - split; [|lia]. rewrite u32_add_r. f_equal. lia.
Qed.

Lemma dropped_calls cs g :
  log_wf g -> no_clear cs -> drop_inv g -> drop_inv (run_log_calls cs g).
Proof.
  revert g. induction cs as [|c cs IH]; intros g Hwf Hnc Hinv; [done|].
  apply Forall_cons in Hnc as [Hc Hnc].
  rewrite run_log_calls_cons. apply IH; [by apply run_log_call_wf|done|].
  destruct c; cbn [run_log_call]; try done.
  - by apply dropped_push.
  - unfold shrike_log_set_level. by destruct (min <? LOG_LVL_COUNT)%N.
Qed.

(** Until the first [shrike_log_clear], every message written is either
    still buffered or counted as dropped: [total_messages] is
    [count + dropped_messages] modulo 2^32, and nothing is dropped before
    the buffer holds 64 entries. *)
Theorem written_is_buffered_or_dropped cs :
  no_clear cs ->
  let g := run_log_calls cs log_zero in
  total_messages (log_st g)
  = u32 (count (log_buf g) + dropped_messages (log_st g))
  /\ (dropped_messages (log_st g) <> 0
      -> count (log_buf g) = LOG_BUF_ENTRIES).
Proof.
  intros Hnc. by apply dropped_calls; [apply log_zero_wf| |].
Qed.

(** Seventy messages: 64 buffered, 6 dropped. *)
Lemma written_is_buffered_or_dropped_witness :
  total_messages (log_st (run_log_calls demo_writes log_zero))
  = u32 (count (log_buf (run_log_calls demo_writes log_zero))
         + dropped_messages (log_st (run_log_calls demo_writes log_zero))).
Proof.
  apply (written_is_buffered_or_dropped demo_writes).
  apply Forall_replicate. discriminate.
Defined.

(** ** The queries *)

Lemma dump_last_lines n g :
  log_wf g ->
  (shrike_log_dump_last n g).2.2
  = print_entry <$> last_n (Z.to_nat n) (log_view g).
Proof.
  intros (_ & _ & Hc & _).
  unfold shrike_log_dump_last. cbn [snd fst].
  pose proof (log_view_length g) as Hl.
  set (c := count (log_buf g)) in *.
  f_equal. unfold last_n. rewrite Hl. unfold log_view.
  destruct (Z.ltb_spec n c) as [Hn|Hn].
  - destruct (decide (0 <= n)) as [H0|H0].
    + rewrite log_from_drop by lia. f_equal. lia.
    + unfold log_from at 1. fold c. rewrite seqZ_nil by lia.
      cbn [fmap list_fmap].
      symmetry. apply drop_ge. fold (log_view g). lia.
  - rewrite Z.sub_diag.
    by replace (Z.to_nat c - Z.to_nat n)%nat with 0%nat by lia.
Qed.

(** [shrike_log_dump_last n] prints the last [n] buffered entries, oldest
    first: all of them when [n] is the count or more, none when [n] is zero
    or negative; the number in its header is the number of lines unless [n]
    is negative. The bounds on [n] are those of an [int] for which
    [log_buf.count - to_show] does not overflow. *)
Theorem dump_last_shows_latest n g :
  log_wf g -> - 2 ^ 31 + LOG_BUF_ENTRIES < n < 2 ^ 31 ->
  let r := (shrike_log_dump_last n g).2 in
  r.2 = print_entry <$> last_n (Z.to_nat n) (log_view g)
  /\ Z.of_nat (length r.2) = Z.max 0 (Z.min n (count (log_buf g)))
  /\ (0 <= n -> Z.of_nat (length r.2) = r.1).
Proof.
  intros Hwf _. cbn zeta. rewrite dump_last_lines by done.
  destruct Hwf as (_ & _ & Hc & _).
  pose proof (log_view_length g) as Hl.
  split; [done|].
  rewrite length_fmap. unfold last_n. rewrite length_drop, Hl.
  unfold shrike_log_dump_last. cbn [snd fst].
  destruct (Z.ltb_spec n (count (log_buf g))); split; lia.
Qed.

Lemma dump_last_shows_latest_witness :
  (shrike_log_dump_last 3 (run_log_calls demo_writes log_zero)).2.2
  = print_entry
      <$> last_n 3 (log_view (run_log_calls demo_writes log_zero)).
Proof.
  apply (dump_last_shows_latest 3 (run_log_calls demo_writes log_zero)).
  - unfold log_wf. vm_compute. split_and!; (reflexivity || discriminate).
  - vm_compute. split; reflexivity.
Defined.

Lemma search_loop_spec keyword max_results found es :
  search_loop keyword max_results found es
  = (take (Z.to_nat (max_results - found))
       (filter (fun e => entry_matches keyword e = true) es),
     found + Z.of_nat (length
       (take (Z.to_nat (max_results - found))
          (filter (fun e => entry_matches keyword e = true) es)))).
Proof.
  revert found. induction es as [|e es IH]; intros found.
  - cbn. rewrite take_nil. cbn. f_equal. lia.
  - cbn [search_loop].
    destruct (Z.ltb_spec found max_results) as [Hlt|Hge].
    + destruct (entry_matches keyword e) eqn:Hm.
      * rewrite filter_cons_True by done. rewrite IH. cbn [fst snd].
        replace (Z.to_nat (max_results - found))
          with (S (Z.to_nat (max_results - (found + 1)))) by lia.
        cbn [take length]. f_equal. lia.
      * rewrite filter_cons_False by (rewrite Hm; done). apply IH.
    + replace (Z.to_nat (max_results - found)) with 0%nat by lia.
      rewrite take_0. cbn [length]. f_equal. lia.
Qed.

Lemma strstr_spec hay needle :
  strstr hay needle = true
  <-> exists n, substring n (String.length needle) hay = needle.
Proof.
  unfold strstr. destruct (index 0 needle hay) as [n|] eqn:Hi.
  - split; [intros _|done]. exists n. by apply index_correct1 in Hi.
  - split; [done|]. intros [n Hn].
    destruct needle as [|c needle].
    + apply index_correct4 in Hi. exfalso. lia.
    + exfalso. eapply (index_correct3 0 n); [exact Hi|done|lia|exact Hn].
Qed.

Lemma search_lines keyword max_results g :
  (shrike_log_search keyword max_results g).2
  = (print_entry
       <$> take (Z.to_nat max_results)
             (filter (fun e => entry_matches keyword e = true)
                (log_view g)),
     Z.of_nat (length
       (take (Z.to_nat max_results)
          (filter (fun e => entry_matches keyword e = true)
             (log_view g))))).
Proof.
  unfold shrike_log_search. cbn [snd fst].
  rewrite search_loop_spec. cbn [fst snd]. by rewrite Z.sub_0_r.
Qed.

(** [shrike_log_search] prints the first [max_results] buffered entries
    that match, oldest first, and returns their number (nothing and 0 when
    [max_results] is zero or negative). An entry matches when the keyword
    occurs as a contiguous substring of its message or of its module name;
    the empty keyword matches every entry. *)
Theorem search_finds_first_matches keyword max_results g :
  let r := (shrike_log_search keyword max_results g).2 in
  r.1 = print_entry
          <$> take (Z.to_nat max_results)
                (filter (fun e => entry_matches keyword e = true)
                   (log_view g))
  /\ r.2 = Z.of_nat (length r.1)
  /\ (forall e, entry_matches keyword e = true <->
        exists n,
          substring n (String.length keyword) (message e) = keyword
          \/ substring n (String.length keyword) (module e) = keyword)
  /\ (forall e, entry_matches "" e = true).
Proof.
  cbn zeta. rewrite search_lines. cbn [fst snd].
  split_and!; [done|by rewrite length_fmap| |].
  - intros e. unfold entry_matches. rewrite orb_true_iff, !strstr_spec.
    split.
    + intros [[n H]|[n H]]; exists n; [by left|by right].
    + intros [n [H|H]]; [left|right]; by exists n.
  - intros e. unfold entry_matches. apply orb_true_iff. left.
    apply strstr_spec. exists 0%nat. by destruct (message e).
Qed.

Lemma filter_level_split (m : N) (l : list log_entry) :
  length (filter (fun e => ~ (level e < m)%N) l)
  = (length (filter (fun e => ~ (level e < m + 1)%N) l)
     + length (filter (fun e => level e = m) l))%nat.
Proof.
  induction l as [|x l IH]; [done|].
  rewrite !filter_cons. repeat case_decide; cbn [length]; lia.
Qed.

Lemma filter_level_all (l : list log_entry) :
  filter (fun e => ~ (level e < 0)%N) l = l.
Proof.
  induction l as [|x l IH]; [done|].
  rewrite filter_cons. case_decide; [by rewrite IH|lia].
Qed.

Lemma filter_level_top (l : list log_entry) :
  Forall (fun e => (level e < LOG_LVL_COUNT)%N) l ->
  filter (fun e => ~ (level e < LOG_LVL_ERROR)%N) l
  = filter (fun e => level e = LOG_LVL_ERROR) l.
Proof.
  induction 1 as [|x l Hx _ IH]; [done|].
  rewrite !filter_cons, IH. unfold LOG_LVL_COUNT, LOG_LVL_ERROR in *.
  repeat case_decide; (done || lia).
Qed.

(** [shrike_log_dump] and [shrike_log_count_by_level] agree, for a filter
    that is one of the four levels: the header reads the name of the filter
    inside [log_level_names]; the dump at [LOG_LVL_DEBUG] shows every
    buffered entry; raising the filter from a level to the next level (when
    there is one) removes exactly the entries counted at that level; and the
    dump at [LOG_LVL_ERROR], the last level, shows exactly the entries
    counted at that level when every buffered entry has one of the four
    levels. *)
Theorem dump_counts_by_level min_level g :
  log_wf g ->
  (min_level < LOG_LVL_COUNT)%N ->
  let shown m := (shrike_log_dump m g).2.2.1 in
  let header m := (shrike_log_dump m g).2.2.2 in
  is_Some (hdr_filter (header min_level))
  /\ hdr_count (header min_level) = count (log_buf g)
  /\ hdr_entries (header min_level) = LOG_BUF_ENTRIES
  /\ hdr_filter (header LOG_LVL_DEBUG) = Some "DEBUG"%string
  /\ shown LOG_LVL_DEBUG = count (log_buf g)
  /\ 0 <= shrike_log_count_by_level min_level g <= shown min_level
  /\ ((min_level + 1 < LOG_LVL_COUNT)%N ->
      is_Some (hdr_filter (header (min_level + 1)%N))
      /\ shown min_level
         = shown (min_level + 1)%N
           + shrike_log_count_by_level min_level g)
  /\ (levels_ok g ->
      shown LOG_LVL_ERROR = shrike_log_count_by_level LOG_LVL_ERROR g).
Proof.
  intros (_ & _ & Hc & _) Hlvl. cbn zeta.
  unfold shrike_log_dump, shrike_log_count_by_level.
  cbn [snd fst hdr_filter hdr_count hdr_entries].
  fold (log_view g). pose proof (log_view_length g) as Hl.
  pose proof (filter_level_split min_level (log_view g)) as Hs.
  assert (Hname : forall m, (m < LOG_LVL_COUNT)%N ->
                            is_Some (log_level_names !! N.to_nat m)).
  { intros m Hm. apply lookup_lt_is_Some. cbn [length log_level_names].
    unfold LOG_LVL_COUNT in Hm. lia. }
  split_and!; try done; try lia.
  - by apply Hname.
  - unfold LOG_LVL_DEBUG. rewrite filter_level_all. lia.
  - intros Hnext. split; [by apply Hname|lia].
  - intros Hok. by rewrite (filter_level_top _ Hok).
Qed.

Lemma dump_counts_by_level_witness :
  (shrike_log_dump LOG_LVL_DEBUG (run_log_calls demo_mixed log_zero)).2.2.1
  = count (log_buf (run_log_calls demo_mixed log_zero)).
Proof.
  apply (dump_counts_by_level LOG_LVL_WARN
           (run_log_calls demo_mixed log_zero)).
  - unfold log_wf. vm_compute. split_and!; (reflexivity || discriminate).
  - reflexivity.
Defined.

(** ** Array reads *)

Lemma levels_ok_push now lvl m text g :
  log_wf g -> (lvl < LOG_LVL_COUNT)%N -> levels_ok g ->
  levels_ok (shrike_log now lvl m text g).
Proof.
  intros Hwf Hv Hok.
  destruct (lvl <? log_min_level g)%N eqn:Hacc.
  { unfold shrike_log. by rewrite Hacc. }
  unfold levels_ok. rewrite log_view_push by done.
  apply Forall_app. split.
  - destruct (_ <? _); [done|]. by apply Forall_drop.
  - by apply Forall_singleton.
Qed.

Lemma levels_ok_calls cs g :
  log_wf g -> valid_levels cs -> levels_ok g ->
  levels_ok (run_log_calls cs g).
Proof.
  revert g. induction cs as [|c cs IH]; intros g Hwf Hv Hok; [done|].
  apply Forall_cons in Hv as [Hc Hv].
  rewrite run_log_calls_cons. apply IH; [by apply run_log_call_wf|done|].
  destruct c; cbn [run_log_call]; try done.
  - by apply levels_ok_push.
  - unfold shrike_log_set_level. by destruct (min <? LOG_LVL_COUNT)%N.
  - apply Forall_nil_2.
Qed.

Lemma tag_defined e :
  (level e < LOG_LVL_COUNT)%N -> is_Some (line_tag (print_entry e)).
Proof.
  intros H. cbn [line_tag print_entry]. apply lookup_lt_is_Some.
  cbn [length log_level_tags]. unfold LOG_LVL_COUNT in H. lia.
Qed.

(** As long as every message is written at one of the four levels, every
    line the three printing queries print reads its tag inside
    [log_level_tags]. *)
Theorem printed_tags_in_bounds cs min_level n keyword max_results :
  valid_levels cs -> - 2 ^ 31 + LOG_BUF_ENTRIES < n < 2 ^ 31 ->
  let g := run_log_calls cs log_zero in
  let ok := Forall (fun ln => is_Some (line_tag ln)) in
  ok (shrike_log_dump min_level g).2.1
  /\ ok (shrike_log_dump_last n g).2.2
  /\ ok (shrike_log_search keyword max_results g).2.1.
Proof.
  intros Hv _ g ok.
  assert (Hwf : log_wf g) by apply run_log_calls_wf, log_zero_wf.
  assert (Hok : levels_ok g).
  { apply levels_ok_calls; [apply log_zero_wf|done|apply Forall_nil_2]. }
  assert (Hsub : forall l,
            l `sublist_of` log_view g -> ok (print_entry <$> l)).
  { intros l Hl. apply Forall_fmap, Forall_forall. intros e He.
    apply tag_defined. unfold levels_ok in Hok.
    rewrite Forall_forall in Hok. by apply Hok, (sublist_subseteq _ _ Hl). }
  split_and!.
  - apply Hsub, sublist_filter.
  - rewrite dump_last_lines by done. apply Hsub, sublist_drop.
  - rewrite search_lines. cbn [fst].
    apply Hsub. etrans; [apply sublist_take|apply sublist_filter].
Qed.

Lemma printed_tags_in_bounds_witness :
  Forall (fun ln => is_Some (line_tag ln))
    (shrike_log_dump LOG_LVL_DEBUG (run_log_calls demo_mixed log_zero)).2.1.
Proof.
  apply (printed_tags_in_bounds demo_mixed LOG_LVL_DEBUG 0 "" 0).
  - unfold valid_levels, demo_mixed. repeat constructor.
  - vm_compute. split; reflexivity.
Defined.

(** [shrike_log] stores a message whose level lies above the enumerators:
    such a level passes every filter, the entry is buffered and counted in
    [total_messages] but in no [per_level] counter, and the line printed for
    it reads its tag past the end of [log_level_tags]. *)
Theorem level_above_enumerators_is_stored now lvl m text g :
  log_wf g -> (LOG_LVL_COUNT <= lvl)%N ->
  let g' := shrike_log now lvl m text g in
  let e := new_entry now lvl m text (next_seq (log_buf g)) in
  last (log_view g') = Some e
  /\ total_messages (log_st g') = u32_incr (total_messages (log_st g))
  /\ per_level (log_st g') = per_level (log_st g)
  /\ line_tag (print_entry e) = None.
Proof.
  intros Hwf Hl g' e.
  assert (Hacc : (lvl <? log_min_level g)%N = false).
  { destruct Hwf as (_ & _ & _ & _ & _ & Hm). apply N.ltb_ge. lia. }
  split_and!.
  - subst g'. rewrite log_view_push by done. apply last_snoc.
  - subst g'. unfold shrike_log. by rewrite Hacc.
  - subst g'. unfold shrike_log. rewrite Hacc. cbn [log_st per_level].
    by destruct (N.ltb_spec lvl LOG_LVL_COUNT); [lia|].
  - cbn [line_tag print_entry e new_entry level]. apply lookup_ge_None_2.
    cbn [length log_level_tags]. unfold LOG_LVL_COUNT in Hl. lia.
Qed.

Lemma level_above_enumerators_is_stored_witness :
  last (log_view (shrike_log 9 7 None "odd" log_zero))
  = Some (new_entry 9 7 None "odd" 0).
Proof.
  apply (level_above_enumerators_is_stored 9 7 None "odd" log_zero).
  - unfold log_wf. vm_compute. split_and!; (reflexivity || discriminate).
  - vm_compute. discriminate.
Defined.

(** ** The level filter *)

(** In every state the logger reaches the filter is one of the four
    levels: [shrike_log_set_level] ignores any other value and stores a
    valid one, so the names [shrike_log_dump_stats] prints, the name of the
    filter included, are all read inside [log_level_names]. *)
Theorem level_filter_stays_valid cs min :
  let g := run_log_calls cs log_zero in
  (shrike_log_get_level g < LOG_LVL_COUNT)%N
  /\ shrike_log_get_level (shrike_log_set_level min g)
     = (if (min <? LOG_LVL_COUNT)%N then min else shrike_log_get_level g)
  /\ is_Some (shrike_log_dump_stats g).2
  /\ Forall (fun p => is_Some p.1 /\ is_Some p.2)
       (shrike_log_dump_stats g).1.2.
Proof.
  intros g.
  assert (Hwf : log_wf g) by apply run_log_calls_wf, log_zero_wf.
  destruct Hwf as (_ & _ & _ & _ & Hp & Hm).
  split_and!.
  - done.
  - unfold shrike_log_set_level, shrike_log_get_level.
    by destruct (min <? LOG_LVL_COUNT)%N.
  - cbn. apply lookup_lt_is_Some. cbn [length log_level_names].
    unfold LOG_LVL_COUNT in Hm. lia.
  - cbn [shrike_log_dump_stats fst snd]. apply Forall_fmap, Forall_forall.
    intros i Hi%elem_of_seq. cbn. split; apply lookup_lt_is_Some.
    + cbn [length log_level_names]. unfold LOG_LVL_COUNT in Hi. lia.
    + rewrite Hp. lia.
Qed.

End LoggerFacts.

(** * Properties of command.c *)

Module CommandFacts.
Import Command.

(** ** Lookup *)

Lemma name_match_lower a b : name_match a b = true <-> lower a = lower b.
Proof.
  revert b. induction a as [|x a IH]; intros [|y b]; cbn; try done.
  destruct (Ascii.eqb_spec (tolower x) (tolower y)) as [Heq|Hne].
  - rewrite IH. split; [by intros ->; rewrite Heq|by intros [= _ ?]].
  - split; [done|]. by intros [= ? _].
Qed.

(** [cmd_find] returns the first registered entry, in the order of
    registration, whose name equals the given one up to the case of ASCII
    letters, and nothing when there is none. *)
Theorem cmd_find_first_match nm st :
  match cmd_find nm st with
  | Some (i, e) =>
      registered st !! i = Some e
      /\ lower (name e) = lower nm
      /\ forall j e', registered st !! j = Some e' -> (j < i)%nat ->
                      lower (name e') <> lower nm
  | None => forall e, e ∈ registered st -> lower (name e) <> lower nm
  end.
Proof.
  unfold cmd_find. fold (registered st).
  destruct (list_find _ _) as [[i e]|] eqn:Hf.
  - apply list_find_Some in Hf as (Hi & He & Hmin).
    split_and!; [done|by apply name_match_lower|].
    intros j e' Hj Hlt Heq. by apply (Hmin j e' Hj Hlt), name_match_lower.
  - rewrite list_find_None, Forall_forall in Hf.
    intros e He Heq. by apply (Hf e He), name_match_lower.
Qed.

Lemma registered_register nm hlp usg h min_a max_a st :
  cmd_wf st -> cmd_count st < CMD_MAX_COMMANDS ->
  registered (cmd_register nm hlp usg h min_a max_a st).2
  = registered st ++ [mk_cmd_entry nm hlp usg h min_a max_a false].
Proof.
  intros [Hlen Hc] Hroom. unfold cmd_register, registered.
  destruct (Z.leb_spec CMD_MAX_COMMANDS (cmd_count st)); [lia|].
  cbn [snd cmd_count cmd_table].
  unfold CMD_MAX_COMMANDS in *.
  replace (Z.to_nat (cmd_count st + 1))
    with (S (Z.to_nat (cmd_count st))) by lia.
  erewrite take_S_r.
  - f_equal. rewrite take_insert_ge; [done|lia].
  - apply list_lookup_insert_eq. lia.
Qed.

(** [cmd_register] does not look for the name in the table: registering a
    name that is already registered, up to the case of letters, succeeds and
    takes a slot, but the new entry is never found; every lookup answers as
    before. *)
Theorem duplicate_name_is_shadowed nm hlp usg h min_a max_a st e :
  cmd_wf st -> cmd_count st < CMD_MAX_COMMANDS ->
  e ∈ registered st -> lower (name e) = lower nm ->
  let r := cmd_register nm hlp usg h min_a max_a st in
  r.1 = 0
  /\ cmd_count r.2 = cmd_count st + 1
  /\ forall query, cmd_find query r.2 = cmd_find query st.
Proof.
  intros Hwf Hroom He Hname r.
  split_and!.
  - subst r. unfold cmd_register.
    by destruct (Z.leb_spec CMD_MAX_COMMANDS (cmd_count st)); [lia|].
  - subst r. unfold cmd_register.
    by destruct (Z.leb_spec CMD_MAX_COMMANDS (cmd_count st)); [lia|].
  - intros query. unfold cmd_find. fold (registered r.2) (registered st).
    subst r. rewrite registered_register by done.
    destruct (list_find _ (registered st)) as [[i x]|] eqn:Hf.
    + by apply list_find_app_l.
    + rewrite list_find_app_r by done. cbn.
      case_decide as Hm; [|done]. exfalso.
      rewrite list_find_None, Forall_forall in Hf.
      apply (Hf e He). apply name_match_lower.
      apply name_match_lower in Hm. cbn in Hm. congruence.
Qed.

Lemma duplicate_name_is_shadowed_witness :
  cmd_find "Help"
    (cmd_register "HELP" None None cmd_echo_handler 0 8
       (cmd_init cmd_zero)).2
  = cmd_find "Help" (cmd_init cmd_zero).
Proof.
  apply (duplicate_name_is_shadowed "HELP" None None cmd_echo_handler 0 8
           (cmd_init cmd_zero)
           (mk_cmd_entry "help" (Some "Show available commands"%string)
              (Some "help"%string) cmd_help_handler 0 0 false)).
  - split; [reflexivity|]. vm_compute. split; discriminate.
  - reflexivity.
  - vm_compute. constructor.
  - reflexivity.
Defined.

(** ** History *)

Ltac hist_arith :=
  unfold history_at, history_start, history_prev, CMD_HISTORY_DEPTH in *;
  cbn [head count lines] in *;
  Z.to_euclidean_division_equations; lia.

Lemma history_view_eq h :
  history_view h = history_at h <$> seqZ 0 (count h).
Proof.
  unfold history_view, cmd_history_dump. rewrite <- list_fmap_compose.
  by apply list_fmap_ext.
Qed.

Lemma history_view_lookup h (i : nat) :
  history_view h !! i
  = if decide (Z.of_nat i < count h) then Some (history_at h (Z.of_nat i))
    else None.
Proof.
  rewrite history_view_eq, list_lookup_fmap.
  case_decide.
  - by rewrite lookup_seqZ_lt.
  - rewrite lookup_seqZ_ge; [done|lia].
Qed.

Lemma history_view_length h :
  length (history_view h) = Z.to_nat (count h).
Proof. by rewrite history_view_eq, length_fmap, length_seqZ. Qed.

Lemma history_last h :
  history_wf h ->
  last (history_view h)
  = if 0 <? count h
    then Some (default ""%string (lines h !! Z.to_nat (history_prev h)))
    else None.
Proof.
  intros (Hlen & Hh & Hc).
  rewrite last_lookup, history_view_length, history_view_lookup.
  destruct (Z.ltb_spec 0 (count h)).
  - rewrite decide_True by lia. unfold history_at. do 3 f_equal.
    hist_arith.
  - by rewrite decide_False by lia.
Qed.

Lemma history_view_store x h :
  history_wf h ->
  history_view
    {| lines := <[Z.to_nat (head h) := x]> (lines h);
       head := Z.rem (head h + 1) CMD_HISTORY_DEPTH;
       count := if count h <? CMD_HISTORY_DEPTH then count h + 1
                else count h |}
  = last_n (Z.to_nat CMD_HISTORY_DEPTH) (history_view h ++ [x]).
Proof.
  intros (Hlen & Hh & Hc).
  set (h' := mk_cmd_history _ _ _).
  pose proof (history_view_length h) as Hl.
  assert (Hat : forall j, 0 <= j ->
            Z.rem (history_start h' + j) CMD_HISTORY_DEPTH <> head h ->
            history_at h' j
            = default ""%string
                (lines h !! Z.to_nat (Z.rem (history_start h' + j)
                                        CMD_HISTORY_DEPTH))).
  { intros j Hj Hne. unfold history_at at 1. subst h'. cbn [lines].
    rewrite list_lookup_insert_ne; [done|].
    intros Heq. apply Hne. revert Heq.
    destruct (Z.ltb_spec (count h) CMD_HISTORY_DEPTH); hist_arith. }
  assert (Hnew : forall j, 0 <= j ->
            Z.rem (history_start h' + j) CMD_HISTORY_DEPTH = head h ->
            history_at h' j = x).
  { intros j Hj Heq. unfold history_at. rewrite Heq. subst h'. cbn [lines].
    rewrite list_lookup_insert_eq; [done|].
    unfold CMD_HISTORY_DEPTH in *. lia. }
  apply list_eq. intros i. rewrite history_view_lookup.
  destruct (Z.ltb_spec (count h) CMD_HISTORY_DEPTH) as [Hroom|Hfull].
  - rewrite last_n_snoc_room by (unfold CMD_HISTORY_DEPTH in *; lia).
    destruct (decide (i < length (history_view h))%nat) as [Hi|Hi].
    + rewrite lookup_app_l by done. rewrite history_view_lookup.
      rewrite Hl in Hi. subst h'. cbn [count].
      rewrite !decide_True by lia. f_equal. rewrite Hat.
      * unfold history_at. do 3 f_equal. hist_arith.
      * lia.
      * hist_arith.
    + rewrite lookup_app_r by lia. rewrite Hl in *.
      destruct (decide (i = Z.to_nat (count h))) as [->|Hne].
      * rewrite Nat.sub_diag. cbn [lookup list_lookup].
        subst h'; cbn [count]. rewrite decide_True by lia.
        f_equal. apply Hnew; [lia|]. hist_arith.
      * subst h'; cbn [count]. rewrite decide_False by lia.
        symmetry. apply lookup_ge_None_2. cbn [length]. lia.
  - assert (Hc8 : count h = 8) by (unfold CMD_HISTORY_DEPTH in *; lia).
    rewrite last_n_snoc_full by (rewrite ?Hl, ?Hc8; done || lia).
    destruct (decide (i < 7)%nat) as [Hi|Hi].
    + rewrite lookup_app_l by (rewrite length_drop, Hl; lia).
      rewrite lookup_drop, history_view_lookup.
      subst h'. cbn [count]. rewrite !decide_True by lia.
      f_equal. rewrite Hat.
      * unfold history_at. do 3 f_equal. hist_arith.
      * lia.
      * hist_arith.
    + rewrite lookup_app_r by (rewrite length_drop, Hl; lia).
      rewrite length_drop, Hl, Hc8.
      destruct (decide (i = 7)%nat) as [->|Hne].
      * cbn [lookup list_lookup]. change (7 - (Z.to_nat 8 - 1))%nat with 0%nat.
        cbn [lookup list_lookup].
        subst h'; cbn [count]. rewrite decide_True by lia.
        f_equal. apply Hnew; [lia|]. hist_arith.
      * subst h'; cbn [count]. rewrite decide_False by lia.
        symmetry. apply lookup_ge_None_2. cbn [length]. lia.
Qed.

Lemma history_add_wf line h : history_wf h -> history_wf (history_add line h).
Proof.
  intros (Hlen & Hh & Hc). unfold history_add.
  destruct line as [|c line]; [done|].
  destruct (_ && _); [done|].
  unfold history_wf, CMD_HISTORY_DEPTH in *. cbn [lines head count].
  rewrite length_insert.
  destruct (Z.ltb_spec (count h) 8);
    split_and!; try done; try lia; Z.to_euclidean_division_equations; lia.
Qed.

(** [history_add] skips the empty line and a line equal to the one
    recorded last; any other line is recorded, cut to 127 characters, and
    the history keeps the latest 8 recorded lines, oldest first. *)
Theorem history_keeps_latest_lines line h :
  history_wf h ->
  let h' := history_add line h in
  history_wf h'
  /\ history_view h'
     = if decide (line = ""%string \/ last (history_view h) = Some line)
       then history_view h
       else last_n (Z.to_nat CMD_HISTORY_DEPTH)
              (history_view h ++ [substring 0 (CMD_MAX_LINE - 1) line]).
Proof.
  intros Hwf h'. split; [by apply history_add_wf|].
  subst h'. unfold history_add. rewrite history_last by done.
  destruct line as [|c line].
  { by rewrite decide_True by (by left). }
  destruct (Z.ltb_spec 0 (count h)) as [Hpos|Hzero]; cbn [andb].
  - destruct (String.eqb_spec
                (default ""%string (lines h !! Z.to_nat (history_prev h)))
                (String c line)) as [Heq|Hne].
    + rewrite decide_True; [done|]. right. by rewrite Heq.
    + rewrite decide_False by (intros [?|[= ?]]; done).
      by apply history_view_store.
  - rewrite decide_False by (intros [?|?]; done).
    by apply history_view_store.
Qed.

Lemma history_keeps_latest_lines_witness :
  history_view (history_add "status" demo_history)
  = if decide ("status"%string = ""%string
               \/ last (history_view demo_history) = Some "status"%string)
    then history_view demo_history
    else last_n (Z.to_nat CMD_HISTORY_DEPTH)
           (history_view demo_history
              ++ [substring 0 (CMD_MAX_LINE - 1) "status"]).
Proof.
  apply (history_keeps_latest_lines "status" demo_history).
  unfold history_wf. vm_compute. split_and!; (reflexivity || discriminate).
Defined.

(** ** Tokeniser *)

Lemma tokenise_from_length room p :
  (length (tokenise_from room p) <= room)%nat.
Proof.
  revert p. induction room as [|room IH]; intros p; cbn [tokenise_from].
  - cbn. lia.
  - destruct (skip_spaces p) as [|c rest]; [cbn; lia|].
    destruct (Ascii.eqb c dquote).
    + destruct (strchr rest dquote) as [[tok after]|]; cbn [length].
      * specialize (IH after). lia.
      * lia.
    + cbn [length].
      match goal with
      | |- (S (length (tokenise_from _ ?q)) <= _)%nat => specialize (IH q)
      end. lia.
Qed.

Lemma skip_spaces_head p c rest :
  skip_spaces p = String c rest -> isspace c = false.
Proof.
  induction p as [|d p IH]; cbn; [done|].
  destruct (isspace d) eqn:Hd; [done|]. by intros [= <- _].
Qed.

Lemma skip_spaces_id c rest :
  isspace c = false -> skip_spaces (String c rest) = String c rest.
Proof. intros H. cbn. by rewrite H. Qed.

Lemma skip_spaces_empty p :
  skip_spaces p = EmptyString -> string_forall isspace p = true.
Proof.
  induction p as [|d p IH]; cbn; [done|].
  destruct (isspace d) eqn:Hd; [done|]. done.
Qed.

Lemma skip_spaces_blank p :
  string_forall isspace p = true -> skip_spaces p = EmptyString.
Proof.
  induction p as [|d p IH]; cbn; [done|].
  destruct (isspace d); [done|done].
Qed.

Lemma rtrim_empty s :
  rtrim s = EmptyString -> string_forall isspace s = true.
Proof.
  induction s as [|c s IH]; cbn; [done|].
  destruct (rtrim s) as [|d t]; [|done].
  destruct (isspace c); [by rewrite IH|done].
Qed.

Lemma rtrim_head s c t :
  rtrim s = String c t -> exists s', s = String c s'.
Proof.
  destruct s as [|d s]; cbn; [done|].
  destruct (rtrim s) as [|e u].
  - destruct (isspace d); [done|]. intros [= <- _]. by eexists.
  - intros [= <- _]. by eexists.
Qed.

Lemma tokenise_from_nonempty room c rest :
  isspace c = false ->
  tokenise_from (S room) (String c rest) <> [].
Proof.
  intros Hc. cbn [tokenise_from]. rewrite skip_spaces_id by done.
  destruct (Ascii.eqb c dquote); [|done].
  by destruct (strchr rest dquote) as [[tok after]|].
Qed.

Lemma span_word_spec p :
  no_space (span_word p).1 = true
  /\ (no_quote p = true -> no_quote (span_word p).2 = true)
  /\ (forall c rest, p = String c rest -> isspace c = false ->
        (span_word p).1 <> EmptyString).
Proof.
  induction p as [|d p (IH1 & IH2 & IH3)]; cbn; [done|].
  destruct (isspace d) eqn:Hd; cbn.
  - split_and!; [done|done|]. intros c rest [= <- _]. congruence.
  - rewrite Hd. cbn. split_and!; [done| |done].
    intros [_ ?]%andb_true_iff. by apply IH2.
Qed.

Lemma no_quote_skip p : no_quote p = true -> no_quote (skip_spaces p) = true.
Proof.
  induction p as [|d p IH]; cbn; [done|].
  intros [Hd Hp]%andb_true_iff.
  destruct (isspace d); [by apply IH|]. cbn. by rewrite Hd.
Qed.

Lemma no_quote_tail c s : no_quote (String c s) = true -> no_quote s = true.
Proof. cbn. by intros [_ ?]%andb_true_iff. Qed.

Lemma tokenise_from_words room p :
  no_quote p = true ->
  Forall (fun t => t <> EmptyString /\ no_space t = true)
    (tokenise_from room p).
Proof.
  revert p. induction room as [|room IH]; intros p Hq; cbn [tokenise_from].
  { apply Forall_nil_2. }
  apply no_quote_skip in Hq.
  destruct (skip_spaces p) as [|c rest] eqn:Hp; [apply Forall_nil_2|].
  apply skip_spaces_head in Hp.
  assert (Ascii.eqb c dquote = false) as ->.
  { cbn in Hq. apply andb_true_iff in Hq as [Hc _].
    by apply negb_true_iff in Hc. }
  destruct (span_word_spec (String c rest)) as (H1 & H2 & H3).
  apply Forall_cons. split; [split; [by eapply H3|done]|].
  apply IH. specialize (H2 Hq).
  destruct (span_word (String c rest)).2; [done|]. by eapply no_quote_tail.
Qed.

(** [tokenise] stores at most [max_tok] tokens and at least one when the
    line starts with a character that is not white space; the tokens of a
    line without a double quote are not empty and contain no white space. *)
Theorem tokenise_stores_words line max_tok :
  Z.of_nat (length (tokenise line max_tok)) <= Z.max 0 max_tok
  /\ (forall c rest, 0 < max_tok -> isspace c = false ->
        tokenise (String c rest) max_tok <> [])
  /\ (no_quote line = true ->
      Forall (fun t => t <> EmptyString /\ no_space t = true)
        (tokenise line max_tok)).
Proof.
  unfold tokenise. split_and!.
  - pose proof (tokenise_from_length (Z.to_nat max_tok) line). lia.
  - intros c rest Hm Hc.
    replace (Z.to_nat max_tok) with (S (Z.to_nat (max_tok - 1))) by lia.
    by apply tokenise_from_nonempty.
  - apply tokenise_from_words.
Qed.

(** ** Dispatch *)

Section ExecuteFacts.
Variable strtol_int : string -> option Z.

Lemma trimmed_blank line :
  rtrim (skip_spaces line) = EmptyString -> blank line.
Proof.
  intros H. apply skip_spaces_empty.
  destruct (skip_spaces line) as [|c rest] eqn:Hs; [done|].
  apply skip_spaces_head in Hs. apply rtrim_empty in H. cbn in H.
  rewrite Hs in H. done.
Qed.

Lemma trimmed_tokens line c t :
  rtrim (skip_spaces line) = String c t ->
  tokenise (String c t) (CMD_MAX_ARGS + 1) <> []
  /\ (length (tokenise (String c t) (CMD_MAX_ARGS + 1)) <= 9)%nat.
Proof.
  intros H. split.
  - apply rtrim_head in H as [s' Hs]. apply skip_spaces_head in Hs.
    unfold tokenise. by apply (tokenise_from_nonempty 8).
  - apply tokenise_from_length.
Qed.

Lemma cmd_find_registered nm st i e :
  cmd_find nm st = Some (i, e) -> e ∈ registered st.
Proof.
  unfold cmd_find. intros (Hi & _)%list_find_Some.
  by eapply list_elem_of_lookup_2.
Qed.

(** What one call of [cmd_execute] returns and does, by what it finds. *)
Lemma cmd_execute_spec line st :
  let r := cmd_execute strtol_int line st in
  match r.1.2 with
  | EvIgnored => blank line /\ r.1.1 = 0 /\ r.2 = st
  | EvUnknown tok => r.1.1 = -1 /\ cmd_find tok st = None
  | EvUsage e => r.1.1 = 0 /\ e ∈ registered st
  | EvTooFew e argc =>
      r.1.1 = -1 /\ e ∈ registered st /\ 0 <= argc < min_args e
  | EvTooMany e argc =>
      r.1.1 = -1 /\ e ∈ registered st
      /\ max_args e < argc <= CMD_MAX_ARGS
  | EvRun e args ret =>
      r.1.1 = ret /\ ret = handler e args /\ e ∈ registered st
      /\ min_args e <= Z.of_nat (length args) <= max_args e
      /\ Z.of_nat (length args) <= CMD_MAX_ARGS
  end
  /\ cmd_table r.2 = cmd_table st
  /\ cmd_count r.2 = cmd_count st
  /\ cmd_hist r.2 = history_add (rtrim (skip_spaces line)) (cmd_hist st)
  /\ cmd_stats r.2 = apply_event r.1.2 (cmd_stats st).
Proof.
  cbn zeta. unfold cmd_execute.
  destruct line as [|c0 line0]; [by cbn|].
  set (line := String c0 line0).
  destruct (rtrim (skip_spaces line)) as [|c t] eqn:Htrim.
  { cbn. split_and!; try done. by apply trimmed_blank. }
  destruct (trimmed_tokens _ _ _ Htrim) as [Hne Hlen].
  destruct (tokenise (String c t) (CMD_MAX_ARGS + 1)) as [|tok0 rest] eqn:Htok;
    [done|].
  cbn [length] in Hlen.
  set (st1 := mk_cmd _ _ _ _).
  assert (Hfind : forall nm, cmd_find nm (with_stats count_total st1)
                             = cmd_find nm st) by done.
  rewrite Hfind.
  destruct (cmd_find tok0 st) as [[i entry]|] eqn:Hf; [|by cbn].
  apply cmd_find_registered in Hf.
  destruct (match rest with tok1 :: _ => streq tok1 "--help" | [] => false end);
    [by cbn|].
  destruct (Z.ltb_spec (Z.of_nat (length rest)) (min_args entry)).
  { cbn. split_and!; try done; lia. }
  destruct (Z.ltb_spec (max_args entry) (Z.of_nat (length rest))).
  { cbn. unfold CMD_MAX_ARGS. split_and!; try done; lia. }
  cbn [fst snd]. rewrite length_fmap. unfold CMD_MAX_ARGS.
  split_and!; try done; try lia.
Qed.



Lemma events_nonneg P rs : 0 <= events P rs.
Proof. unfold events. lia. Qed.





End ExecuteFacts.


(** ** Registration *)

Lemma cmd_register_wf nm hlp usg h min_a max_a st :
  cmd_wf st -> cmd_wf (cmd_register nm hlp usg h min_a max_a st).2.
Proof.
  intros [Hlen Hc]. unfold cmd_register.
  destruct (Z.leb_spec CMD_MAX_COMMANDS (cmd_count st)); [done|].
  unfold cmd_wf. cbn [snd cmd_table cmd_count]. rewrite length_insert.
  split; [done|lia].
Qed.

Lemma cmd_register_full nm hlp usg h min_a max_a st :
  CMD_MAX_COMMANDS <= cmd_count st ->
  cmd_register nm hlp usg h min_a max_a st = (-1, st).
Proof.
  intros H. unfold cmd_register.
  by destruct (Z.leb_spec CMD_MAX_COMMANDS (cmd_count st)); [|lia].
Qed.

Lemma cmd_init_registered st :
  cmd_wf st ->
  cmd_wf (cmd_init st)
  /\ registered (cmd_init st)
     = [mk_cmd_entry "help" (Some "Show available commands"%string)
          (Some "help"%string) cmd_help_handler 0 0 false;
        mk_cmd_entry "status" (Some "Command engine statistics"%string)
          (Some "status"%string) cmd_status_handler 0 0 false;
        mk_cmd_entry "history" (Some "Show command history"%string)
          (Some "history"%string) cmd_history_handler 0 0 false;
        mk_cmd_entry "echo" (Some "Echo arguments back"%string)
          (Some "echo <args...>"%string) cmd_echo_handler 0 CMD_MAX_ARGS
          false;
        mk_cmd_entry "uptime" (Some "Show system uptime"%string)
          (Some "uptime"%string) cmd_uptime_handler 0 0 false;
        mk_cmd_entry "version" (Some "Show firmware version"%string)
          (Some "version"%string) cmd_version_handler 0 0 false].
Proof.
  intros [Hlen Hc]. unfold cmd_init, cmd_register_builtins.
  set (st0 := mk_cmd _ _ _ _).
  assert (Hwf0 : cmd_wf st0)
    by (split; [done|cbn; unfold CMD_MAX_COMMANDS; lia]).
  assert (Hc0 : cmd_count st0 = 0) by done.
  assert (Hr0 : registered st0 = []) by done.
  assert (Hstep : forall nm hlp usg h a b st k l,
            cmd_wf st -> cmd_count st = k -> k < 23 -> registered st = l ->
            let st' := (cmd_register nm hlp usg h a b st).2 in
            cmd_wf st' /\ cmd_count st' = k + 1
            /\ registered st' = l ++ [mk_cmd_entry nm hlp usg h a b false]).
  { intros nm hlp usg h a b st1 k l Hwf Hk Hlt Hl. cbn zeta.
    split_and!.
    - by apply cmd_register_wf.
    - unfold cmd_register.
      destruct (Z.leb_spec CMD_MAX_COMMANDS (cmd_count st1));
        [unfold CMD_MAX_COMMANDS in *; lia|]. cbn. lia.
    - rewrite registered_register, Hl; [done|done|].
      unfold CMD_MAX_COMMANDS. lia. }
  cbn zeta.
  edestruct (Hstep "help"%string) as (Hw1 & Hc1 & Hr1);
    [exact Hwf0|exact Hc0|lia|exact Hr0|].
  edestruct (Hstep "status"%string) as (Hw2 & Hc2 & Hr2);
    [exact Hw1|exact Hc1|lia|exact Hr1|].
  edestruct (Hstep "history"%string) as (Hw3 & Hc3 & Hr3);
    [exact Hw2|exact Hc2|lia|exact Hr2|].
  edestruct (Hstep "echo"%string) as (Hw4 & Hc4 & Hr4);
    [exact Hw3|exact Hc3|lia|exact Hr3|].
  edestruct (Hstep "uptime"%string) as (Hw5 & Hc5 & Hr5);
    [exact Hw4|exact Hc4|lia|exact Hr4|].
  edestruct (Hstep "version"%string) as (Hw6 & Hc6 & Hr6);
    [exact Hw5|exact Hc5|lia|exact Hr5|].
  split; [exact Hw6|exact Hr6].
Qed.

Lemma help_lines_all l :
  Forall (fun e => hidden e = false) l ->
  omap (fun e => if hidden e then None
                 else Some (name e, default ""%string (help e))) l
  = (fun e => (name e, default ""%string (help e))) <$> l.
Proof.
  induction 1 as [|e l He _ IH]; [done|].
  cbn. rewrite He. cbn. by rewrite IH.
Qed.

(** No command is ever hidden: [cmd_register] clears [hidden] and nothing
    sets it, so the help handler lists every registered command, in the
    order of registration. After [cmd_init] these are the six built-ins,
    whatever was registered before. *)
Theorem help_lists_every_command st :
  cmd_wf st -> none_hidden st ->
  cmd_help_lines st
  = (fun e => (name e, default ""%string (help e))) <$> registered st
  /\ (forall nm hlp usg h min_a max_a,
        none_hidden (cmd_register nm hlp usg h min_a max_a st).2)
  /\ (forall strtol_int line,
        none_hidden (cmd_execute strtol_int line st).2)
  /\ none_hidden (cmd_init st)
  /\ (cmd_help_lines (cmd_init st)).*1
     = ["help"; "status"; "history"; "echo"; "uptime"; "version"]%string.
Proof.
  intros Hwf Hh.
  destruct (cmd_init_registered st Hwf) as [Hwfi Hri].
  assert (Hhi : none_hidden (cmd_init st)).
  { unfold none_hidden. rewrite Hri. repeat constructor. }
  split_and!.
  - by apply help_lines_all.
  - intros nm hlp usg h min_a max_a.
    destruct (Z.le_gt_cases CMD_MAX_COMMANDS (cmd_count st)) as [Hf|Hr].
    + by rewrite cmd_register_full.
    + unfold none_hidden. rewrite registered_register by (done || lia).
      apply Forall_app. split; [done|]. by apply Forall_singleton.
  - intros strtol_int line.
    destruct (cmd_execute_spec strtol_int line st) as (_ & Ht & Hc & _).
    unfold none_hidden, registered in *. cbn zeta in Ht, Hc.
    by rewrite Ht, Hc.
  - done.
  - unfold cmd_help_lines. fold (registered (cmd_init st)).
    rewrite help_lines_all by done. by rewrite Hri.
Qed.

Lemma help_lists_every_command_witness :
  (cmd_help_lines (cmd_init cmd_zero)).*1
  = ["help"; "status"; "history"; "echo"; "uptime"; "version"]%string.
Proof.
  apply (help_lists_every_command cmd_zero).
  - split; [reflexivity|]. vm_compute. split; discriminate.
  - apply Forall_nil_2.
Defined.

End CommandFacts.

(** * Properties of main.c *)

Module MonitorFacts.
Import Monitor.




Section WithAtoi.
Variable atoi : string -> Z.




End WithAtoi.

End MonitorFacts.
